(** * Fofa-hack: proxy pool and dual-mode search engine

    A shallow embedding of [fofa_hack/core/proxy.py] (class [ProxyManager])
    and [fofa_hack/core/unified_client.py] (class [UnifiedFofaClient]),
    followed by the properties of the specification that concern them, and
    by further properties of these classes and of the loops of
    [fofa_hack/core/api_client.py] and [fofa_hack/core/anonymous.py].

    Conventions of the embedding.
    - A Python [int] is a [Z]; the rotation cursor [idx], which the code only
      ever assigns [0] or [(idx + 1) % len], is a [nat].
    - A Python [str] is a [string] (its UTF-8 bytes), [Optional[str]] is
      [option string]; Python truthiness is written out ([truthy]).
    - The dict [failed] is a [gmap string Z]; [failed.get(p, 0)] is
      [fail_count].
    - Methods that mutate [self] take the object and return the new one.
      Methods that can raise return a [Res] next to the new object: the
      mutations made before the exception stay, as in Python.
    - Logging to the module logger and [time.sleep] do not touch the objects
      and are left out; the per-call list [logs] of [search] is kept.
    - The network, the scraping helpers and the thread pools are an
      environment that the modelled methods consult ([CycleEnv], [Env]).
      Building an HTTP client is taken to succeed.
    - The value under ["total"] of a response is kept as the JSON document
      gave it ([total_value]): the code never checks its type, and a value
      that is no number makes the comparisons with [0] raise.
    - The caller's path is modelled on its own: a collection cycle is one
      atomic step of the pool, and none completes in the middle of a call of
      [search]. *)

From stdpp Require Import gmap strings list.
From Stdlib Require Import ZArith Lia.
From Stdlib Require QArith.

Local Open Scope Z_scope.

(** ** Python values *)

(** [bool(x)] for [x : Optional[str]]: [None] and the empty string are falsy. *)
Definition truthy (x : option string) : bool :=
  match x with
  | Some s => negb (String.eqb s "")
  | None => false
  end.

(** [needle in hay] on strings. *)
Fixpoint contains (needle hay : string) : bool :=
  String.prefix needle hay ||
  match hay with
  | EmptyString => false
  | String _ rest => contains needle rest
  end.

(** [str.lower] on ASCII text. Python also maps capitals outside ASCII, so
    the engine takes [str.lower] from its environment; the examples use this
    function. *)
Definition lower_ascii (c : Ascii.ascii) : Ascii.ascii :=
  let n := Ascii.nat_of_ascii c in
  if ((65 <=? n) && (n <=? 90))%nat then Ascii.ascii_of_nat (n + 32) else c.

Fixpoint lower (s : string) : string :=
  match s with
  | EmptyString => EmptyString
  | String c rest => String (lower_ascii c) (lower rest)
  end.

(** Exceptions that the modelled code can meet. [IndexError] comes from
    [self.proxies[self.idx]]; [TimeoutError] from
    [concurrent.futures.as_completed]; [ClientError msg] is whatever an HTTP
    client raises, with [str(e) = msg]; [AttributeError msg] comes from a
    method call on a value that has no such method, [TypeError msg] from
    iterating over a value that is not iterable and from ordering a value
    that is no number against an [int], both with [str(e) = msg]. *)
Inductive exn :=
| IndexError
| TimeoutError
| ClientError (msg : string)
| AttributeError (msg : string)
| TypeError (msg : string).

Definition exn_str (e : exn) : string :=
  match e with
  | IndexError => "list index out of range"
  | TimeoutError => ""
  | ClientError msg => msg
  | AttributeError msg => msg
  | TypeError msg => msg
  end.

Inductive Res (A : Type) :=
| Ok (a : A)
| Raise (e : exn).
Arguments Ok {A} a.
Arguments Raise {A} e.

Definition is_Ok {A} (r : Res A) : bool :=
  match r with Ok _ => true | Raise _ => false end.

(** ** The value under ["total"] *)

(** A Python [float]: not a number, an infinity, or a rational number. *)
Inductive pyfloat :=
| FloatNan
| FloatInf (negative : bool)
| FloatFinite (q : QArith_base.Q).

(** What a JSON document can hold under ["total"], and so what the dict
    [FofaResponse.data] can hold there, since [data: Dict[str, Any]] checks
    nothing. [TotalInt z] is an [int] ([True] and [False] are the integers 1
    and 0); [TotalOther type_name truth] is a value that is no number:
    [None], a [str], a [list] or a [dict], with the name of its type and its
    truth value. *)
Inductive total_value :=
| TotalInt (z : Z)
| TotalFloat (f : pyfloat)
| TotalOther (type_name : string) (truth : bool).

(** [bool(total)] *)
Definition total_truthy (total : total_value) : bool :=
  match total with
  | TotalInt z => negb (z =? 0)
  | TotalFloat FloatNan => true
  | TotalFloat (FloatInf _) => true
  | TotalFloat (FloatFinite q) =>
      negb (QArith_base.Qeq_bool q (QArith_base.inject_Z 0))
  | TotalOther _ truth => truth
  end.

(** [total > 0] *)
Definition total_positive (total : total_value) : Res bool :=
  match total with
  | TotalInt z => Ok (0 <? z)
  | TotalFloat FloatNan => Ok false
  | TotalFloat (FloatInf negative) => Ok (negb negative)
  | TotalFloat (FloatFinite q) =>
      Ok (negb (QArith_base.Qle_bool q (QArith_base.inject_Z 0)))
  | TotalOther type_name _ =>
      Raise (TypeError ("'>' not supported between instances of '"
                        +:+ type_name +:+ "' and 'int'"))
  end.

(** [n >= total], for an [int] [n] *)
Definition total_at_most (total : total_value) (n : Z) : Res bool :=
  match total with
  | TotalInt z => Ok (z <=? n)
  | TotalFloat FloatNan => Ok false
  | TotalFloat (FloatInf negative) => Ok negative
  | TotalFloat (FloatFinite q) =>
      Ok (QArith_base.Qle_bool q (QArith_base.inject_Z n))
  | TotalOther type_name _ =>
      Raise (TypeError ("'>=' not supported between instances of 'int' and '"
                        +:+ type_name +:+ "'"))
  end.

(** [total > 0 and n >= total]: the right operand is evaluated only when the
    left one is true. *)
Definition total_reached (total : total_value) (n : Z) : Res bool :=
  match total_positive total with
  | Ok true => total_at_most total n
  | Ok false => Ok false
  | Raise e => Raise e
  end.

(** A number, which every [int] can be ordered against. *)
Definition is_number (total : total_value) : bool :=
  match total with
  | TotalInt _ | TotalFloat _ => true
  | TotalOther _ _ => false
  end.

(** ** proxy.py *)

Module Proxy.

Record ProxyManager := mkProxyManager {
  proxies : list string;
  failed : gmap string Z;
  idx : nat;
  pool : list string;            (* the Queue; [put] appends *)
  is_ready : bool;
  allow_direct : bool;
  _refreshing : option bool      (* [None]: the attribute is not set yet *)
}.

(** [ProxyManager.__init__] *)
Definition init (direct : bool) : ProxyManager :=
  {| proxies := []; failed := ∅; idx := 0; pool := []; is_ready := false;
     allow_direct := direct; _refreshing := None |}.

(** [self.sources] *)
Definition sources : list string :=
  [ "https://raw.githubusercontent.com/TheSpeedX/PROXY-List/master/http.txt";
    "https://raw.githubusercontent.com/mertguvencli/http-proxy-list/main/proxies.txt";
    "https://raw.githubusercontent.com/ShiftyTR/Proxy-List/master/http.txt";
    "https://raw.githubusercontent.com/sunny9577/proxy-scraper/master/proxies/http.txt";
    "https://raw.githubusercontent.com/roosterkid/openproxylist/main/http.txt";
    "https://raw.githubusercontent.com/mmpx12/proxy-list/master/http.txt";
    "https://raw.githubusercontent.com/rdavydov/proxy-list/main/proxies/http.txt" ].

Definition set_proxies (l : list string) (pm : ProxyManager) : ProxyManager :=
  {| proxies := l; failed := failed pm; idx := idx pm; pool := pool pm;
     is_ready := is_ready pm; allow_direct := allow_direct pm;
     _refreshing := _refreshing pm |}.

Definition set_failed (f : gmap string Z) (pm : ProxyManager) : ProxyManager :=
  {| proxies := proxies pm; failed := f; idx := idx pm; pool := pool pm;
     is_ready := is_ready pm; allow_direct := allow_direct pm;
     _refreshing := _refreshing pm |}.

Definition set_idx (i : nat) (pm : ProxyManager) : ProxyManager :=
  {| proxies := proxies pm; failed := failed pm; idx := i; pool := pool pm;
     is_ready := is_ready pm; allow_direct := allow_direct pm;
     _refreshing := _refreshing pm |}.

Definition set_pool (q : list string) (pm : ProxyManager) : ProxyManager :=
  {| proxies := proxies pm; failed := failed pm; idx := idx pm; pool := q;
     is_ready := is_ready pm; allow_direct := allow_direct pm;
     _refreshing := _refreshing pm |}.

Definition set_is_ready (b : bool) (pm : ProxyManager) : ProxyManager :=
  {| proxies := proxies pm; failed := failed pm; idx := idx pm; pool := pool pm;
     is_ready := b; allow_direct := allow_direct pm;
     _refreshing := _refreshing pm |}.

Definition set_refreshing (b : option bool) (pm : ProxyManager) : ProxyManager :=
  {| proxies := proxies pm; failed := failed pm; idx := idx pm; pool := pool pm;
     is_ready := is_ready pm; allow_direct := allow_direct pm;
     _refreshing := b |}.

(** [self.failed.get(p, 0)] *)
Definition fail_count (pm : ProxyManager) (p : string) : Z :=
  default 0 (failed pm !! p).

(** A proxy is usable while its failure count is below 3. *)
Definition usable (pm : ProxyManager) (p : string) : bool :=
  fail_count pm p <? 3.

(** [add_proxy] *)
Definition add_proxy (proxy : string) (pm : ProxyManager) : ProxyManager :=
  if truthy (Some proxy) && negb (bool_decide (proxy ∈ proxies pm))
  then set_pool (pool pm ++ [proxy]) (set_proxies (proxies pm ++ [proxy]) pm)
  else pm.

(** The round-robin loop shared by [get_proxy] (lines 54-58) and
    [get_next_proxy] (lines 71-75):
    [for _ in range(n): proxy = self.proxies[self.idx];
       self.idx = (self.idx + 1) % len(self.proxies);
       if accept(proxy): return proxy].
    [Ok None] means that the loop ran to its end. *)
Fixpoint cycle (accept : string -> bool) (n : nat) (pm : ProxyManager)
  : Res (option string) * ProxyManager :=
  match n with
  | O => (Ok None, pm)
  | S n' =>
      match proxies pm !! idx pm with
      | None => (Raise IndexError, pm)
      | Some proxy =>
          let pm' := set_idx ((idx pm + 1) mod length (proxies pm))%nat pm in
          if accept proxy then (Ok (Some proxy), pm')
          else cycle accept n' pm'
      end
  end.

(** [all(self.failed.get(p, 0) >= 3 for p in self.proxies)] *)
Definition all_failed (pm : ProxyManager) : bool :=
  forallb (fun p => 3 <=? fail_count pm p) (proxies pm).

(** [get_proxy] *)
Definition get_proxy (pm : ProxyManager) : Res (option string) * ProxyManager :=
  match proxies pm with
  | [] => (Ok None, pm)
  | _ :: _ =>
      let pm1 := if all_failed pm then set_failed ∅ pm else pm in
      cycle (usable pm1) (length (proxies pm1)) pm1
  end.

(** [get_next_proxy] *)
Definition get_next_proxy (current_proxy : option string) (pm : ProxyManager)
  : Res (option string) * ProxyManager :=
  match proxies pm with
  | [] => (Ok None, pm)
  | [p0] => (Ok (if fail_count pm p0 <? 3 then Some p0 else None), pm)
  | p0 :: _ =>
      match cycle (fun proxy => negb (bool_decide (Some proxy = current_proxy))
                                && (fail_count pm proxy <? 3))
                  (length (proxies pm)) pm with
      | (Ok None, pm') =>
          (Ok (if 3 <=? fail_count pm' p0 then None else Some p0), pm')
      | r => r
      end
  end.

(** [mark_failed] *)
Definition mark_failed (proxy : option string) (pm : ProxyManager) : ProxyManager :=
  match proxy with
  | Some p =>
      if truthy proxy then set_failed (<[p := fail_count pm p + 1]> (failed pm)) pm
      else pm
  | None => pm
  end.

(** [mark_success] *)
Definition mark_success (proxy : option string) (pm : ProxyManager) : ProxyManager :=
  match proxy with
  | Some p =>
      if truthy proxy then
        match failed pm !! p with
        | Some c => set_failed (<[p := Z.max 0 (c - 1)]> (failed pm)) pm
        | None => pm
        end
      else pm
  | None => pm
  end.

(** [count] *)
Definition count (pm : ProxyManager) : nat := length (proxies pm).

(** [auto_refresh]. The second component is the thread it starts, if any:
    [Some n] stands for [Thread(target=self._refresh_background, args=(n,))]. *)
Definition auto_refresh (n : Z) (pm : ProxyManager) : ProxyManager * option Z :=
  match _refreshing pm with
  | Some true => (pm, None)
  | _ => (set_refreshing (Some true) pm, Some n)
  end.

(** What one collection cycle meets outside the program.
    - [fetch_source src] is the list [_fetch_source] returns for a source
      (it catches every exception and then returns []).
    - [list_set l] is [list(set(l))]: no duplicates, in an order Python does
      not specify.
    - [as_completed phase keys] is the order in which the futures submitted
      for [keys] complete in phase 0 (fetching), 1 (first validation wave) or
      2 (second wave); [None] when the wall-clock bound of [as_completed]
      expires first, which raises [TimeoutError].
    - [_validate_proxy p] is the verdict of the probe, which catches every
      exception itself. *)
Record CycleEnv := mkCycleEnv {
  fetch_source : string -> list string;
  list_set : list string -> list string;
  as_completed : nat -> list string -> option (list string);
  _validate_proxy : string -> bool
}.

(** Lines 294-299: fill the queue, mark ready. *)
Definition fill_and_ready (pm : ProxyManager) : ProxyManager :=
  set_is_ready true (set_pool (pool pm ++ proxies pm) pm).

(** The [try] block of [_refresh_background]; [Raise] is an exception that
    reaches the [except Exception] clause. Neither [_fetch_source] nor
    [_validate_proxy] raises, so the inner [except: continue] clauses are
    never taken. *)
Definition refresh_body (E : CycleEnv) (pm : ProxyManager) : Res unit * ProxyManager :=
  match as_completed E 0 sources with
  | None => (Raise TimeoutError, pm)
  | Some done =>
      let collected := concat (map (fetch_source E) done) in
      match collected with
      | [] => (Ok tt, set_is_ready true pm)
      | _ :: _ =>
          let collected := list_set E collected in
          let test_count := Nat.min 20 (length collected) in
          match as_completed E 1 (take test_count collected) with
          | None => (Raise TimeoutError, pm)
          | Some done1 =>
              let valid := filter (fun p => _validate_proxy E p = true) done1 in
              if (5 <=? length valid)%nat then
                (Ok tt, fill_and_ready (set_proxies valid pm))
              else if (1 <=? length valid)%nat then
                let remaining := filter (fun p => p ∉ valid) collected in
                match as_completed E 2 (take 50 remaining) with
                | None => (Raise TimeoutError, pm)
                | Some done2 =>
                    let more_valid :=
                      filter (fun p => _validate_proxy E p = true) done2 in
                    (Ok tt, fill_and_ready (set_proxies (valid ++ more_valid) pm))
                end
              else
                (Ok tt, set_is_ready true
                          (if allow_direct pm then set_proxies [] pm else pm))
          end
      end
  end.

(** [_refresh_background]: the [except Exception] clause only logs, and
    [finally] clears the flag. The argument [count] is not used by the code. *)
Definition _refresh_background (E : CycleEnv) (n : Z) (pm : ProxyManager)
  : ProxyManager :=
  set_refreshing (Some false) (snd (refresh_body E pm)).

(** The cursor is well placed: it indexes the sequence, or the sequence is
    empty and the cursor is still at its initial value. *)
Definition cursor_ok (pm : ProxyManager) : Prop :=
  (idx pm < length (proxies pm))%nat ∨ (proxies pm = [] ∧ idx pm = 0%nat).

(** The operations of the pool: the five methods of the callers, and a
    whole collection cycle, which ends in the swap-in of the validated list. *)
Inductive pool_op :=
| OpAdd (p : string)
| OpGet
| OpGetNext (current_proxy : option string)
| OpMarkFailed (p : option string)
| OpMarkSuccess (p : option string)
| OpRefresh (E : CycleEnv) (n : Z).

Definition is_refresh (o : pool_op) : bool :=
  match o with OpRefresh _ _ => true | _ => false end.

Definition run_op (o : pool_op) (pm : ProxyManager) : Res (option string) * ProxyManager :=
  match o with
  | OpAdd p => (Ok None, add_proxy p pm)
  | OpGet => get_proxy pm
  | OpGetNext c => get_next_proxy c pm
  | OpMarkFailed p => (Ok None, mark_failed p pm)
  | OpMarkSuccess p => (Ok None, mark_success p pm)
  | OpRefresh E n => (Ok None, _refresh_background E n pm)
  end.

(** Runs the operations in order; stops at the first exception. *)
Fixpoint run_ops (os : list pool_op) (pm : ProxyManager) : Res unit * ProxyManager :=
  match os with
  | [] => (Ok tt, pm)
  | o :: os' =>
      match run_op o pm with
      | (Ok _, pm') => run_ops os' pm'
      | (Raise e, pm') => (Raise e, pm')
      end
  end.

End Proxy.

(** ** unified_client.py *)

Module Unified.
Import Proxy.

Inductive AccessMode := API | WEB | AUTO.

(** [models/search.py]: one result record. *)
Record SearchResult := mkSearchResult {
  link : string; host : string; port : Z; title : string; ip : string;
  city : string; asn : string; organization : string; server : string;
  mtime : string
}.

(** The fields of [SearchConfig] that the engine reads or writes. The other
    fields ([keyword], [time_sleep], [timeout], ...) only reach the HTTP
    clients and [time.sleep]. *)
Record SearchConfig := mkSearchConfig {
  end_count : Z;
  proxy : option string
}.

(** The dict [FofaResponse.data] as the two clients build it:
    [{"assets": [r.model_dump() ...], "total": ..., "page": ...}]. An asset
    dict produced by [model_dump] carries exactly the fields of the record;
    the total is whatever the answer of the server held. *)
Record ResponseData := mkResponseData {
  assets : list SearchResult;
  data_total : total_value;
  data_page : Z
}.

(** [FofaResponse]; [data = None] is the empty dict [{}]. *)
Record FofaResponse := mkFofaResponse {
  code : Z;
  message : string;
  data : option ResponseData
}.

(** The messages [search] passes to its local [log]. *)
Inductive LogMsg :=
| LogStage1                      (* "第一阶段：尝试API模式..." *)
| LogApiBan                      (* "API封禁，切换代理" *)
| LogApiSuccess (n : nat)        (* "API成功，n条结果" *)
| LogApiEmpty                    (* "API返回空结果" *)
| LogApiNoData                   (* "API返回无数据" *)
| LogApiNone                     (* "API返回None，默认封禁，切换代理" *)
| LogApiException (e : exn)      (* "API异常: e" *)
| LogStage2                      (* "第二阶段：切换到WEB模式..." *)
| LogWaitProxy (n : nat)         (* "等待代理收集中... (n/8)" *)
| LogDirect                      (* "无代理，尝试直连..." *)
| LogNoProxy                     (* "无代理可用" *)
| LogWebNoResponse               (* "WEB请求无响应" *)
| LogWebBan                      (* "WEB被封禁" *)
| LogWebSuccess (n : nat)        (* "WEB成功，n条结果" *)
| LogWebNoResult                 (* "WEB解析无结果" *)
| LogWebParseFail                (* "WEB解析失败" *)
| LogWebException (e : exn)      (* "WEB异常: e" *)
| LogFinalTry (p : option string)(* "最终尝试：重新使用代理 p" *)
| LogFailed                      (* "搜索失败 (所有尝试耗尽)" *)
| LogStats                       (* "统计: ..." *)
| LogDetail.                     (* "详细日志见以上输出" *)

(** The engine object. [_api_client] and [_web_client] hold, when a client
    exists, the proxy its private copy of the configuration was built with.
    [logs] is the local list of the running [search] call. [api_requests] and
    [web_requests] count the requests issued through the two clients; the
    code has no such fields, they make the traffic observable. *)
Record UnifiedFofaClient := mkClient {
  config : SearchConfig;
  mode : AccessMode;
  proxy_manager : ProxyManager;
  _api_client : option (option string);
  _web_client : option (option string);
  total : Z;
  success : Z;
  failed : Z;
  ban_count : Z;
  logs : list LogMsg;
  api_requests : nat;
  web_requests : nat
}.

(** What the engine meets outside itself.
    - [py_lower] is [str.lower].
    - [api_search n prx query page] is the outcome of the [n]-th call of
      [ApiFofaClient.search], made through a client configured with proxy
      [prx]: an exception, [None], or a response.
    - [web_request n prx query page] is what the [n]-th call of
      [AnonymousFofaClient._make_request] returns for the URL of
      [(query, page)].
    - [_parse_json_response], [_extract_assets_from_data],
      [_parse_asset_to_result] are the scraping helpers of the anonymous
      client, which catch their own exceptions; [None] stands for a falsy
      parse result.
    - [_extract_assets_from_data] hands back whatever the page holds under
      ["assets"] or ["results"], unchecked. The field gives what iterating
      over that value yields, the elements of a list for one, or the
      [TypeError] that the comprehension of lines 231 and 269 raises when
      the value is not iterable.
    - [json_total d] is [d.get('data', {}).get('total')] of line 236: the
      exception that the second [get] raises when [d] holds something other
      than a dict under ["data"] (an [AttributeError]), else the value under
      ["total"], or [None] when there is no such key. *)
Record Env := mkEnv {
  py_lower : string -> string;
  api_search : nat -> option string -> string -> Z -> Res (option FofaResponse);
  web_request : nat -> option string -> string -> Z -> option string;
  json : Type;
  asset : Type;
  _parse_json_response : string -> option json;
  _extract_assets_from_data : json -> Res (list asset);
  _parse_asset_to_result : asset -> SearchResult;
  json_total : json -> Res (option total_value)
}.

(** *** Field updates *)

Definition set_config (c : SearchConfig) (s : UnifiedFofaClient) :=
  mkClient c (mode s) (proxy_manager s) (_api_client s) (_web_client s)
    (total s) (success s) (failed s) (ban_count s) (logs s)
    (api_requests s) (web_requests s).

Definition set_proxy (p : option string) (s : UnifiedFofaClient) :=
  set_config (mkSearchConfig (end_count (config s)) p) s.

Definition set_mode (m : AccessMode) (s : UnifiedFofaClient) :=
  mkClient (config s) m (proxy_manager s) (_api_client s) (_web_client s)
    (total s) (success s) (failed s) (ban_count s) (logs s)
    (api_requests s) (web_requests s).

Definition set_proxy_manager (pm : ProxyManager) (s : UnifiedFofaClient) :=
  mkClient (config s) (mode s) pm (_api_client s) (_web_client s)
    (total s) (success s) (failed s) (ban_count s) (logs s)
    (api_requests s) (web_requests s).

Definition set_api_client (c : option (option string)) (s : UnifiedFofaClient) :=
  mkClient (config s) (mode s) (proxy_manager s) c (_web_client s)
    (total s) (success s) (failed s) (ban_count s) (logs s)
    (api_requests s) (web_requests s).

Definition set_web_client (c : option (option string)) (s : UnifiedFofaClient) :=
  mkClient (config s) (mode s) (proxy_manager s) (_api_client s) c
    (total s) (success s) (failed s) (ban_count s) (logs s)
    (api_requests s) (web_requests s).

Definition set_total (n : Z) (s : UnifiedFofaClient) :=
  mkClient (config s) (mode s) (proxy_manager s) (_api_client s) (_web_client s)
    n (success s) (failed s) (ban_count s) (logs s)
    (api_requests s) (web_requests s).

Definition set_success (n : Z) (s : UnifiedFofaClient) :=
  mkClient (config s) (mode s) (proxy_manager s) (_api_client s) (_web_client s)
    (total s) n (failed s) (ban_count s) (logs s)
    (api_requests s) (web_requests s).

Definition set_failed (n : Z) (s : UnifiedFofaClient) :=
  mkClient (config s) (mode s) (proxy_manager s) (_api_client s) (_web_client s)
    (total s) (success s) n (ban_count s) (logs s)
    (api_requests s) (web_requests s).

Definition set_ban_count (n : Z) (s : UnifiedFofaClient) :=
  mkClient (config s) (mode s) (proxy_manager s) (_api_client s) (_web_client s)
    (total s) (success s) (failed s) n (logs s)
    (api_requests s) (web_requests s).

Definition set_logs (l : list LogMsg) (s : UnifiedFofaClient) :=
  mkClient (config s) (mode s) (proxy_manager s) (_api_client s) (_web_client s)
    (total s) (success s) (failed s) (ban_count s) l
    (api_requests s) (web_requests s).

Definition set_api_requests (n : nat) (s : UnifiedFofaClient) :=
  mkClient (config s) (mode s) (proxy_manager s) (_api_client s) (_web_client s)
    (total s) (success s) (failed s) (ban_count s) (logs s)
    n (web_requests s).

Definition set_web_requests (n : nat) (s : UnifiedFofaClient) :=
  mkClient (config s) (mode s) (proxy_manager s) (_api_client s) (_web_client s)
    (total s) (success s) (failed s) (ban_count s) (logs s)
    (api_requests s) n.

(** [UnifiedFofaClient.__init__] without the optional start of a refresh. *)
Definition new_client (cfg : SearchConfig) (initial : list string) : UnifiedFofaClient :=
  mkClient cfg AUTO (foldl (fun pm p => add_proxy p pm) (Proxy.init true) initial)
    None None 0 0 0 0 [] 0 0.

(** *** Methods as state transformers that may raise *)

Definition M (A : Type) : Type := UnifiedFofaClient -> Res A * UnifiedFofaClient.

Definition ret {A} (a : A) : M A := fun s => (Ok a, s).

Definition bind {A B} (m : M A) (k : A -> M B) : M B :=
  fun s =>
    match m s with
    | (Ok a, s') => k a s'
    | (Raise e, s') => (Raise e, s')
    end.

(** [try: m except Exception as e: h e] *)
Definition try_except {A} (m : M A) (h : exn -> M A) : M A :=
  fun s =>
    match m s with
    | (Ok a, s') => (Ok a, s')
    | (Raise e, s') => h e s'
    end.

(** An operation of the interpreter or of the environment that returns or
    raises, and leaves the engine as it is. *)
Definition of_res {A} (r : Res A) : M A := fun s => (r, s).

Definition get : M UnifiedFofaClient := fun s => (Ok s, s).

Definition modify (f : UnifiedFofaClient -> UnifiedFofaClient) : M unit :=
  fun s => (Ok tt, f s).

(** A call of a [ProxyManager] method on [self.proxy_manager]. *)
Definition on_pool {A} (f : ProxyManager -> Res A * ProxyManager) : M A :=
  fun s => (fst (f (proxy_manager s)), set_proxy_manager (snd (f (proxy_manager s))) s).

Definition on_pool_ (f : ProxyManager -> ProxyManager) : M unit :=
  modify (fun s => set_proxy_manager (f (proxy_manager s)) s).

Notation "x <- m ;; k" := (bind m (fun x => k))
  (at level 100, m at next level, right associativity).
Notation "m ;;; k" := (bind m (fun _ => k))
  (at level 100, right associativity).

(** The local function [log] of [search]. *)
Definition log (m : LogMsg) : M unit :=
  modify (fun s => set_logs (logs s ++ [m]) s).

(** What a stage of [search] does next: fall through, or [return r]. *)
Inductive flow :=
| Next
| Return (r : option FofaResponse).

Definition ban_words_api : list string :=
  ["ip访问异常"; "爬虫"; "禁止访问"; "访问异常"; "验证码"].

Definition ban_words_html : list string :=
  ["[-3000]"; "IP访问异常"; "爬虫"; "禁止访问"; "访问异常"].

(** The response that the second and the third stage build from the records
    of a page and a total (lines 238-242 and 273-277). *)
Definition web_response (results : list SearchResult) (total : total_value)
    (page : Z) : FofaResponse :=
  mkFofaResponse 200 "success" (Some (mkResponseData results total page)).

Section Engine.

Variable E : Env.

(** [_is_ban_response], applied to [response.model_dump()], a dict that is
    never empty. *)
Definition _is_ban_response (r : FofaResponse) : bool :=
  if code r =? -3000 then true
  else if code r =? 850100 then true
  else existsb (fun x => contains x (py_lower E (message r))) ban_words_api.

(** [_is_ban_html] *)
Definition _is_ban_html (html : string) : bool :=
  if String.eqb html "" then true
  else if contains "captcha" (py_lower E html) || contains "/captcha" html then true
  else existsb (fun x => contains x html) ban_words_html.

(** What the first stage takes for a ban: no response at all (line 181), or
    a response that [_is_ban_response] classifies as one (line 164). *)
Definition ban_signal (response : option FofaResponse) : bool :=
  match response with
  | None => true
  | Some r => _is_ban_response r
  end.

(** The property [api_client]. *)
Definition api_client : M (option string) :=
  current_proxy <- on_pool get_proxy ;;
  s <- get ;;
  (match _api_client s with
   | Some prx =>
       if bool_decide (prx ≠ current_proxy) then modify (set_api_client None)
       else ret tt
   | None => ret tt
   end) ;;;
  s <- get ;;
  match _api_client s with
  | None => modify (set_api_client (Some current_proxy)) ;;; ret current_proxy
  | Some prx => ret prx
  end.

(** The property [web_client]. *)
Definition web_client : M (option string) :=
  current_proxy <- on_pool get_proxy ;;
  s <- get ;;
  (match _web_client s with
   | Some prx =>
       if bool_decide (prx ≠ current_proxy) then modify (set_web_client None)
       else ret tt
   | None => ret tt
   end) ;;;
  s <- get ;;
  match _web_client s with
  | None => modify (set_web_client (Some current_proxy)) ;;; ret current_proxy
  | Some prx => ret prx
  end.

(** [client.search(query, page)] on the signed client [client]. *)
Definition api_call (client : option string) (query : string) (page : Z)
  : M (option FofaResponse) :=
  fun s => (api_search E (api_requests s) client query page,
            set_api_requests (S (api_requests s)) s).

(** [client._make_request(url)] on the anonymous client [client]; it catches
    every exception and then returns [None]. *)
Definition web_call (client : option string) (query : string) (page : Z)
  : M (option string) :=
  fun s => (Ok (web_request E (web_requests s) client query page),
            set_web_requests (S (web_requests s)) s).

(** [_proxy_failed] *)
Definition _proxy_failed : M unit :=
  s <- get ;;
  (if truthy (proxy (config s)) then on_pool_ (mark_failed (proxy (config s)))
   else ret tt) ;;;
  modify (fun s => set_failed (failed s + 1) s) ;;;
  s <- get ;;
  new_proxy <- on_pool (get_next_proxy (proxy (config s))) ;;
  if truthy new_proxy then
    modify (fun s => set_web_client None (set_api_client None (set_proxy new_proxy s)))
  else ret tt.

(** Lines 152-160: the request of the first stage. *)
Definition api_attempt (query : string) (page : Z) : M (option FofaResponse) :=
  modify (fun s => set_total (total s + 1) s) ;;;
  current_proxy <- on_pool get_proxy ;;
  s <- get ;;
  (if bool_decide (current_proxy ≠ proxy (config s)) then
     modify (fun s => set_api_client None (set_proxy current_proxy s))
   else ret tt) ;;;
  client <- api_client ;;
  api_call client query page.

(** Lines 162-185: what the first stage does with the response. *)
Definition api_handle (response : option FofaResponse) : M flow :=
  match response with
  | Some r =>
      if _is_ban_response r then
        modify (fun s => set_ban_count (ban_count s + 1) s) ;;;
        log LogApiBan ;;;
        _proxy_failed ;;;
        ret Next
      else
        match data r with
        | Some d =>
            match assets d with
            | _ :: _ =>
                modify (fun s => set_success (success s + 1) s) ;;;
                s <- get ;;
                on_pool_ (mark_success (proxy (config s))) ;;;
                log (LogApiSuccess (length (assets d))) ;;;
                ret (Return (Some r))
            | [] => log LogApiEmpty ;;; ret Next
            end
        | None => log LogApiNoData ;;; ret Next
        end
  | None =>
      log LogApiNone ;;;
      modify (fun s => set_ban_count (ban_count s + 1) s) ;;;
      _proxy_failed ;;;
      ret Next
  end.

(** Lines 187-190: the [except] clause of the first stage. *)
Definition api_except (e : exn) : M flow :=
  log (LogApiException e) ;;;
  (if contains "timeout" (py_lower E (exn_str e))
      || contains "connection" (py_lower E (exn_str e))
   then _proxy_failed else ret tt) ;;;
  ret Next.

(** Lines 149-190: the first stage. *)
Definition stage1 (query : string) (page : Z) : M flow :=
  s <- get ;;
  match mode s with
  | API | AUTO =>
      log LogStage1 ;;;
      try_except (response <- api_attempt query page ;; api_handle response)
                 api_except
  | WEB => ret Next
  end.

(** Lines 198-205: [for retry in range(8)], with [retry] counted up from
    [8 - n]. *)
Fixpoint ensure_proxy (n : nat) (retry : nat) : M unit :=
  match n with
  | O => ret tt
  | S n' =>
      current_proxy <- on_pool get_proxy ;;
      if truthy current_proxy then
        modify (fun s => set_web_client None (set_proxy current_proxy s))
      else
        log (LogWaitProxy (retry + 1)) ;;;
        ensure_proxy n' (S retry)
  end.

(** [self.web_client._make_request(self.web_client._build_url(query, page))]:
    the receiver of [_make_request] is evaluated first, then the argument,
    which reads the property a second time. *)
Definition web_fetch (query : string) (page : Z) : M (option string) :=
  client <- web_client ;;
  _ <- web_client ;;
  web_call client query page.

(** The list comprehension
    [[self.web_client._parse_asset_to_result(a) for a in assets]]. *)
Fixpoint parse_assets (l : list (asset E)) : M (list SearchResult) :=
  match l with
  | [] => ret []
  | a :: l' =>
      _ <- web_client ;;
      rs <- parse_assets l' ;;
      ret (_parse_asset_to_result E a :: rs)
  end.

(** Lines 230-231 and 268-269: the helper is called on the client that the
    property returns; the comprehension first takes an iterator of what the
    helper gave, which raises when that is not iterable. *)
Definition web_results (d : json E) : M (list SearchResult) :=
  _ <- web_client ;;
  assets <- of_res (_extract_assets_from_data E d) ;;
  parse_assets assets.

(** Lines 216-245: the [try] block of the second stage. *)
Definition web_attempt (query : string) (page : Z) : M flow :=
  modify (fun s => set_total (total s + 1) s) ;;;
  html <- web_fetch query page ;;
  match html with
  | Some h =>
      if negb (truthy html) then
        log LogWebNoResponse ;;; _proxy_failed ;;; ret Next
      else if _is_ban_html h then
        modify (fun s => set_ban_count (ban_count s + 1) s) ;;;
        log LogWebBan ;;;
        _proxy_failed ;;;
        ret Next
      else
        _ <- web_client ;;
        match _parse_json_response E h with
        | Some d =>
            results <- web_results d ;;
            match results with
            | _ :: _ =>
                modify (fun s => set_success (success s + 1) s) ;;;
                s <- get ;;
                on_pool_ (mark_success (proxy (config s))) ;;;
                total <- of_res (json_total E d) ;;
                log (LogWebSuccess (length results)) ;;;
                ret (Return (Some
                  (web_response results
                     (default (TotalInt (Z.of_nat (length results))) total)
                     page)))
            | [] => log LogWebNoResult ;;; ret Next
            end
        | None => log LogWebParseFail ;;; ret Next
        end
  | None => log LogWebNoResponse ;;; _proxy_failed ;;; ret Next
  end.

(** Lines 197-249: the second stage once it is entered. *)
Definition web_stage (query : string) (page : Z) : M flow :=
  ensure_proxy 8 0 ;;;
  s <- get ;;
  if negb (truthy (proxy (config s))) then
    if allow_direct (proxy_manager s) then
      log LogDirect ;;;
      try_except (web_attempt query page)
        (fun e => log (LogWebException e) ;;; _proxy_failed ;;; ret Next)
    else
      log LogNoProxy ;;; ret (Return None)
  else
    try_except (web_attempt query page)
      (fun e => log (LogWebException e) ;;; _proxy_failed ;;; ret Next).

(** Lines 193-249: the second stage. *)
Definition stage2 (query : string) (page : Z) : M flow :=
  s <- get ;;
  match mode s with
  | AUTO | WEB =>
      modify (set_mode WEB) ;;;
      log LogStage2 ;;;
      web_stage query page
  | API => ret Next
  end.

(** Lines 262-279: the [try] block of the final retry. *)
Definition retry_attempt (query : string) (page : Z) : M flow :=
  modify (fun s => set_total (total s + 1) s) ;;;
  html <- web_fetch query page ;;
  match html with
  | Some h =>
      if truthy html && negb (_is_ban_html h) then
        _ <- web_client ;;
        match _parse_json_response E h with
        | Some d =>
            results <- web_results d ;;
            match results with
            | _ :: _ =>
                modify (fun s => set_success (success s + 1) s) ;;;
                s <- get ;;
                on_pool_ (mark_success (proxy (config s))) ;;;
                ret (Return (Some
                  (web_response results (TotalInt (Z.of_nat (length results)))
                     page)))
            | [] => ret Next
            end
        | None => ret Next
        end
      else ret Next
  | None => ret Next
  end.

(** Lines 253-279: the third stage. *)
Definition stage3 (query : string) (page : Z) (max_retries : Z) : M flow :=
  if 1 <? max_retries then
    current_proxy <- on_pool get_proxy ;;
    s <- get ;;
    if truthy current_proxy && bool_decide (current_proxy ≠ proxy (config s)) then
      log (LogFinalTry current_proxy) ;;;
      modify (fun s => set_mode WEB
                (set_web_client None (set_api_client None (set_proxy current_proxy s)))) ;;;
      try_except (retry_attempt query page) (fun _ => ret Next)
    else ret Next
  else ret Next.

(** Lines 281-287. *)
Definition attempts_exhausted : M (option FofaResponse) :=
  log LogFailed ;;;
  log LogStats ;;;
  s <- get ;;
  (if (10 <? length (logs s))%nat then log LogDetail else ret tt) ;;;
  ret None.

(** What follows the second stage: the third, then lines 281-287. *)
Definition after_stage2 (query : string) (page : Z) (max_retries : Z) (f2 : flow)
  : M (option FofaResponse) :=
  match f2 with
  | Return r => ret r
  | Next =>
      f3 <- stage3 query page max_retries ;;
      match f3 with
      | Return r => ret r
      | Next => attempts_exhausted
      end
  end.

(** What follows the first stage. *)
Definition after_stage1 (query : string) (page : Z) (max_retries : Z)
  : M (option FofaResponse) :=
  f2 <- stage2 query page ;;
  after_stage2 query page max_retries f2.

(** [search] *)
Definition search (query : string) (page : Z) (max_retries : Z)
  : M (option FofaResponse) :=
  modify (set_logs []) ;;;
  f1 <- stage1 query page ;;
  match f1 with
  | Return r => ret r
  | Next => after_stage1 query page max_retries
  end.

(** Lines 345-359: a result record rebuilt from an asset dict. *)
Definition of_asset (r : SearchResult) : SearchResult :=
  {| link := link r;
     host := host r;
     port := if port r =? 0 then 0 else port r;
     title := title r;
     ip := if String.eqb (ip r) "" then "" else ip r;
     city := if String.eqb (city r) "" then "" else city r;
     asn := asn r;
     organization := if String.eqb (organization r) "" then "" else organization r;
     server := if String.eqb (server r) "" then "" else server r;
     mtime := if String.eqb (mtime r) "" then "" else mtime r |}.

(** [response.data.get('assets', [])] when [response.data] is truthy, else
    the empty list (lines 340-343). *)
Definition response_assets (r : FofaResponse) : list SearchResult :=
  match data r with
  | Some d => assets d
  | None => []
  end.

(** [l[:n]] *)
Definition py_take {A} (n : Z) (l : list A) : list A :=
  if 0 <=? n then take (Z.to_nat n) l
  else take (length l - Z.to_nat (- n))%nat l.

(** The local variables of [search_all]. *)
Record LoopState := mkLoopState {
  all_results : list SearchResult;
  page : Z;
  consecutive_failures : Z
}.

Inductive loop_ctl := Continue | Break.

(** [self.proxy_manager.get_proxy() is None and not self.proxy_manager.allow_direct] *)
Definition pool_exhausted : M bool :=
  p <- on_pool get_proxy ;;
  s <- get ;;
  ret (match p with
       | None => negb (allow_direct (proxy_manager s))
       | Some _ => false
       end).

(** Lines 370-373: whether the response reports a total that [n] results
    reach. The total is compared as it is, outside every [try]. *)
Definition reported_total_reached (r : FofaResponse) (n : Z) : Res bool :=
  match data r with
  | Some d =>
      if total_truthy (data_total d) then total_reached (data_total d) n
      else Ok false
  | None => Ok false
  end.

(** Lines 312-377: one turn of the [while] loop. [Break] is [break];
    [Continue] goes back to the loop test, after [continue] or at the end of
    the body. *)
Definition search_all_body (query : string) (max_consecutive_failures : Z)
    (ls : LoopState) : M (loop_ctl * LoopState) :=
  response <- search query (page ls) 3 ;;
  match response with
  | None =>
      let cf := consecutive_failures ls + 1 in
      exhausted <- pool_exhausted ;;
      if exhausted then ret (Break, mkLoopState (all_results ls) (page ls) cf)
      else if max_consecutive_failures <=? cf then
        ret (Break, mkLoopState (all_results ls) (page ls) cf)
      else ret (Continue, mkLoopState (all_results ls) (page ls + 1) cf)
  | Some r =>
      let acc := all_results ls ++ map of_asset (response_assets r) in
      s <- get ;;
      if end_count (config s) <=? Z.of_nat (length acc) then
        ret (Break, mkLoopState (py_take (end_count (config s)) acc) (page ls) 0)
      else
        reached <- of_res (reported_total_reached r (Z.of_nat (length acc))) ;;
        if reached then ret (Break, mkLoopState acc (page ls) 0)
        else ret (Continue, mkLoopState acc (page ls + 1) 0)
  end.

(** The [while] loop. A turn either leaves the loop or increases [page], so
    [max_pages] turns are enough; [None] would mean that [fuel] ran out. *)
Fixpoint search_all_loop (query : string) (max_pages : Z)
    (max_consecutive_failures : Z) (fuel : nat) (ls : LoopState)
    (s : UnifiedFofaClient)
  : option (Res (list SearchResult) * UnifiedFofaClient) :=
  if (Z.of_nat (length (all_results ls)) <? end_count (config s))
     && (page ls <=? max_pages) then
    match fuel with
    | O => None
    | S fuel' =>
        match search_all_body query max_consecutive_failures ls s with
        | (Ok (Continue, ls'), s') =>
            search_all_loop query max_pages max_consecutive_failures fuel' ls' s'
        | (Ok (Break, ls'), s') => Some (Ok (all_results ls'), s')
        | (Raise e, s') => Some (Raise e, s')
        end
    end
  else Some (Ok (all_results ls), s).

(** [search_all] *)
Definition search_all (query : string) (max_pages : Z)
    (max_consecutive_failures : Z) (s : UnifiedFofaClient)
  : option (Res (list SearchResult) * UnifiedFofaClient) :=
  search_all_loop query max_pages max_consecutive_failures
    (Z.to_nat max_pages) (mkLoopState [] 1 0) s.

(** A session: [search] called again and again on the same object, whatever
    each call returns or raises. A call is [(query, page, max_retries)]. *)
Definition searches (calls : list (string * Z * Z)) (s : UnifiedFofaClient)
  : UnifiedFofaClient :=
  foldl (fun s c => snd (search c.1.1 c.1.2 c.2 s)) s calls.

End Engine.

End Unified.

(** ** Vocabulary of the proofs about the engine *)

Module Logic.
Import Proxy Unified.

(** What a method of the pool may change, as far as the engine cares: not
    the sequence, not the direct-connection switch, and not a well-placed
    cursor into a misplaced one. *)
Definition pool_step (pm pm' : ProxyManager) : Prop :=
  proxies pm' = proxies pm
  ∧ allow_direct pm' = allow_direct pm
  ∧ (cursor_ok pm → cursor_ok pm').

(** [m] relates every state to the state it leaves, whether it returns or
    raises. *)
Definition preserves {A} (R : relation UnifiedFofaClient) (m : M A) : Prop :=
  ∀ s, R s (snd (m s)).

(** A relation that every step of the first stage's request respects. *)
Record Frame (R : relation UnifiedFofaClient) : Prop := mkFrame {
  frame_refl : ∀ s, R s s;
  frame_trans : ∀ s1 s2 s3, R s1 s2 → R s2 s3 → R s1 s3;
  frame_pool : ∀ s pm',
    pool_step (proxy_manager s) pm' → R s (set_proxy_manager pm' s);
  frame_proxy : ∀ s p, R s (set_proxy p s);
  frame_api_client : ∀ s c, R s (set_api_client c s);
  frame_web_client : ∀ s c, R s (set_web_client c s);
  frame_total : ∀ s n, R s (set_total n s);
  frame_failed : ∀ s n, R s (Unified.set_failed n s);
  frame_ban_count : ∀ s n, R s (set_ban_count n s);
  frame_api_requests : ∀ s n, R s (set_api_requests n s);
  frame_log : ∀ s m, R s (set_logs (logs s ++ [m]) s)
}.

(** A relation that every step of [search] after the reset of [logs]
    respects. *)
Record FrameWeb (R : relation UnifiedFofaClient) : Prop := mkFrameWeb {
  frame_base : Frame R;
  frame_success : ∀ s n, R s (set_success n s);
  frame_mode_web : ∀ s, R s (set_mode WEB s);
  frame_web_requests : ∀ s, R s (set_web_requests (S (web_requests s)) s)
}.

(** What no step of a [search] call changes, or changes only one way: the
    target count, the pool's sequence and switch, a well-placed cursor; the
    mode moves to [WEB] at most; requests are only added. *)
Definition session_step (s s' : UnifiedFofaClient) : Prop :=
  end_count (config s') = end_count (config s)
  ∧ (mode s' = mode s ∨ mode s' = WEB)
  ∧ pool_step (proxy_manager s) (proxy_manager s')
  ∧ (web_requests s ≤ web_requests s')%nat.

(** [session_step], and [logs] only grows. *)
Definition stage_step (s s' : UnifiedFofaClient) : Prop :=
  session_step s s' ∧ ∃ l, logs s' = logs s ++ l.

(** What the request of the first stage leaves alone. *)
Definition api_step (s s' : UnifiedFofaClient) : Prop :=
  web_requests s' = web_requests s
  ∧ success s' = success s
  ∧ mode s' = mode s
  ∧ end_count (config s') = end_count (config s).

(** The response of the second stage to a page that holds the assets [l]
    and, under ["data"], the total [t] if any (lines 236-242). *)
Definition page_response (E : Env) (l : list (asset E)) (t : option total_value)
    (p : Z) : FofaResponse :=
  web_response (map (_parse_asset_to_result E) l)
    (default (TotalInt (Z.of_nat (length l))) t) p.

(** [m] started in a state with [P] returns, with a value and a state that
    satisfy [Q]. *)
Definition returns {A} (P : UnifiedFofaClient → Prop) (m : M A)
    (Q : A → UnifiedFofaClient → Prop) : Prop :=
  ∀ s, P s → ∃ a s', m s = (Ok a, s') ∧ Q a s'.

(** The states of one scenario: cursor well placed, direct connection
    allowed or not as [dir] says, mode [md], [a] signed and [w] anonymous
    requests issued. *)
Definition steady (dir : bool) (md : AccessMode) (a w : nat)
    (s : UnifiedFofaClient) : Prop :=
  cursor_ok (proxy_manager s)
  ∧ allow_direct (proxy_manager s) = dir
  ∧ mode s = md
  ∧ api_requests s = a
  ∧ web_requests s = w.

End Logic.

(** ** Concrete pools, collection cycles and sessions *)

Module ProxyExamples.
Import Proxy.

(** Concrete pools and collection cycles used in examples. *)
Definition pool3 : ProxyManager :=
  {| proxies := ["http://a:1"; "http://b:2"; "http://c:3"];
     failed := {[ "http://a:1" := 3; "http://b:2" := 3; "http://c:3" := 3 ]};
     idx := 0; pool := []; is_ready := true; allow_direct := true;
     _refreshing := None |}.

Definition pool2 : ProxyManager :=
  {| proxies := ["http://a:1"; "http://b:2"];
     failed := {[ "http://a:1" := 3; "http://b:2" := 4 ]};
     idx := 1; pool := []; is_ready := true; allow_direct := true;
     _refreshing := None |}.

Definition pool1 : ProxyManager :=
  {| proxies := ["http://a:1"]; failed := {[ "http://a:1" := 3 ]};
     idx := 0; pool := []; is_ready := true; allow_direct := true;
     _refreshing := None |}.

(** A cycle in which every source lists [found], every future completes in
    submission order, and the probe answers [ok]. *)
Definition cycle_env (found : list string) (ok : string -> bool) : CycleEnv :=
  {| fetch_source := fun _ => found;
     list_set := remove_dups;
     as_completed := fun _ keys => Some keys;
     _validate_proxy := ok |}.

(** Three manual proxies, direct connection disallowed. *)
Definition manual_pool : ProxyManager :=
  add_proxy "http://c:3" (add_proxy "http://b:2" (add_proxy "http://a:1" (init false))).

(** A pool whose first proxy is usable and whose second is not. *)
Definition pool2_first_usable : ProxyManager :=
  {| proxies := ["http://a:1"; "http://b:2"]; failed := {[ "http://b:2" := 3 ]};
     idx := 1; pool := []; is_ready := true; allow_direct := true;
     _refreshing := None |}.

(** Calls of the five caller methods on a new pool. *)
Definition caller_ops : list pool_op :=
  [OpAdd "http://a:1"; OpGet; OpAdd "http://b:2"; OpMarkFailed (Some "http://a:1");
   OpGetNext (Some "http://a:1"); OpGet; OpMarkSuccess (Some "http://a:1"); OpGet].


(** The operations of a session that starts with three manual proxies, takes
    two of them and then completes a collection cycle in which one candidate
    validates. *)
Definition swap_in_ops : list pool_op :=
  [OpAdd "http://a:1"; OpAdd "http://b:2"; OpAdd "http://c:3"; OpGet; OpGet;
   OpRefresh (cycle_env ["http://x:9"] (fun _ => true)) 5].

(** The same session, after which the one proxy of the pool fails three
    times. *)
Definition stale_failed_ops : list pool_op :=
  swap_in_ops
  ++ [OpMarkFailed (Some "http://x:9"); OpMarkFailed (Some "http://x:9");
      OpMarkFailed (Some "http://x:9")].

(** A session in which the cycle validates two candidates, each of which
    then fails three times. *)
Definition stale_pair_ops : list pool_op :=
  [OpAdd "http://a:1"; OpAdd "http://b:2"; OpAdd "http://c:3"; OpGet; OpGet;
   OpRefresh (cycle_env ["http://x:9"; "http://y:8"] (fun _ => true)) 5;
   OpMarkFailed (Some "http://x:9"); OpMarkFailed (Some "http://x:9");
   OpMarkFailed (Some "http://x:9"); OpMarkFailed (Some "http://y:8");
   OpMarkFailed (Some "http://y:8"); OpMarkFailed (Some "http://y:8")].

End ProxyExamples.

Module EngineExamples.
Import Proxy Unified.

(** Concrete sessions used in examples. *)

Definition item (n : Z) : SearchResult :=
  mkSearchResult "http://h.example" "h.example" n "t" "10.0.0.1" "" "" "" "" "".

Definition items (k : nat) : list SearchResult :=
  map (fun i => item (Z.of_nat i + 1)) (seq 0 k).

(** A response of the signed client with [k] assets and reported total [t]. *)
Definition api_page (k : nat) (t : Z) (p : Z) : FofaResponse :=
  mkFofaResponse 200 "success" (Some (mkResponseData (items k) (TotalInt t) p)).

(** An environment in which the signed client answers [api n page] to its
    [n]-th call, the anonymous client fetches [web n page], and a fetched
    page parses to a document that holds the records [found page_text] in a
    list and, under ["data"], what [total] says. *)
Definition scripted_pages (api : nat → Z → Res (option FofaResponse))
    (web : nat → Z → option string) (found : string → list SearchResult)
    (total : Res (option total_value)) : Env :=
  mkEnv lower (fun n _ _ p => api n p) (fun n _ _ p => web n p)
    (list SearchResult) SearchResult
    (fun h => Some (found h)) (fun d => Ok d) (fun a => a) (fun _ => total).

(** The same with pages that report no total. *)
Definition scripted (api : nat → Z → Res (option FofaResponse))
    (web : nat → Z → option string) (found : string → list SearchResult) : Env :=
  scripted_pages api web found (Ok None).

(** The signed client returns two assets for every page. *)
Definition env_data : Env :=
  scripted (fun _ p => Ok (Some (api_page 2 50 p))) (fun _ _ => None) (fun _ => []).

(** Both clients answer, with no asset. *)
Definition env_empty : Env :=
  scripted (fun _ p => Ok (Some (api_page 0 0 p))) (fun _ _ => Some "page")
    (fun _ => []).

(** The signed client gets no response; the anonymous client gets a page
    with five assets. *)
Definition env_ban_then_page : Env :=
  scripted (fun _ _ => Ok None) (fun _ _ => Some "page") (fun _ => items 5).

(** The signed client gets no response; the anonymous client gets a page
    that holds its five assets in a list under ["data"], as in
    [{"code": 0, "data": [...]}]. [_extract_assets_from_data] finds the
    list in its last loop (anonymous.py, lines 159-162), and the look-up of
    the total calls [get] on that list. *)
Definition env_ban_then_list_page : Env :=
  scripted_pages (fun _ _ => Ok None) (fun _ _ => Some "page") (fun _ => items 5)
    (Raise (AttributeError "'list' object has no attribute 'get'")).

(** Page 1 has one asset out of a reported 50; later pages have none. *)
Definition env_first_page_only : Env :=
  scripted (fun _ p => Ok (Some (if p =? 1 then api_page 1 50 p else api_page 0 0 p)))
    (fun _ _ => Some "page") (fun _ => []).

(** Page 1 has 15 assets and page 2 has 10, out of a reported 1000. *)
Definition env_15_then_10 : Env :=
  scripted (fun _ p => Ok (Some (if p =? 1 then api_page 15 1000 p
                                 else api_page 10 1000 p)))
    (fun _ _ => None) (fun _ => []).

(** The signed client gets no response; the anonymous client gets 15 assets
    on page 1 and 10 on page 2, on pages that report no total. *)
Definition env_web_15_then_10 : Env :=
  scripted (fun _ _ => Ok None)
    (fun _ p => Some (if p =? 1 then "page one" else "page two"))
    (fun h => if String.eqb h "page one" then items 15 else items 10).

(** New engines: without proxies and target 100, with two proxies, and
    without proxies and target 20. *)
Definition session0 : UnifiedFofaClient := new_client (mkSearchConfig 100 None) [].

Definition session2 : UnifiedFofaClient :=
  new_client (mkSearchConfig 100 None) ["http://a:1"; "http://b:2"].

Definition session20 : UnifiedFofaClient := new_client (mkSearchConfig 20 None) [].

(** The state after a [search] call with the default retry budget, and
    after the exhaustion test of [search_all]. *)
Definition after_search (E : Env) (q : string) (p : Z) (s : UnifiedFofaClient)
  : UnifiedFofaClient := snd (search E q p 3 s).

Definition after_check (s : UnifiedFofaClient) : UnifiedFofaClient :=
  snd (pool_exhausted s).

(** The states of a session in which pages 1, 2 and 3 fail. *)
Definition fail1 : UnifiedFofaClient := after_search env_empty "port=80" 1 session0.
Definition fail1' : UnifiedFofaClient := after_check fail1.
Definition fail2 : UnifiedFofaClient := after_search env_empty "port=80" 2 fail1'.
Definition fail2' : UnifiedFofaClient := after_check fail2.
Definition fail3 : UnifiedFofaClient := after_search env_empty "port=80" 3 fail2'.
Definition fail3' : UnifiedFofaClient := after_check fail3.

End EngineExamples.

(** ** proxy.py: the remaining methods *)

Module ProxyTools.
Import Proxy.

(** The dict that [get_stats] returns. *)
Record Stats := mkStats {
  stat_total : nat;
  stat_valid : nat;
  stat_failed : nat;
  stat_is_ready : bool;
  stat_allow_direct : bool
}.

(** [get_stats] *)
Definition get_stats (pm : ProxyManager) : Stats :=
  {| stat_total := length (proxies pm);
     stat_valid := length (filter (fun p => fail_count pm p < 3) (proxies pm));
     stat_failed := size (failed pm);
     stat_is_ready := is_ready pm;
     stat_allow_direct := allow_direct pm |}.

(** [ManualProxyManager.__init__]; [manual_proxies = None] is the default
    argument. An empty list is falsy, so it leaves the pool not ready. *)
Definition manual_init (manual_proxies : option (list string)) (direct : bool)
  : ProxyManager :=
  match manual_proxies with
  | Some (p :: l) =>
      set_is_ready true (foldl (fun pm p => add_proxy p pm) (init direct) (p :: l))
  | _ => init direct
  end.

(** [ManualProxyManager.add_manual_proxy] *)
Definition add_manual_proxy (proxy : string) (pm : ProxyManager) : ProxyManager :=
  add_proxy proxy pm.

(** [text.split('\n')]: the pieces between line feeds; the empty string gives
    one empty piece. *)
Fixpoint split_lines (s : string) : list string :=
  match s with
  | EmptyString => [EmptyString]
  | String c rest =>
      if Ascii.eqb c (Ascii.ascii_of_nat 10) then EmptyString :: split_lines rest
      else match split_lines rest with
           | l :: ls => String c l :: ls
           | [] => [String c EmptyString]
           end
  end.

(** The body of the [for] loop of [_fetch_source] (lines 122-125): the
    candidate a line gives, if any. [strip] is [str.strip], which removes the
    white space of Unicode and is taken from the environment. *)
Definition candidate_of_line (strip : string -> string) (line : string)
  : option string :=
  let line := strip line in
  if truthy (Some line) && contains ":" line && negb (String.prefix "#" line)
  then Some (if negb (String.prefix "http" line) then "http://" +:+ line else line)
  else None.

(** [_fetch_source]. [resp] is what [httpx.get] gives: [None] when it raises,
    else the status code and the text of the response. *)
Definition _fetch_source (strip : string -> string) (resp : option (Z * string))
  : list string :=
  match resp with
  | Some (status_code, text) =>
      if status_code =? 200
      then omap (candidate_of_line strip) (split_lines (strip text))
      else []
  | None => []
  end.

(** No failure count is negative. *)
Definition counts_nonneg (pm : ProxyManager) : Prop :=
  ∀ p c, failed pm !! p = Some c → 0 ≤ c.

(** What [list(set(...))] and [as_completed] guarantee whatever order they
    choose: the first has no duplicates, the second yields each submitted
    future once. *)
Definition orderly (E : CycleEnv) : Prop :=
  (∀ l, NoDup (list_set E l))
  ∧ (∀ ph keys finished, as_completed E ph keys = Some finished → finished ≡ₚ keys).

(** Readiness is kept, the switch is kept, the queue only grows. *)
Definition grows (pm pm' : ProxyManager) : Prop :=
  (is_ready pm' = true ∨ is_ready pm = false)
  ∧ allow_direct pm' = allow_direct pm
  ∧ pool pm `prefix_of` pool pm'.

End ProxyTools.

(** ** proxy.py: the probe of a candidate *)

Module ProxyProbe.

(** How the request of [_validate_proxy] to the API endpoint ends: with an
    exception, or with a response. [json] is [None] when [resp.json()] or
    [data.get] raises, else the integer that [data.get('code')] compares
    equal to, if any, and the truth value of [data.get('data')]. *)
Inductive api_probe :=
| ApiRaises
| ApiAnswers (status_code : Z) (json : option (option Z * bool)).

(** How the request to the web endpoint ends: with an exception (of the
    request or of reading the text), or with a response, of which the code
    reads the status, ['captcha' in html] and ['/captcha' in resp.url]; the
    last is [None] when that test raises. *)
Inductive web_probe :=
| WebRaises
| WebAnswers (status_code : Z) (captcha_in_html : bool)
    (captcha_in_url : option bool).

(** [_validate_proxy]: the verdict and the number of requests made.
    [client_built] says whether [httpx.Client(...)] could be built. *)
Definition _validate_proxy_body (client_built : bool) (api : api_probe)
    (web : web_probe) : bool * nat :=
  if client_built then
    match api with
    | ApiAnswers status_code json =>
        (if status_code =? 200 then
           match json with
           | Some (Some c, data_truthy) => (c =? 0) && data_truthy
           | Some (None, _) => false
           | None => false
           end
         else false, 1%nat)
    | ApiRaises =>
        match web with
        | WebAnswers status_code captcha_in_html captcha_in_url =>
            (if (status_code =? 200) || (status_code =? 301) || (status_code =? 302)
             then
               if captcha_in_html then false
               else match captcha_in_url with
                    | Some true => false
                    | Some false => true
                    | None => false
                    end
             else false, 2%nat)
        | WebRaises => (false, 2%nat)
        end
    end
  else (false, 0%nat).

End ProxyProbe.

(** ** Vocabulary of the accounts of the engine *)

Module Accounts.
Import Proxy Unified Logic.

(** A step that issues no request and counts no success. *)
Definition calm (s s' : UnifiedFofaClient) : Prop :=
  success s' = success s
  ∧ api_requests s' = api_requests s
  ∧ web_requests s' = web_requests s.

(** What a step adds: [ds] to [success], at most [a] signed and at most [w]
    anonymous requests. *)
Definition tally (ds : Z) (a w : nat) (s s' : UnifiedFofaClient) : Prop :=
  success s' = success s + ds
  ∧ (api_requests s ≤ api_requests s' ≤ api_requests s + a)%nat
  ∧ (web_requests s ≤ web_requests s' ≤ web_requests s + w)%nat.

(** The response that a stage hands back to the caller of [search], if any. *)
Definition flow_response (f : flow) : option FofaResponse :=
  match f with
  | Return r => r
  | Next => None
  end.

(** [m] counts one success when it hands back a response, and that
    response carries assets; besides, it counts at most [k] successes for
    pages that it then loses. It issues at most [a] signed and [w] anonymous
    requests, whether it returns or raises. *)
Definition counts {A} (got : A → option FofaResponse) (k a w : nat) (m : M A)
  : Prop :=
  ∀ s, ∃ lost : nat,
    (lost ≤ k)%nat
    ∧ match fst (m s) with
      | Ok x =>
          match got x with
          | Some r =>
              tally (1 + Z.of_nat lost) a w s (snd (m s)) ∧ response_assets r ≠ []
          | None => tally (Z.of_nat lost) a w s (snd (m s))
          end
      | Raise _ => tally (Z.of_nat lost) a w s (snd (m s))
      end.

(** The cursor of the engine's pool is well placed. *)
Definition placed (s : UnifiedFofaClient) : Prop :=
  cursor_ok (proxy_manager s).

(** Whatever [m] returns satisfies [G]. *)
Definition yields {A} (G : A → Prop) (m : M A) : Prop :=
  ∀ s a s', m s = (Ok a, s') → G a.

(** A response whose reported total can be compared with a number of
    results: a number, or a falsy value, which lines 370-373 never
    compare. *)
Definition ordered_total (r : FofaResponse) : Prop :=
  ∀ d, data r = Some d →
       total_truthy (data_total d) = true → is_number (data_total d) = true.

(** An environment in which the signed client and the pages only report such
    totals. *)
Definition ordered_totals (E : Env) : Prop :=
  (∀ n prx q p r, api_search E n prx q p = Ok (Some r) → ordered_total r)
  ∧ (∀ d v, json_total E d = Ok (Some v) →
            total_truthy v = true → is_number v = true).

(** The response that a call or a stage hands back, if any, has an ordered
    total. *)
Definition ordered_answer (x : option FofaResponse) : Prop :=
  ∀ r, x = Some r → ordered_total r.

(** The cursor of the pool is behind the end of a sequence that is not
    empty, as after the swap-in of a shorter sequence. *)
Definition stale_pool (pm : ProxyManager) : Prop :=
  proxies pm ≠ [] ∧ (length (proxies pm) ≤ idx pm)%nat.

Definition stale (s : UnifiedFofaClient) : Prop :=
  stale_pool (proxy_manager s).

End Accounts.

(** ** api_client.py and anonymous.py: the loops of the two plain clients *)

Module PlainClients.
Import Unified.

(** How one pass of the [try] block of [ApiFofaClient._make_request] ends:
    with the parsed JSON object, or with an exception of one of the three
    [except] clauses. A body that parses to something other than an object
    makes [data.get] raise and so ends in the third clause. *)
Inductive attempt (J : Type) :=
| Answer (data : J)
| HttpStatusError
| JsonDecodeError
| OtherError.
Arguments Answer {J} data.
Arguments HttpStatusError {J}.
Arguments JsonDecodeError {J}.
Arguments OtherError {J}.

Definition is_answer {J} (a : attempt J) : bool :=
  match a with Answer _ => true | _ => false end.

Section MakeRequest.

(** The JSON objects, and what the code reads of one: the integer that
    [data.get('code')] compares equal to, if any, and ['data' in data]. *)
Variable J : Type.
Variable code_of : J → option Z.
Variable has_data : J → bool.

(** [outcome n] is how the request made when [request_count] is [n] ends. *)
Variable outcome : nat → attempt J.

(** [data.get('code') == z] *)
Definition code_is (data : J) (z : Z) : bool :=
  match code_of data with
  | Some c => c =? z
  | None => false
  end.

(** Lines 172-201: what is returned once a JSON object has arrived. *)
Definition checked (data : J) : option J :=
  if code_is data (-3000) then None
  else if code_is data 850100 then None
  else if code_is data 0 || has_data data then Some data
  else None.

(** The [for] loop of [_make_request] with [n] turns left; [count] is
    [self.request_count], which [_rate_limit] increases at each turn. *)
Fixpoint make_request_loop (n : nat) (count : nat) : option J * nat :=
  match n with
  | O => (None, count)
  | S n' =>
      match outcome count with
      | Answer data => (checked data, S count)
      | _ => make_request_loop n' (S count)
      end
  end.

(** [ApiFofaClient._make_request] *)
Definition _make_request (max_retries : Z) (count : nat) : option J * nat :=
  make_request_loop (Z.to_nat max_retries) count.

End MakeRequest.

(** [FofaResponse.get_total]: [self.data.get("total", 0)], whatever value
    that is. *)
Definition get_total (r : FofaResponse) : total_value :=
  match data r with
  | Some d => data_total d
  | None => TotalInt 0
  end.

Section SearchAll.

(** [search page] is what [self.search(query, page)] returns; the loops ask
    for each page at most once. [end_count] is [self.config.end_count]. *)
Variable search : Z → option FofaResponse.
Variable end_count : Z.

(** The [while] loop of [ApiFofaClient.search_all] (lines 297-323); [None]
    would mean that [fuel] ran out. The loop returns its list, or raises what
    the comparison of the total raises (lines 318-319). *)
Fixpoint api_search_all_loop (max_pages : Z) (fuel : nat)
    (all_results : list SearchResult) (page : Z)
  : option (Res (list SearchResult)) :=
  if (Z.of_nat (length all_results) <? end_count) && (page <=? max_pages) then
    match fuel with
    | O => None
    | S fuel' =>
        match search page with
        | None => Some (Ok all_results)
        | Some response =>
            match response_assets response with
            | [] => Some (Ok all_results)
            | results =>
                let all_results := all_results ++ results in
                if end_count <=? Z.of_nat (length all_results) then
                  Some (Ok (py_take end_count all_results))
                else
                  match total_reached (get_total response)
                          (Z.of_nat (length all_results)) with
                  | Raise e => Some (Raise e)
                  | Ok true => Some (Ok all_results)
                  | Ok false =>
                      api_search_all_loop max_pages fuel' all_results (page + 1)
                  end
            end
        end
    end
  else Some (Ok all_results).

(** [ApiFofaClient.search_all] *)
Definition api_search_all (max_pages : Z) : option (Res (list SearchResult)) :=
  api_search_all_loop max_pages (Z.to_nat max_pages) [] 1.

(** The [while] loop of [AnonymousFofaClient.search_all] (lines 351-371). *)
Fixpoint web_search_all_loop (max_pages : Z) (fuel : nat)
    (all_results : list SearchResult) (page : Z) : option (list SearchResult) :=
  if (Z.of_nat (length all_results) <? end_count) && (page <=? max_pages) then
    match fuel with
    | O => None
    | S fuel' =>
        match search page with
        | None => Some all_results
        | Some response =>
            match response_assets response with
            | [] => Some all_results
            | results =>
                let all_results := all_results ++ results in
                if end_count <=? Z.of_nat (length all_results) then
                  Some (py_take end_count all_results)
                else web_search_all_loop max_pages fuel' all_results (page + 1)
            end
        end
    end
  else Some all_results.

(** [AnonymousFofaClient.search_all] *)
Definition web_search_all (max_pages : Z) : option (list SearchResult) :=
  web_search_all_loop max_pages (Z.to_nat max_pages) [] 1.

(** The assets of the pages [page], [page + 1], ... ([k] of them). *)
Fixpoint pages_from (page : Z) (k : nat) : list SearchResult :=
  match k with
  | O => []
  | S k' =>
      match search page with
      | Some response => response_assets response ++ pages_from (page + 1) k'
      | None => []
      end
  end.

End SearchAll.

End PlainClients.

(** ** api_client.py and anonymous.py: batches of queries *)

Module Batch.
Import Unified.

Section SearchBatch.

(** [search_all n query] is what the [n]-th call of
    [self.client.search_all] of a batch, made for [query], returns. *)
Variable search_all : nat → string → list SearchResult.

(** The [for] loop of [MultiQueryApiClient.search_batch] and of
    [MultiSearchClient.search_batch], after [n] calls: the dict [results]
    and the number of calls made. The order of the keys of the dict is not
    kept. *)
Fixpoint search_batch_from (n : nat) (queries : list string)
    (results : gmap string (list SearchResult))
  : gmap string (list SearchResult) * nat :=
  match queries with
  | [] => (results, n)
  | query :: rest =>
      search_batch_from (S n) rest (<[query := search_all n query]> results)
  end.

(** [search_batch] *)
Definition search_batch (queries : list string)
  : gmap string (list SearchResult) * nat :=
  search_batch_from 0 queries ∅.

End SearchBatch.

End Batch.

(** ** More concrete sessions and answers *)

Module MoreExamples.
Import Proxy Unified ProxyExamples EngineExamples.

(** A new engine without proxies and target 2. *)
Definition session_small : UnifiedFofaClient := new_client (mkSearchConfig 2 None) [].

(** A response that carries nothing but a code and a message. *)
Definition bare_response (c : Z) (msg : string) : FofaResponse :=
  mkFofaResponse c msg None.

(** An engine whose pool went through [swap_in_ops]: one proxy, cursor 2. *)
Definition stale_session : UnifiedFofaClient :=
  set_proxy_manager (snd (run_ops swap_in_ops (init false))) session20.

End MoreExamples.

Module PlainExamples.
Import Unified EngineExamples PlainClients.

(** A JSON object reduced to its code and the presence of ["data"]. *)
Definition json_obj : Type := option Z * bool.

(** Two requests fail, the third is answered with code 0. *)
Definition third_time (n : nat) : attempt json_obj :=
  match n with
  | 2%nat => Answer (Some 0, true)
  | _ => HttpStatusError
  end.

(** Every page has two assets and reports a total of 50. *)
Definition two_per_page (p : Z) : option FofaResponse := Some (api_page 2 50 p).

End PlainExamples.

Module BatchExamples.
Import Unified EngineExamples.

(** The [n]-th call finds [n] results, whatever the query. *)
Definition nth_call_finds (n : nat) (_ : string) : list SearchResult := items n.

End BatchExamples.

(** ** The comparison of a reported total *)

Module TotalFacts.
Import Unified Accounts.

Lemma total_reached_raises v n e :
  total_reached v n = Raise e → ∃ msg, e = TypeError msg.
Proof.
  unfold total_reached, total_positive, total_at_most.
  destruct v as [z|[|neg|x]|name t]; simpl; repeat case_match; intros [=]; subst;
    by eexists.
Qed.

Lemma total_reached_number v n :
  is_number v = true → ∃ b, total_reached v n = Ok b.
Proof.
  unfold total_reached, total_positive, total_at_most.
  destruct v as [z|[|neg|x]|name t]; simpl; try done; intros _;
    repeat case_match; simplify_eq; by eexists.
Qed.

Lemma total_reached_int z n :
  total_reached (TotalInt z) n = Ok ((0 <? z) && (z <=? n)).
Proof. unfold total_reached. simpl. by destruct (0 <? z). Qed.

(** With an [int] as total the test of lines 370-373 never raises, and it
    lets the loop go on exactly when the total is not positive or is above
    the number of results. *)
Lemma reported_total_int r d z n :
  data r = Some d → data_total d = TotalInt z →
  reported_total_reached r n = Ok false ↔ z ≤ 0 ∨ n < z.
Proof.
  intros Hd Hz. unfold reported_total_reached. rewrite Hd, Hz.
  simpl. rewrite total_reached_int.
  destruct (Z.eqb_spec z 0) as [->|Hne]; simpl; [split; [lia|done]|].
  destruct (Z.ltb_spec 0 z), (Z.leb_spec z n); simpl;
    (split; [intros [=] || intros _; lia|intros; (done || lia)]).
Qed.

Lemma reported_total_raises r n e :
  reported_total_reached r n = Raise e → ∃ msg, e = TypeError msg.
Proof.
  unfold reported_total_reached.
  destruct (data r) as [d|]; [|done].
  destruct (total_truthy (data_total d)); [apply total_reached_raises|done].
Qed.

Lemma reported_total_ordered r n :
  ordered_total r → ∃ b, reported_total_reached r n = Ok b.
Proof.
  intros Hr. unfold reported_total_reached.
  destruct (data r) as [d|] eqn:Hd; [|by eexists].
  destruct (total_truthy (data_total d)) eqn:Ht; [|by eexists].
  by apply total_reached_number, Hr.
Qed.

End TotalFacts.

(** ** Properties of the proxy pool *)

Module ProxyFacts.
Import Proxy ProxyExamples.

(** *** The round-robin loop *)

Lemma set_idx_same pm : set_idx (idx pm) pm = pm.
Proof. by destruct pm. Qed.

Lemma fail_count_set_idx i pm p : fail_count (set_idx i pm) p = fail_count pm p.
Proof. reflexivity. Qed.

Lemma fail_count_cleared pm p : fail_count (set_failed ∅ pm) p = 0.
Proof. unfold fail_count; simpl. by rewrite lookup_empty. Qed.

Lemma all_failed_true pm :
  all_failed pm = true ↔ ∀ p, p ∈ proxies pm → 3 ≤ fail_count pm p.
Proof.
  unfold all_failed. rewrite forallb_forall. split.
  - intros H p Hp. apply Z.leb_le, H. by apply list_elem_of_In.
  - intros H p Hp. apply Z.leb_le, H. by apply list_elem_of_In.
Qed.

(** A loop that accepts nothing runs to its end and leaves the cursor [n]
    places further round the sequence. *)
Lemma cycle_rejects accept n pm :
  (idx pm < length (proxies pm))%nat →
  (∀ p, p ∈ proxies pm → accept p = false) →
  cycle accept n pm
  = (Ok None, set_idx ((idx pm + n) mod length (proxies pm))%nat pm).
Proof.
  revert pm. induction n as [|n IH]; intros pm Hlt Hrej; simpl.
  - rewrite Nat.add_0_r, Nat.mod_small by done. by rewrite set_idx_same.
  - destruct (lookup_lt_is_Some_2 (proxies pm) (idx pm) Hlt) as [p Hp].
    rewrite Hp. rewrite (Hrej p) by (eapply list_elem_of_lookup_2; eauto).
    rewrite IH; simpl.
    + f_equal. unfold set_idx; simpl. f_equal.
      rewrite Nat.Div0.add_mod_idemp_l. f_equal. lia.
    + apply Nat.mod_upper_bound. lia.
    + done.
Qed.

Lemma cycle_full_turn accept pm :
  (idx pm < length (proxies pm))%nat →
  (∀ p, p ∈ proxies pm → accept p = false) →
  cycle accept (length (proxies pm)) pm = (Ok None, pm).
Proof.
  intros Hlt Hrej. rewrite cycle_rejects by done.
  replace ((idx pm + length (proxies pm)) mod length (proxies pm))%nat with (idx pm).
  - by rewrite set_idx_same.
  - rewrite <- (Nat.mul_1_l (length (proxies pm))) at 1.
    rewrite Nat.Div0.mod_add. by rewrite Nat.mod_small.
Qed.

(** With the cursor inside the sequence the loop does not raise; it only
    moves the cursor, which stays inside. *)
Lemma cycle_in_range accept n pm :
  (idx pm < length (proxies pm))%nat →
  ∃ r i, cycle accept n pm = (Ok r, set_idx i pm)
         ∧ (i < length (proxies pm))%nat
         ∧ (∀ p, r = Some p → p ∈ proxies pm ∧ accept p = true).
Proof.
  revert pm. induction n as [|n IH]; intros pm Hlt; simpl.
  - exists None, (idx pm). rewrite set_idx_same. by repeat split.
  - destruct (lookup_lt_is_Some_2 (proxies pm) (idx pm) Hlt) as [p Hp].
    rewrite Hp.
    assert (Hlt' : ((idx pm + 1) mod length (proxies pm) < length (proxies pm))%nat)
      by (apply Nat.mod_upper_bound; lia).
    destruct (accept p) eqn:Hacc.
    + eexists (Some p), _. split; [reflexivity|]. split; [done|].
      intros q [= <-]. split; [|done]. eapply list_elem_of_lookup_2; eauto.
    + destruct (IH (set_idx ((idx pm + 1) mod length (proxies pm))%nat pm) Hlt')
        as (r & i & Heq & Hi & Hr).
      exists r, i. rewrite Heq. split; [reflexivity|]. split; [exact Hi|exact Hr].
Qed.

(** Every pool operation keeps the sequence, the direct-connection switch
    and a well-placed cursor, and does not raise when the cursor is well
    placed. *)
Lemma get_proxy_in_range pm :
  cursor_ok pm →
  ∃ r pm', get_proxy pm = (Ok r, pm') ∧ cursor_ok pm'
           ∧ proxies pm' = proxies pm ∧ allow_direct pm' = allow_direct pm
           ∧ (proxies pm = [] → r = None).
Proof.
  intros Hc. unfold get_proxy.
  destruct (proxies pm) as [|p0 l] eqn:Hl.
  - exists None, pm. by rewrite Hl.
  - destruct Hc as [Hlt | [Hnil _]]; [|congruence].
    set (pm1 := if all_failed pm then set_failed ∅ pm else pm).
    assert (Hp1 : proxies pm1 = proxies pm) by (unfold pm1; by destruct (all_failed pm)).
    assert (Hi1 : idx pm1 = idx pm) by (unfold pm1; by destruct (all_failed pm)).
    assert (Ha1 : allow_direct pm1 = allow_direct pm)
      by (unfold pm1; by destruct (all_failed pm)).
    destruct (cycle_in_range (usable pm1) (length (proxies pm1)) pm1)
      as (r & i & Heq & Hi & _); [rewrite Hp1, Hi1; done|].
    exists r, (set_idx i pm1). rewrite Heq. split; [done|].
    split; [left; exact Hi|]. simpl. rewrite Hp1, Ha1, Hl. by repeat split.
Qed.

Lemma get_next_proxy_in_range cur pm :
  cursor_ok pm →
  ∃ r pm', get_next_proxy cur pm = (Ok r, pm') ∧ cursor_ok pm'
           ∧ proxies pm' = proxies pm ∧ allow_direct pm' = allow_direct pm.
Proof.
  intros Hc. unfold get_next_proxy.
  destruct (proxies pm) as [|p0 [|p1 l]] eqn:Hl.
  - exists None, pm. by rewrite Hl.
  - eexists _, pm. by rewrite Hl.
  - destruct Hc as [Hlt | [Hnil _]]; [|congruence].
    rewrite <- Hl.
    destruct (cycle_in_range
                (fun proxy => negb (bool_decide (Some proxy = cur))
                              && (fail_count pm proxy <? 3))
                (length (proxies pm)) pm Hlt) as (r & i & Heq & Hi & _).
    rewrite Heq. destruct r as [p|].
    + exists (Some p), (set_idx i pm). split; [done|]. split; [by left|done].
    + eexists _, (set_idx i pm). split; [done|]. split; [by left|done].
Qed.

Lemma add_proxy_cursor_ok p pm : cursor_ok pm → cursor_ok (add_proxy p pm).
Proof.
  unfold add_proxy, cursor_ok. intros Hc.
  destruct (truthy (Some p) && negb (bool_decide (p ∈ proxies pm))); [|done].
  simpl. rewrite length_app; simpl. left.
  destruct Hc as [Hlt | [_ ->]]; lia.
Qed.

Lemma mark_failed_cursor_ok p pm : cursor_ok pm → cursor_ok (mark_failed p pm).
Proof.
  unfold mark_failed. intros Hc. destruct p as [p|]; [|done].
  by destruct (truthy (Some p)).
Qed.

Lemma mark_success_cursor_ok p pm : cursor_ok pm → cursor_ok (mark_success p pm).
Proof.
  unfold mark_success. intros Hc. destruct p as [p|]; [|done].
  destruct (truthy (Some p)); [|done]. by destruct (failed pm !! p).
Qed.

Lemma run_op_in_range o pm :
  is_refresh o = false →
  cursor_ok pm → ∃ r pm', run_op o pm = (Ok r, pm') ∧ cursor_ok pm'.
Proof.
  intros Ho Hc. destruct o as [p| |c|p|p|E n]; simpl; [..|discriminate].
  - eexists _, _. split; [done|]. by apply add_proxy_cursor_ok.
  - destruct (get_proxy_in_range pm Hc) as (r & pm' & -> & ? & _). eauto.
  - destruct (get_next_proxy_in_range c pm Hc) as (r & pm' & -> & ? & _). eauto.
  - eexists _, _. split; [done|]. by apply mark_failed_cursor_ok.
  - eexists _, _. split; [done|]. by apply mark_success_cursor_ok.
Qed.

(** *** Claims about the pool *)




(** C7. [get_proxy] on an empty sequence returns [None]; [get_next_proxy] on
    a one-proxy pool returns that proxy exactly when its failure count is
    below 3; and with two or more proxies, when every proxy is the excluded
    one or has failure count at least 3 (so that a full cycle from the cursor
    finds nothing), [get_next_proxy] returns the first proxy of the sequence
    exactly when that one's failure count is below 3. The pool is left as it
    was in all three cases. *)
Theorem get_next_proxy_boundaries :
  (∀ pm, proxies pm = [] → get_proxy pm = (Ok None, pm))
  ∧ (∀ cur pm p, proxies pm = [p] →
       get_next_proxy cur pm
       = (Ok (if fail_count pm p <? 3 then Some p else None), pm))
  ∧ (∀ cur pm p0 l,
       proxies pm = p0 :: l →
       (2 ≤ length (proxies pm))%nat →
       (idx pm < length (proxies pm))%nat →
       (∀ p, p ∈ proxies pm → Some p = cur ∨ 3 ≤ fail_count pm p) →
       get_next_proxy cur pm
       = (Ok (if fail_count pm p0 <? 3 then Some p0 else None), pm)).
Proof.
  split; [|split].
  - intros pm Hnil. unfold get_proxy. by rewrite Hnil.
  - intros cur pm p Hp. unfold get_next_proxy. by rewrite Hp.
  - intros cur pm p0 l Hl Hlen Hlt Hnone. unfold get_next_proxy.
    rewrite Hl. destruct l as [|p1 l]; [rewrite Hl in Hlen; simpl in Hlen; lia|].
    rewrite <- Hl. rewrite cycle_full_turn; [|done|].
    + destruct (Z.leb_spec 3 (fail_count pm p0)), (Z.ltb_spec (fail_count pm p0) 3);
        try lia; reflexivity.
    + intros p Hp. destruct (Hnone p Hp) as [-> | Hf].
      * by rewrite bool_decide_eq_true_2.
      * apply andb_false_intro2. by apply Z.ltb_ge.
Qed.

Lemma get_next_proxy_boundaries_witness :
  get_proxy (init true) = (Ok None, init true)
  ∧ get_next_proxy None pool1 = (Ok None, pool1)
  ∧ get_next_proxy (Some "http://a:1") pool2_first_usable
    = (Ok (Some "http://a:1"), pool2_first_usable).
Proof.
  destruct get_next_proxy_boundaries as (H1 & H2 & H3).
  split; [|split].
  - apply (H1 (init true)). reflexivity.
  - apply (H2 None pool1 "http://a:1"). reflexivity.
  - apply (H3 (Some "http://a:1") pool2_first_usable "http://a:1" ["http://b:2"]).
    + reflexivity.
    + simpl; lia.
    + simpl; lia.
    + intros p Hp. simpl in Hp.
      apply elem_of_cons in Hp as [-> | Hp]; [by left|].
      apply elem_of_cons in Hp as [-> | Hp]; [right; vm_compute; discriminate|].
      by apply elem_of_nil in Hp.
Defined.




(** C9. Two calls of [auto_refresh] in a row, with no collection cycle
    finishing in between: the flag is set after the first call, the second
    call starts no thread and leaves the pool as it was, so that at most one
    thread is started in all. *)
Theorem auto_refresh_twice (n1 n2 : Z) (pm : ProxyManager) :
  let r1 := auto_refresh n1 pm in
  let r2 := auto_refresh n2 (fst r1) in
  _refreshing (fst r1) = Some true
  ∧ r2 = (fst r1, None)
  ∧ (length (omap id [snd r1; snd r2]) ≤ 1)%nat.
Proof.
  unfold auto_refresh. destruct (_refreshing pm) as [[|]|] eqn:Hr; simpl;
    rewrite ?Hr; simpl; repeat split; lia.
Qed.

(** C8, as the code has it. In a collection cycle whose first validation
    wave validates no candidate, the pool is set to the empty list when
    direct connection is allowed and is left as it was when it is not; no
    candidate is adopted, the readiness flag is set and the refresh flag is
    cleared. *)
Theorem refresh_none_valid (E : CycleEnv) (n : Z) (pm : ProxyManager)
    (done done1 : list string) :
  let collected := list_set E (concat (map (fetch_source E) done)) in
  as_completed E 0 sources = Some done →
  concat (map (fetch_source E) done) ≠ [] →
  as_completed E 1 (take (Nat.min 20 (length collected)) collected) = Some done1 →
  filter (fun p => _validate_proxy E p = true) done1 = [] →
  let pm' := _refresh_background E n pm in
  proxies pm' = (if allow_direct pm then [] else proxies pm)
  ∧ is_ready pm' = true
  ∧ _refreshing pm' = Some false.
Proof.
  intros collected H0 Hne H1 Hnone pm'. unfold pm', _refresh_background, refresh_body.
  rewrite H0. destruct (concat (map (fetch_source E) done)) as [|c cs] eqn:Hc; [done|].
  fold collected. rewrite H1, Hnone. simpl.
  by destruct (allow_direct pm).
Qed.

Lemma refresh_none_valid_witness :
  proxies (_refresh_background (cycle_env ["http://x:9"] (fun _ => false)) 5 manual_pool)
  = ["http://a:1"; "http://b:2"; "http://c:3"]
  ∧ is_ready (_refresh_background (cycle_env ["http://x:9"] (fun _ => false)) 5 manual_pool)
    = true
  ∧ _refreshing (_refresh_background (cycle_env ["http://x:9"] (fun _ => false)) 5 manual_pool)
    = Some false.
Proof.
  apply (refresh_none_valid (cycle_env ["http://x:9"] (fun _ => false)) 5 manual_pool
           sources ["http://x:9"]).
  - reflexivity.
  - discriminate.
  - vm_compute. reflexivity.
  - reflexivity.
Defined.

(** C8 as stated fails: with direct connection disallowed, a cycle that
    validates nothing leaves the three manual proxies in the pool. *)
Lemma refresh_none_valid_keeps_pool :
  ¬ (∀ (E : CycleEnv) (n : Z) (pm : ProxyManager) (done done1 : list string),
       let collected := list_set E (concat (map (fetch_source E) done)) in
       as_completed E 0 sources = Some done →
       concat (map (fetch_source E) done) ≠ [] →
       as_completed E 1 (take (Nat.min 20 (length collected)) collected) = Some done1 →
       filter (fun p => _validate_proxy E p = true) done1 = [] →
       proxies (_refresh_background E n pm) = []
       ∧ is_ready (_refresh_background E n pm) = true).
Proof.
  intros H.
  destruct (H (cycle_env ["http://x:9"] (fun _ => false)) 5 manual_pool
              sources ["http://x:9"]) as [Hp _].
  - reflexivity.
  - discriminate.
  - vm_compute. reflexivity.
  - reflexivity.
  - vm_compute in Hp. discriminate.
Qed.

(** C4, as the code has it. Between collection cycles the cursor stays well
    placed: under any sequence of [add_proxy], [get_proxy], [get_next_proxy],
    [mark_failed] and [mark_success] from a pool whose cursor is well placed,
    no indexing raises, and afterwards the cursor indexes the sequence, or
    the sequence is empty and the cursor is 0. *)
Theorem cursor_stays_in_range (os : list pool_op) (pm : ProxyManager) :
  cursor_ok pm →
  forallb (fun o => negb (is_refresh o)) os = true →
  ∃ pm', run_ops os pm = (Ok tt, pm') ∧ cursor_ok pm'
         ∧ (proxies pm' ≠ [] → (idx pm' < length (proxies pm'))%nat).
Proof.
  intros Hc Hos.
  revert pm Hc Hos. induction os as [|o os IH]; intros pm Hc Hos; simpl.
  - exists pm. repeat split; [done|].
    intros Hne. by destruct Hc as [? | [? _]].
  - simpl in Hos. apply andb_prop in Hos as [Ho Hos].
    apply negb_true_iff in Ho.
    destruct (run_op_in_range o pm Ho Hc) as (r & pm1 & -> & Hc1).
    by apply IH.
Qed.

Lemma cursor_stays_in_range_witness :
  ∃ pm', run_ops caller_ops (init true) = (Ok tt, pm') ∧ cursor_ok pm'
         ∧ (proxies pm' ≠ [] → (idx pm' < length (proxies pm'))%nat).
Proof.
  apply (cursor_stays_in_range caller_ops (init true)).
  - right. split; reflexivity.
  - reflexivity.
Defined.

(** C4 as stated fails twice over: the cursor of a new, empty pool is not
    below the length, and the swap-in of a shorter list leaves the cursor
    behind the end of the sequence, where the next [get_proxy] raises. *)
Lemma cursor_range_fails :
  ¬ (idx (init true) < length (proxies (init true)))%nat
  ∧ ∃ pm', run_ops swap_in_ops (init true) = (Ok tt, pm')
           ∧ ¬ (idx pm' < length (proxies pm'))%nat
           ∧ get_proxy pm' = (Raise IndexError, pm').
Proof.
  split; [simpl; lia|].
  eexists. split; [vm_compute; reflexivity|].
  split; [simpl; lia|]. vm_compute. reflexivity.
Qed.

End ProxyFacts.

(** ** Properties of the engine *)

Module EngineFacts.
Import Proxy Unified Logic Accounts ProxyExamples EngineExamples.
Import TotalFacts ProxyFacts.

(** *** Pool methods as pool steps *)

Lemma pool_step_refl pm : pool_step pm pm.
Proof. by repeat split. Qed.

Lemma pool_step_trans pm1 pm2 pm3 :
  pool_step pm1 pm2 → pool_step pm2 pm3 → pool_step pm1 pm3.
Proof.
  intros (H1 & H2 & H3) (H4 & H5 & H6). repeat split; [congruence..|auto].
Qed.

Lemma cycle_moves_cursor accept n pm :
  ∃ i, snd (cycle accept n pm) = set_idx i pm.
Proof.
  revert pm. induction n as [|n IH]; intros pm; simpl.
  - exists (idx pm). by rewrite set_idx_same.
  - destruct (proxies pm !! idx pm) as [p|]; simpl.
    + destruct (accept p); simpl; [by eexists|].
      destruct (IH (set_idx ((idx pm + 1) mod length (proxies pm))%nat pm)) as [i Hi].
      exists i. by rewrite Hi.
    + exists (idx pm). by rewrite set_idx_same.
Qed.

Lemma get_proxy_step pm : pool_step pm (snd (get_proxy pm)).
Proof.
  assert (H : ∃ i f, snd (get_proxy pm) = set_idx i (Proxy.set_failed f pm)).
  { unfold get_proxy. destruct (proxies pm) eqn:Hl.
    - exists (idx pm), (Proxy.failed pm). by destruct pm.
    - set (pm1 := if all_failed pm then Proxy.set_failed ∅ pm else pm).
      destruct (cycle_moves_cursor (usable pm1) (length (proxies pm1)) pm1) as [i ->].
      exists i, (Proxy.failed pm1). unfold pm1. destruct (all_failed pm); [done|].
      by destruct pm. }
  destruct H as (i & f & Hi). split; [|split].
  - by rewrite Hi.
  - by rewrite Hi.
  - intros Hc. by destruct (get_proxy_in_range pm Hc) as (r & pm' & -> & ? & _).
Qed.

Lemma get_next_proxy_step cur pm : pool_step pm (snd (get_next_proxy cur pm)).
Proof.
  assert (H : ∃ i, snd (get_next_proxy cur pm) = set_idx i pm).
  { unfold get_next_proxy. destruct (proxies pm) as [|p0 [|p1 l]] eqn:Hl;
      [exists (idx pm); by rewrite set_idx_same..|].
    rewrite <- Hl.
    destruct (cycle_moves_cursor
                (fun proxy => negb (bool_decide (Some proxy = cur))
                              && (fail_count pm proxy <? 3))
                (length (proxies pm)) pm) as [i Hi].
    exists i. rewrite <- Hi.
    by destruct (cycle _ _ pm) as [[[p|]|e] pm']. }
  destruct H as [i Hi]. split; [|split].
  - by rewrite Hi.
  - by rewrite Hi.
  - intros Hc. by destruct (get_next_proxy_in_range cur pm Hc) as (r & pm' & -> & ? & _).
Qed.

Lemma mark_failed_step p pm : pool_step pm (mark_failed p pm).
Proof.
  split; [|split]; [| |apply mark_failed_cursor_ok];
    unfold mark_failed; destruct p as [p|]; try done; by destruct (truthy (Some p)).
Qed.

Lemma mark_success_step p pm : pool_step pm (mark_success p pm).
Proof.
  split; [|split]; [| |apply mark_success_cursor_ok];
    unfold mark_success; destruct p as [p|]; try done;
    destruct (truthy (Some p)); try done; by destruct (Proxy.failed pm !! p).
Qed.

(** *** Rules for [preserves] *)

Lemma preserves_modify (R : relation UnifiedFofaClient) f :
  (∀ s, R s (f s)) → preserves R (modify f).
Proof. intros H s. apply H. Qed.

Section Preserves.

Variable R : relation UnifiedFofaClient.
Hypothesis F : Frame R.

Lemma preserves_ret {A} (a : A) : preserves R (ret a).
Proof. intros s. apply (frame_refl R F). Qed.

Lemma preserves_get : preserves R get.
Proof. intros s. apply (frame_refl R F). Qed.

Lemma preserves_of_res {A} (r : Res A) : preserves R (of_res r).
Proof. intros s. apply (frame_refl R F). Qed.

Lemma preserves_bind {A B} (m : M A) (k : A → M B) :
  preserves R m → (∀ a, preserves R (k a)) → preserves R (bind m k).
Proof.
  intros Hm Hk s. unfold bind. specialize (Hm s).
  destruct (m s) as [[a|e] s1]; simpl in *; [|done].
  eapply (frame_trans R F); [exact Hm|apply Hk].
Qed.

Lemma preserves_try {A} (m : M A) (h : exn → M A) :
  preserves R m → (∀ e, preserves R (h e)) → preserves R (try_except m h).
Proof.
  intros Hm Hh s. unfold try_except. specialize (Hm s).
  destruct (m s) as [[a|e] s1]; simpl in *; [done|].
  eapply (frame_trans R F); [exact Hm|apply Hh].
Qed.

Lemma preserves_on_pool {A} (f : ProxyManager → Res A * ProxyManager) :
  (∀ pm, pool_step pm (snd (f pm))) → preserves R (on_pool f).
Proof. intros H s. simpl. apply (frame_pool R F), H. Qed.

Lemma preserves_on_pool_ f :
  (∀ pm, pool_step pm (f pm)) → preserves R (on_pool_ f).
Proof. intros H s. simpl. apply (frame_pool R F), H. Qed.

Lemma preserves_get_proxy : preserves R (on_pool get_proxy).
Proof. apply preserves_on_pool, get_proxy_step. Qed.

Lemma preserves_get_next_proxy c : preserves R (on_pool (get_next_proxy c)).
Proof. apply preserves_on_pool, get_next_proxy_step. Qed.

Lemma preserves_mark_failed p : preserves R (on_pool_ (mark_failed p)).
Proof. apply preserves_on_pool_, mark_failed_step. Qed.

Lemma preserves_mark_success p : preserves R (on_pool_ (mark_success p)).
Proof. apply preserves_on_pool_, mark_success_step. Qed.

Lemma preserves_log m : preserves R (log m).
Proof. intros s. apply (frame_log R F). Qed.

End Preserves.

(** A state reached by a few field updates is related to the state it came
    from. *)
Ltac frame_leaf F :=
  lazymatch goal with
  | |- ?R ?s ?s => apply (frame_refl R F)
  | |- ?R ?s (set_proxy ?p ?t) =>
      apply (frame_trans R F s t); [frame_leaf F | apply (frame_proxy R F)]
  | |- ?R ?s (set_api_client ?c ?t) =>
      apply (frame_trans R F s t); [frame_leaf F | apply (frame_api_client R F)]
  | |- ?R ?s (set_web_client ?c ?t) =>
      apply (frame_trans R F s t); [frame_leaf F | apply (frame_web_client R F)]
  | |- ?R ?s (set_total ?n ?t) =>
      apply (frame_trans R F s t); [frame_leaf F | apply (frame_total R F)]
  | |- ?R ?s (Unified.set_failed ?n ?t) =>
      apply (frame_trans R F s t); [frame_leaf F | apply (frame_failed R F)]
  | |- ?R ?s (set_ban_count ?n ?t) =>
      apply (frame_trans R F s t); [frame_leaf F | apply (frame_ban_count R F)]
  | |- ?R ?s (set_api_requests ?n ?t) =>
      apply (frame_trans R F s t); [frame_leaf F | apply (frame_api_requests R F)]
  end.

(** The same with the updates of the later stages. *)
Ltac frame_leaf_web W :=
  lazymatch goal with
  | |- ?R ?s ?s => apply (frame_refl R (frame_base R W))
  | |- ?R ?s (set_success ?n ?t) =>
      apply (frame_trans R (frame_base R W) s t);
        [frame_leaf_web W | apply (frame_success R W)]
  | |- ?R ?s (set_mode WEB ?t) =>
      apply (frame_trans R (frame_base R W) s t);
        [frame_leaf_web W | apply (frame_mode_web R W)]
  | |- ?R ?s (set_proxy ?p ?t) =>
      apply (frame_trans R (frame_base R W) s t);
        [frame_leaf_web W | apply (frame_proxy R (frame_base R W))]
  | |- ?R ?s (set_api_client ?c ?t) =>
      apply (frame_trans R (frame_base R W) s t);
        [frame_leaf_web W | apply (frame_api_client R (frame_base R W))]
  | |- ?R ?s (set_web_client ?c ?t) =>
      apply (frame_trans R (frame_base R W) s t);
        [frame_leaf_web W | apply (frame_web_client R (frame_base R W))]
  | |- ?R ?s (set_total ?n ?t) =>
      apply (frame_trans R (frame_base R W) s t);
        [frame_leaf_web W | apply (frame_total R (frame_base R W))]
  | |- ?R ?s (Unified.set_failed ?n ?t) =>
      apply (frame_trans R (frame_base R W) s t);
        [frame_leaf_web W | apply (frame_failed R (frame_base R W))]
  | |- ?R ?s (set_ban_count ?n ?t) =>
      apply (frame_trans R (frame_base R W) s t);
        [frame_leaf_web W | apply (frame_ban_count R (frame_base R W))]
  end.

(** Walks through a method body, one rule per construct; [leaf] closes the
    goals about field updates. *)
Ltac pres_with F leaf :=
  repeat first
    [ apply (preserves_ret _ F)
    | apply (preserves_get _ F)
    | apply (preserves_of_res _ F)
    | apply (preserves_get_proxy _ F)
    | apply (preserves_get_next_proxy _ F)
    | apply (preserves_mark_failed _ F)
    | apply (preserves_mark_success _ F)
    | apply (preserves_log _ F)
    | match goal with H : context [preserves] |- preserves _ _ => apply H end
    | apply (preserves_bind _ F); [|intros ?]
    | apply (preserves_try _ F); [|intros ?]
    | apply preserves_modify; intros ?; leaf
    | match goal with
      | |- preserves _ (match ?x with _ => _ end) => destruct x
      end ].

Ltac pres F := pres_with F ltac:(idtac; frame_leaf F).
Ltac pres_web W := pres_with (frame_base _ W) ltac:(idtac; frame_leaf_web W).

Section FrameRules.

Variable E : Env.
Variable R : relation UnifiedFofaClient.
Hypothesis F : Frame R.

Lemma preserves_api_client : preserves R api_client.
Proof. unfold api_client. pres F. Qed.

Lemma preserves_web_client : preserves R web_client.
Proof. unfold web_client. pres F. Qed.

Lemma preserves_api_call c q p : preserves R (api_call E c q p).
Proof. intros s. simpl. apply (frame_api_requests R F). Qed.

Lemma preserves_proxy_failed : preserves R _proxy_failed.
Proof. unfold _proxy_failed. pres F. Qed.

Lemma preserves_api_attempt q p : preserves R (api_attempt E q p).
Proof.
  pose proof preserves_api_client. pose proof (preserves_api_call).
  unfold api_attempt. pres F.
Qed.

Lemma preserves_ensure_proxy n k : preserves R (ensure_proxy n k).
Proof.
  revert k. induction n as [|n IH]; intros k; simpl.
  - apply (preserves_ret _ F).
  - pres F.
Qed.

Lemma preserves_pool_exhausted : preserves R pool_exhausted.
Proof. unfold pool_exhausted. pres F. Qed.

End FrameRules.

Section FrameWebRules.

Variable E : Env.
Variable R : relation UnifiedFofaClient.
Hypothesis W : FrameWeb R.

Let F : Frame R := frame_base R W.

Lemma preserves_web_call c q p : preserves R (web_call E c q p).
Proof. intros s. simpl. apply (frame_web_requests R W). Qed.

Lemma preserves_web_fetch q p : preserves R (web_fetch E q p).
Proof.
  pose proof (preserves_web_client R F). pose proof preserves_web_call.
  unfold web_fetch. pres_web W.
Qed.

Lemma preserves_parse_assets l : preserves R (parse_assets E l).
Proof.
  pose proof (preserves_web_client R F).
  induction l as [|a l IH]; simpl; pres_web W.
Qed.

Lemma preserves_web_results d : preserves R (web_results E d).
Proof.
  pose proof (preserves_web_client R F). pose proof preserves_parse_assets.
  unfold web_results. pres_web W.
Qed.

Lemma preserves_api_handle r : preserves R (api_handle E r).
Proof.
  pose proof (preserves_proxy_failed R F).
  unfold api_handle. pres_web W.
Qed.

Lemma preserves_api_except e : preserves R (api_except E e).
Proof.
  pose proof (preserves_proxy_failed R F).
  unfold api_except. pres_web W.
Qed.

Lemma preserves_stage1 q p : preserves R (stage1 E q p).
Proof.
  pose proof (preserves_api_attempt E R F). pose proof preserves_api_handle.
  pose proof preserves_api_except.
  unfold stage1. pres_web W.
Qed.

Lemma preserves_web_attempt q p : preserves R (web_attempt E q p).
Proof.
  pose proof (preserves_proxy_failed R F). pose proof (preserves_web_client R F).
  pose proof preserves_web_fetch. pose proof preserves_web_results.
  unfold web_attempt. pres_web W.
Qed.

Lemma preserves_web_stage q p : preserves R (web_stage E q p).
Proof.
  pose proof (preserves_proxy_failed R F). pose proof (preserves_ensure_proxy R F).
  pose proof preserves_web_attempt.
  unfold web_stage. pres_web W.
Qed.

Lemma preserves_stage2 q p : preserves R (stage2 E q p).
Proof.
  pose proof preserves_web_stage.
  unfold stage2. pres_web W.
Qed.

Lemma preserves_retry_attempt q p : preserves R (retry_attempt E q p).
Proof.
  pose proof (preserves_web_client R F).
  pose proof preserves_web_fetch. pose proof preserves_web_results.
  unfold retry_attempt. pres_web W.
Qed.

Lemma preserves_stage3 q p mr : preserves R (stage3 E q p mr).
Proof.
  pose proof preserves_retry_attempt.
  unfold stage3. pres_web W.
Qed.

Lemma preserves_attempts_exhausted : preserves R attempts_exhausted.
Proof. unfold attempts_exhausted. pres_web W. Qed.

Lemma preserves_after_stage2 q p mr f2 : preserves R (after_stage2 E q p mr f2).
Proof.
  pose proof preserves_stage3. pose proof preserves_attempts_exhausted.
  unfold after_stage2. pres_web W.
Qed.

Lemma preserves_after_stage1 q p mr : preserves R (after_stage1 E q p mr).
Proof.
  pose proof preserves_stage2. pose proof preserves_after_stage2.
  unfold after_stage1. pres_web W.
Qed.

Lemma preserves_search q p mr :
  (∀ s, R s (set_logs [] s)) → preserves R (search E q p mr).
Proof.
  intros Hreset.
  pose proof preserves_stage1. pose proof preserves_after_stage1.
  unfold search. pres_web W. intros s. apply Hreset.
Qed.

End FrameWebRules.

(** *** The three relations are frames *)

Lemma session_step_refl s : session_step s s.
Proof. repeat split; auto using pool_step_refl. Qed.

Lemma session_step_trans s1 s2 s3 :
  session_step s1 s2 → session_step s2 s3 → session_step s1 s3.
Proof.
  intros (H1 & H2 & H3 & H4) (H5 & H6 & H7 & H8). split; [congruence|].
  split; [destruct H2, H6; [left|right|right|right]; congruence|].
  split; [eapply pool_step_trans; eauto|lia].
Qed.

Lemma session_step_frame : FrameWeb session_step.
Proof.
  split; [split|..]; intros;
    try (repeat split; simpl; auto using pool_step_refl; fail).
  - eapply session_step_trans; eauto.
  - destruct H as (? & ? & ?). repeat split; simpl; auto.
Qed.

Lemma session_step_reset s : session_step s (set_logs [] s).
Proof. repeat split; auto using pool_step_refl. Qed.

Lemma stage_step_frame : FrameWeb stage_step.
Proof.
  pose proof session_step_frame as [F S1 S2 S3].
  split; [split|..]; intros.
  - split; [apply (frame_refl _ F)|]. exists []. by rewrite app_nil_r.
  - destruct H as [H1 [l1 Hl1]], H0 as [H2 [l2 Hl2]].
    split; [eapply session_step_trans; eauto|].
    exists (l1 ++ l2). by rewrite Hl2, Hl1, app_assoc.
  - split; [by apply (frame_pool _ F)|]. exists []. by rewrite app_nil_r.
  - split; [apply (frame_proxy _ F)|]. exists []. by rewrite app_nil_r.
  - split; [apply (frame_api_client _ F)|]. exists []. by rewrite app_nil_r.
  - split; [apply (frame_web_client _ F)|]. exists []. by rewrite app_nil_r.
  - split; [apply (frame_total _ F)|]. exists []. by rewrite app_nil_r.
  - split; [apply (frame_failed _ F)|]. exists []. by rewrite app_nil_r.
  - split; [apply (frame_ban_count _ F)|]. exists []. by rewrite app_nil_r.
  - split; [apply (frame_api_requests _ F)|]. exists []. by rewrite app_nil_r.
  - split; [apply (frame_log _ F)|]. by exists [m].
  - split; [apply S1|]. exists []. by rewrite app_nil_r.
  - split; [apply S2|]. exists []. by rewrite app_nil_r.
  - split; [apply S3|]. exists []. by rewrite app_nil_r.
Qed.

Lemma api_step_frame : Frame api_step.
Proof.
  split; intros; try (repeat split; simpl; auto; fail).
  destruct H as (? & ? & ? & ?), H0 as (? & ? & ? & ?).
  repeat split; congruence.
Qed.

(** *** The stages of [search] *)

Section Stages.

Variable E : Env.

Lemma search_unfold q p mr s :
  search E q p mr s
  = match stage1 E q p (set_logs [] s) with
    | (Ok (Return r), s1) => (Ok r, s1)
    | (Ok Next, s1) => after_stage1 E q p mr s1
    | (Raise e, s1) => (Raise e, s1)
    end.
Proof.
  unfold search, bind, modify.
  by destruct (stage1 E q p (set_logs [] s)) as [[[|r]|e] s1].
Qed.

Lemma stage1_unfold q p s :
  mode s ≠ WEB →
  stage1 E q p (set_logs [] s)
  = match api_attempt E q p (set_logs [LogStage1] s) with
    | (Ok response, s1) =>
        match api_handle E response s1 with
        | (Ok f, s2) => (Ok f, s2)
        | (Raise e, s2) => api_except E e s2
        end
    | (Raise e, s1) => api_except E e s1
    end.
Proof.
  intros Hm. unfold stage1, bind, get, try_except, log, modify.
  destruct (mode s) eqn:Hmode; simpl; rewrite Hmode; try done;
    unfold set_logs; simpl;
    destruct (api_attempt E q p _) as [[resp|e] s1]; try done;
    by destruct (api_handle E resp s1) as [[f|e] s2].
Qed.

Lemma stage2_enters q p s :
  mode s ≠ API →
  stage2 E q p s
  = web_stage E q p (set_logs (logs s ++ [LogStage2]) (set_mode WEB s)).
Proof.
  intros Hm. unfold stage2, bind, get, modify, log.
  by destruct (mode s).
Qed.

Lemma stage2_skipped q p s : mode s = API → stage2 E q p s = (Ok Next, s).
Proof. intros Hm. unfold stage2, bind, get. by rewrite Hm. Qed.

(** Once the second stage is entered the call ends in [WEB] mode, with the
    entry recorded in [logs]. *)
Lemma after_stage1_enters_web q p mr s :
  mode s ≠ API →
  mode (snd (after_stage1 E q p mr s)) = WEB
  ∧ LogStage2 ∈ logs (snd (after_stage1 E q p mr s)).
Proof.
  intros Hm.
  assert (Hstep : stage_step (set_logs (logs s ++ [LogStage2]) (set_mode WEB s))
                             (snd (after_stage1 E q p mr s))).
  { unfold after_stage1, bind. rewrite stage2_enters by done.
    pose proof (preserves_web_stage E _ stage_step_frame q p
                  (set_logs (logs s ++ [LogStage2]) (set_mode WEB s))) as H2.
    destruct (web_stage E q p _) as [[f2|e] s2]; simpl in *; [|done].
    eapply (frame_trans _ (frame_base _ stage_step_frame)); [exact H2|].
    apply (preserves_after_stage2 E _ stage_step_frame). }
  destruct Hstep as [(_ & Hmode & _) [l Hl]]. simpl in *. split.
  - case Hmode; trivial.
  - rewrite Hl. apply elem_of_app. left. apply elem_of_app. right. left.
Qed.

End Stages.

(** *** Claims about [search] *)

(** C1, as the code has it. Let the mode be [API] or [AUTO] and let the
    request of the first stage yield a response that is not classified as a
    ban. If its assets are not empty, [search] returns that response at
    once: no anonymous request is issued, [success] grows by exactly 1,
    [mark_success] is applied to the assigned proxy and the mode is left as
    it was. If its assets are empty, the first stage falls through; in
    [AUTO] mode the second stage is then entered (the call ends in [WEB]
    mode with the entry logged), whereas in [API] mode the second stage does
    nothing and the call goes on with the final retry. *)
Theorem api_stage_outcomes (E : Env) (q : string) (p mr : Z)
    (s s1 : UnifiedFofaClient) (r : FofaResponse) :
  mode s = API ∨ mode s = AUTO →
  api_attempt E q p (set_logs [LogStage1] s) = (Ok (Some r), s1) →
  _is_ban_response E r = false →
  (response_assets r ≠ [] →
   let s' :=
     set_logs (logs s1 ++ [LogApiSuccess (length (response_assets r))])
       (set_proxy_manager (mark_success (proxy (config s1)) (proxy_manager s1))
          (set_success (success s1 + 1) s1)) in
   search E q p mr s = (Ok (Some r), s')
   ∧ web_requests s' = web_requests s
   ∧ success s' = success s + 1
   ∧ proxy_manager s' = mark_success (proxy (config s')) (proxy_manager s1)
   ∧ mode s' = mode s)
  ∧ (response_assets r = [] →
     ∃ s2,
       stage1 E q p (set_logs [] s) = (Ok Next, s2)
       ∧ search E q p mr s = after_stage1 E q p mr s2
       ∧ web_requests s2 = web_requests s
       ∧ mode s2 = mode s
       ∧ (mode s = AUTO →
          mode (snd (search E q p mr s)) = WEB
          ∧ LogStage2 ∈ logs (snd (search E q p mr s)))
       ∧ (mode s = API →
          stage2 E q p s2 = (Ok Next, s2)
          ∧ search E q p mr s = after_stage2 E q p mr Next s2)).
Proof.
  intros Hmode Hreq Hban.
  assert (Hnw : mode s ≠ WEB) by (destruct Hmode as [-> | ->]; discriminate).
  pose proof (preserves_api_attempt E _ api_step_frame q p (set_logs [LogStage1] s))
    as (Hw & Hs & Hm & _).
  rewrite Hreq in Hw, Hs, Hm. simpl in Hw, Hs, Hm.
  split.
  - intros Hne s'.
    assert (Hsearch : search E q p mr s = (Ok (Some r), s')).
    { rewrite search_unfold, stage1_unfold, Hreq by done.
      unfold api_handle. rewrite Hban.
      unfold response_assets in Hne. destruct (data r) as [d|] eqn:Hd; [|done].
      destruct (assets d) as [|a l] eqn:Ha; [done|].
      unfold s', response_assets. rewrite Hd, Ha. reflexivity. }
    split; [exact Hsearch|]. unfold s'; simpl. repeat split; congruence.
  - intros Hempty.
    set (msg := match data r with Some _ => LogApiEmpty | None => LogApiNoData end).
    exists (set_logs (logs s1 ++ [msg]) s1).
    assert (H1 : stage1 E q p (set_logs [] s)
                 = (Ok Next, set_logs (logs s1 ++ [msg]) s1)).
    { rewrite stage1_unfold, Hreq by done.
      unfold api_handle. rewrite Hban. unfold msg.
      unfold response_assets in Hempty. destruct (data r) as [d|]; [|done].
      by rewrite Hempty. }
    assert (H2 : search E q p mr s
                 = after_stage1 E q p mr (set_logs (logs s1 ++ [msg]) s1)).
    { by rewrite search_unfold, H1. }
    split; [exact H1|]. split; [exact H2|]. split; [exact Hw|].
    split; [exact Hm|]. split.
    + intros Hauto. rewrite H2. apply after_stage1_enters_web.
      simpl. rewrite Hm, Hauto. discriminate.
    + intros Hapi.
      assert (H3 : stage2 E q p (set_logs (logs s1 ++ [msg]) s1)
                   = (Ok Next, set_logs (logs s1 ++ [msg]) s1)).
      { apply stage2_skipped. simpl. by rewrite Hm. }
      split; [exact H3|]. rewrite H2. unfold after_stage1, bind. by rewrite H3.
Qed.

(** A call whose first stage falls through outside [API] mode ends in [WEB]
    mode. *)
Lemma search_enters_web E q p mr s s1 :
  mode s ≠ API →
  stage1 E q p (set_logs [] s) = (Ok Next, s1) →
  mode (snd (search E q p mr s)) = WEB.
Proof.
  intros Hm H1. rewrite search_unfold, H1.
  apply after_stage1_enters_web.
  pose proof (preserves_stage1 E _ session_step_frame q p (set_logs [] s))
    as (_ & Hmode & _).
  rewrite H1 in Hmode. simpl in Hmode. destruct Hmode as [-> | ->]; [done|discriminate].
Qed.

Lemma search_session_step E q p mr s :
  session_step s (snd (search E q p mr s)).
Proof.
  apply (preserves_search E _ session_step_frame), session_step_reset.
Qed.

Lemma searches_session_step E calls s : session_step s (searches E calls s).
Proof.
  revert s. induction calls as [|c calls IH]; intros s; simpl.
  - apply session_step_refl.
  - eapply session_step_trans; [apply search_session_step|apply IH].
Qed.

(** *** Rules for [returns] *)

Lemma returns_ret {A} (P : UnifiedFofaClient → Prop) (a : A) Q :
  (∀ s, P s → Q a s) → returns P (ret a) Q.
Proof. intros H s Hs. exists a, s. split; [done|]. by apply H. Qed.

Lemma returns_bind {A B} P (m : M A) (k : A → M B) Q1 Q :
  returns P m Q1 → (∀ a, returns (Q1 a) (k a) Q) → returns P (bind m k) Q.
Proof.
  intros Hm Hk s Hs. destruct (Hm s Hs) as (a & s1 & Heq & H1).
  destruct (Hk a s1 H1) as (b & s2 & Heq2 & H2).
  exists b, s2. split; [|done]. unfold bind. by rewrite Heq.
Qed.

Lemma returns_weaken {A} P (m : M A) (Q Q' : A → UnifiedFofaClient → Prop) :
  returns P m Q → (∀ a s, Q a s → Q' a s) → returns P m Q'.
Proof.
  intros Hm HQ s Hs. destruct (Hm s Hs) as (a & s1 & Heq & H1).
  exists a, s1. split; [done|]. by apply HQ.
Qed.

Lemma returns_try {A} P (m : M A) h Q :
  returns P m Q → returns P (try_except m h) Q.
Proof.
  intros Hm s Hs. destruct (Hm s Hs) as (a & s1 & Heq & H1).
  exists a, s1. split; [|done]. unfold try_except. by rewrite Heq.
Qed.

Lemma returns_get P : returns P get (fun a s => a = s ∧ P s).
Proof. intros s Hs. by exists s, s. Qed.

Lemma returns_modify P f (Q : unit → UnifiedFofaClient → Prop) :
  (∀ s, P s → Q tt (f s)) → returns P (modify f) Q.
Proof. intros H s Hs. exists tt, (f s). split; [done|]. by apply H. Qed.

Lemma returns_assume {A} (φ : Prop) P (m : M A) Q :
  (φ → returns P m Q) → returns (fun s => φ ∧ P s) m Q.
Proof. intros H s [Hφ Hs]. by apply H. Qed.

(** *** The scenario states are kept by every step that issues no request *)

Section Steady.

Variable E : Env.
Variables (dir : bool) (md : AccessMode) (a w : nat).

Local Notation "'keeps' m" := (returns (steady dir md a w) m (fun _ => steady dir md a w)) (at level 10, m at level 9).

Lemma steady_pool_step s pm' :
  steady dir md a w s → pool_step (proxy_manager s) pm' →
  steady dir md a w (set_proxy_manager pm' s).
Proof.
  intros (Hc & Hd & Hm & Ha & Hw) (_ & Hd' & Hc').
  repeat split; simpl; auto. congruence.
Qed.

Lemma steady_get_proxy : keeps (on_pool get_proxy).
Proof.
  intros s Hs. pose proof Hs as (Hc & _).
  destruct (get_proxy_in_range _ Hc) as (r & pm' & Heq & _).
  exists r, (set_proxy_manager pm' s). unfold on_pool. rewrite Heq. split; [done|].
  apply steady_pool_step; [done|].
  replace pm' with (snd (get_proxy (proxy_manager s))) by (by rewrite Heq).
  apply get_proxy_step.
Qed.

Lemma steady_get_next_proxy c : keeps (on_pool (get_next_proxy c)).
Proof.
  intros s Hs. pose proof Hs as (Hc & _).
  destruct (get_next_proxy_in_range c _ Hc) as (r & pm' & Heq & _).
  exists r, (set_proxy_manager pm' s). unfold on_pool. rewrite Heq. split; [done|].
  apply steady_pool_step; [done|].
  replace pm' with (snd (get_next_proxy c (proxy_manager s))) by (by rewrite Heq).
  apply get_next_proxy_step.
Qed.

Lemma steady_mark_failed p : keeps (on_pool_ (mark_failed p)).
Proof.
  apply returns_modify. intros s Hs.
  apply steady_pool_step; [done|apply mark_failed_step].
Qed.

Lemma steady_mark_success p : keeps (on_pool_ (mark_success p)).
Proof.
  apply returns_modify. intros s Hs.
  apply steady_pool_step; [done|apply mark_success_step].
Qed.

Lemma steady_log m : keeps (log m).
Proof. apply returns_modify. by intros s Hs. Qed.

Lemma steady_get :
  returns (steady dir md a w) get (fun _ => steady dir md a w).
Proof. intros s Hs. by exists s, s. Qed.

Lemma steady_ret {A} (x : A) : keeps (ret x).
Proof. by apply returns_ret. Qed.

(** Walks through a body whose steps all keep the scenario states. *)
Ltac keep :=
  repeat first
    [ apply steady_ret
    | apply steady_get_proxy
    | apply steady_get_next_proxy
    | apply steady_mark_failed
    | apply steady_mark_success
    | apply steady_log
    | match goal with H : context [returns] |- returns _ _ _ => apply H end
    | apply (returns_bind _ _ _ (fun _ => steady dir md a w)); [|intros ?]
    | apply steady_get
    | apply returns_modify; intros ? ?; assumption
    | match goal with
      | |- returns _ (match ?x with _ => _ end) _ => destruct x
      end ].

Lemma steady_api_client : keeps api_client.
Proof. unfold api_client. keep. Qed.

Lemma steady_web_client : keeps web_client.
Proof. unfold web_client. keep. Qed.

Lemma steady_proxy_failed : keeps _proxy_failed.
Proof. unfold _proxy_failed. keep. Qed.

Lemma steady_ensure_proxy n k : keeps (ensure_proxy n k).
Proof.
  revert k. induction n as [|n IH]; intros k; simpl; keep.
Qed.

Lemma steady_parse_assets l :
  returns (steady dir md a w) (parse_assets E l)
    (fun rs s => rs = map (_parse_asset_to_result E) l ∧ steady dir md a w s).
Proof.
  induction l as [|x l IH]; simpl.
  - by apply returns_ret.
  - eapply returns_bind; [apply steady_web_client|intros ?].
    eapply returns_bind; [apply IH|intros rs].
    apply returns_assume. intros ->. by apply returns_ret.
Qed.

Lemma steady_web_results d l :
  _extract_assets_from_data E d = Ok l →
  returns (steady dir md a w) (web_results E d)
    (fun rs s => rs = map (_parse_asset_to_result E) l ∧ steady dir md a w s).
Proof.
  intros Hl. unfold web_results.
  eapply returns_bind; [apply steady_web_client|intros ?].
  apply (returns_bind _ _ _ (fun x s => x = l ∧ steady dir md a w s)).
  { intros s Hs. exists l, s. unfold of_res. by rewrite Hl. }
  intros x. apply returns_assume. intros ->. apply steady_parse_assets.
Qed.

Lemma steady_web_fetch q p :
  returns (steady dir md a w) (web_fetch E q p)
    (fun h s => (∃ c, h = web_request E w c q p) ∧ steady dir md a (S w) s).
Proof.
  unfold web_fetch.
  eapply returns_bind; [apply steady_web_client|intros c].
  eapply returns_bind; [apply steady_web_client|intros ?].
  intros s (Hc & Hd & Hm & Ha & Hw).
  eexists _, _. split; [reflexivity|]. simpl. rewrite Hw.
  split; [by exists c|]. by repeat split.
Qed.

Lemma steady_api_attempt q p resp :
  (∀ prx, api_search E a prx q p = Ok resp) →
  returns (steady dir md a w) (api_attempt E q p)
    (fun r s => r = resp ∧ steady dir md (S a) w s).
Proof.
  intros Hapi. unfold api_attempt.
  apply (returns_bind _ _ _ (fun _ => steady dir md a w));
    [apply returns_modify; by intros s Hs|intros ?].
  apply (returns_bind _ _ _ (fun _ => steady dir md a w));
    [apply steady_get_proxy|intros cp].
  apply (returns_bind _ _ _ (fun _ => steady dir md a w)); [apply steady_get|intros s0].
  apply (returns_bind _ _ _ (fun _ => steady dir md a w)).
  { destruct (bool_decide _); [|apply steady_ret].
    apply returns_modify. by intros s Hs. }
  intros ?.
  apply (returns_bind _ _ _ (fun _ => steady dir md a w));
    [apply steady_api_client|intros c].
  intros s (Hc & Hd & Hm & Ha & Hw).
  eexists _, _. unfold api_call. rewrite Ha, Hapi. split; [reflexivity|].
  simpl. by repeat split.
Qed.

End Steady.

(** *** The ban-then-page scenario *)

Section Scenario.

Variable E : Env.

Lemma api_handle_ban dir md a w resp :
  ban_signal E resp = true →
  returns (steady dir md a w) (api_handle E resp)
    (fun f s => f = Next ∧ steady dir md a w s).
Proof.
  intros Hban. unfold api_handle. destruct resp as [r|]; simpl in Hban.
  - rewrite Hban.
    apply (returns_bind _ _ _ (fun _ => steady dir md a w));
      [apply returns_modify; by intros s Hs|intros ?].
    apply (returns_bind _ _ _ (fun _ => steady dir md a w)); [apply steady_log|intros ?].
    apply (returns_bind _ _ _ (fun _ => steady dir md a w));
      [apply steady_proxy_failed|intros ?].
    by apply returns_ret.
  - apply (returns_bind _ _ _ (fun _ => steady dir md a w)); [apply steady_log|intros ?].
    apply (returns_bind _ _ _ (fun _ => steady dir md a w));
      [apply returns_modify; by intros s Hs|intros ?].
    apply (returns_bind _ _ _ (fun _ => steady dir md a w));
      [apply steady_proxy_failed|intros ?].
    by apply returns_ret.
Qed.

Lemma stage1_ban dir a w q p resp :
  (∀ prx, api_search E a prx q p = Ok resp) →
  ban_signal E resp = true →
  returns (steady dir AUTO a w) (stage1 E q p)
    (fun f s => f = Next ∧ steady dir AUTO (S a) w s).
Proof.
  intros Hapi Hban s Hs. pose proof Hs as (_ & _ & Hm & _).
  unfold stage1, bind, get. rewrite Hm.
  assert (Hs1 : steady dir AUTO a w (set_logs (logs s ++ [LogStage1]) s)) by done.
  destruct (steady_api_attempt E dir AUTO a w q p resp Hapi _ Hs1)
    as (r & s1 & Heq & -> & H1).
  destruct (api_handle_ban dir AUTO (S a) w resp Hban s1 H1) as (f & s2 & Heq2 & -> & H2).
  exists Next, s2. split; [|done].
  unfold log, modify, try_except, bind. simpl. rewrite Heq. by rewrite Heq2.
Qed.

Lemma is_ban_html_nonempty html : _is_ban_html E html = false → truthy (Some html) = true.
Proof.
  unfold _is_ban_html. simpl. by destruct (String.eqb html "").
Qed.

Lemma web_attempt_page dir md a w q p html d l t :
  (∀ prx, web_request E w prx q p = Some html) →
  _is_ban_html E html = false →
  _parse_json_response E html = Some d →
  _extract_assets_from_data E d = Ok l →
  l ≠ [] →
  json_total E d = Ok t →
  returns (steady dir md a w) (web_attempt E q p)
    (fun f s => f = Return (Some (page_response E l t p)) ∧ steady dir md a (S w) s).
Proof.
  intros Hweb Hban Hparse Hl Hne Ht. unfold web_attempt.
  apply (returns_bind _ _ _ (fun _ => steady dir md a w));
    [apply returns_modify; by intros s Hs|intros ?].
  eapply returns_bind; [apply steady_web_fetch|intros h].
  apply returns_assume. intros [c ->]. rewrite Hweb.
  rewrite (is_ban_html_nonempty html Hban), Hban. simpl negb. cbv iota.
  apply (returns_bind _ _ _ (fun _ => steady dir md a (S w)));
    [apply steady_web_client|intros ?].
  rewrite Hparse.
  eapply returns_bind; [by apply steady_web_results|intros rs].
  apply returns_assume. intros ->.
  destruct (map _ _) as [|r0 rest] eqn:Hmap.
  { apply map_eq_nil in Hmap. done. }
  rewrite <- Hmap.
  apply (returns_bind _ _ _ (fun _ => steady dir md a (S w)));
    [apply returns_modify; by intros s Hs|intros ?].
  apply (returns_bind _ _ _ (fun _ => steady dir md a (S w))); [apply steady_get|intros s0].
  apply (returns_bind _ _ _ (fun _ => steady dir md a (S w)));
    [apply steady_mark_success|intros ?].
  apply (returns_bind _ _ _ (fun x s => x = t ∧ steady dir md a (S w) s)).
  { intros s Hs. exists t, s. unfold of_res. by rewrite Ht. }
  intros t'. apply returns_assume. intros ->.
  apply (returns_bind _ _ _ (fun _ => steady dir md a (S w))); [apply steady_log|intros ?].
  apply returns_ret. intros s Hs. split; [|done].
  unfold page_response. by rewrite length_map.
Qed.

(** The second stage with a good page waiting: the page is fetched and
    returned, unless no proxy is assigned and direct connection is
    disallowed, in which case nothing is requested. *)
Lemma web_stage_page dir md a w q p html d l t :
  (∀ prx, web_request E w prx q p = Some html) →
  _is_ban_html E html = false →
  _parse_json_response E html = Some d →
  _extract_assets_from_data E d = Ok l →
  l ≠ [] →
  json_total E d = Ok t →
  returns (steady dir md a w) (web_stage E q p)
    (fun f s =>
       (f = Return (Some (page_response E l t p)) ∧ steady dir md a (S w) s)
       ∨ (dir = false ∧ f = Return None ∧ steady dir md a w s
          ∧ truthy (proxy (config s)) = false)).
Proof.
  intros Hweb Hban Hparse Hl Hne Ht. unfold web_stage.
  apply (returns_bind _ _ _ (fun _ => steady dir md a w));
    [apply steady_ensure_proxy|intros ?].
  eapply returns_bind; [apply returns_get|intros s0].
  intros s [-> Hs].
  pose proof Hs as (_ & Hd & _).
  destruct (truthy (proxy (config s))) eqn:Hp.
  - change (negb true) with false. cbv iota.
    destruct (web_attempt_page dir md a w q p html d l t
                Hweb Hban Hparse Hl Hne Ht s Hs)
      as (f & s1 & Heq & Hf & H1).
    exists f, s1. split; [|by left]. unfold try_except. by rewrite Heq.
  - change (negb false) with true. cbv iota. rewrite Hd. destruct dir.
    + destruct (web_attempt_page true md a w q p html d l t
                  Hweb Hban Hparse Hl Hne Ht
                  (set_logs (logs s ++ [LogDirect]) s))
        as (f & s1 & Heq & Hf & H1); [done|].
      exists f, s1. split; [|by left].
      unfold bind, log, modify, try_except. simpl. by rewrite Heq.
    + eexists _, _. split; [reflexivity|]. right.
      split; [done|]. split; [done|]. split; [exact Hs|exact Hp].
Qed.

Lemma search_ban_then_page dir a w q p mr resp html d l t :
  (∀ prx, api_search E a prx q p = Ok resp) →
  ban_signal E resp = true →
  (∀ prx, web_request E w prx q p = Some html) →
  _is_ban_html E html = false →
  _parse_json_response E html = Some d →
  _extract_assets_from_data E d = Ok l →
  l ≠ [] →
  json_total E d = Ok t →
  returns (steady dir AUTO a w) (search E q p mr)
    (fun r s =>
       (r = Some (page_response E l t p) ∧ steady dir WEB (S a) (S w) s)
       ∨ (dir = false ∧ r = None ∧ steady dir WEB (S a) w s
          ∧ truthy (proxy (config s)) = false)).
Proof.
  intros Hapi Hsig Hweb Hban Hparse Hl Hne Ht s Hs.
  assert (Hs0 : steady dir AUTO a w (set_logs [] s)) by done.
  destruct (stage1_ban dir a w q p resp Hapi Hsig _ Hs0) as (f & s1 & H1 & -> & Hs1).
  rewrite search_unfold, H1. unfold after_stage1, bind.
  pose proof Hs1 as (Hc & Hd & Hm & Ha & Hw).
  rewrite stage2_enters by (rewrite Hm; discriminate).
  destruct (web_stage_page dir WEB (S a) w q p html d l t
              Hweb Hban Hparse Hl Hne Ht
              (set_logs (logs s1 ++ [LogStage2]) (set_mode WEB s1)))
    as (f2 & s2 & H2 & Hout); [by repeat split|].
  rewrite H2. destruct Hout as [[-> Hs2] | (Hdir & -> & Hs2 & Hp)]; simpl.
  - exists (Some (page_response E l t p)), s2. split; [done|by left].
  - exists None, s2. split; [done|]. right.
    split; [done|]. split; [done|]. split; [exact Hs2|exact Hp].
Qed.

End Scenario.


(** *** [search_all] *)

Section SearchAll.

Variable E : Env.

Lemma search_end_count q p mr s r s1 :
  search E q p mr s = (r, s1) → end_count (config s1) = end_count (config s).
Proof.
  intros Heq. pose proof (search_session_step E q p mr s) as (H & _).
  by rewrite Heq in H.
Qed.

Lemma pool_exhausted_end_count s r s1 :
  pool_exhausted s = (r, s1) → end_count (config s1) = end_count (config s).
Proof.
  intros Heq.
  pose proof (preserves_pool_exhausted _ (frame_base _ session_step_frame) s) as (H & _).
  by rewrite Heq in H.
Qed.

(** A failed page: the counter goes up by one; the loop stops when the pool
    is exhausted or the counter reaches the threshold. *)
Lemma search_all_body_failure q mcf ls s s1 b s1' :
  search E q (page ls) 3 s = (Ok None, s1) →
  pool_exhausted s1 = (Ok b, s1') →
  search_all_body E q mcf ls s
  = (Ok (if b || (mcf <=? consecutive_failures ls + 1) then
           (Break, mkLoopState (all_results ls) (page ls) (consecutive_failures ls + 1))
         else
           (Continue, mkLoopState (all_results ls) (page ls + 1)
                        (consecutive_failures ls + 1))),
     s1').
Proof.
  intros H1 H2. unfold search_all_body, bind. rewrite H1, H2.
  destruct b; simpl; [done|]. by destruct (mcf <=? _).
Qed.

(** A page with data: the counter is reset, whatever the loop does next;
    the turn can only fail in the comparison of the reported total. *)
Lemma search_all_body_success q mcf ls s r s1 :
  search E q (page ls) 3 s = (Ok (Some r), s1) →
  ∃ out, search_all_body E q mcf ls s = (out, s1)
         ∧ match out with
           | Ok (c, ls') => consecutive_failures ls' = 0
           | Raise e =>
               reported_total_reached r
                 (Z.of_nat (length (all_results ls
                                    ++ map of_asset (response_assets r))))
               = Raise e
           end
         ∧ (ordered_total r → ∃ c ls', out = Ok (c, ls')).
Proof.
  intros H1. unfold search_all_body, bind, get, of_res. rewrite H1.
  destruct (end_count (config s1) <=? _);
    [eexists; split; [done|]; split; [done|]; by eexists _, _|].
  destruct (reported_total_reached r _) as [[|]|e] eqn:Ht;
    (eexists; split; [done|]; split; [done|]); try by eexists _, _.
  intros Hr.
  destruct (reported_total_ordered r
              (Z.of_nat (length (all_results ls ++ map of_asset (response_assets r))))
              Hr) as [b Hb].
  congruence.
Qed.

(** What one turn of the loop does to the state of the loop. *)
Lemma search_all_body_spec q mcf ls s c ls' s' :
  search_all_body E q mcf ls s = (Ok (c, ls'), s') →
  end_count (config s') = end_count (config s)
  ∧ (c = Continue → page ls' = page ls + 1)
  ∧ (Z.of_nat (length (all_results ls)) < end_count (config s) →
     Z.of_nat (length (all_results ls')) ≤ end_count (config s)).
Proof.
  unfold search_all_body, bind. intros Hbody.
  destruct (search E q (page ls) 3 s) as [[[r|]|e] s1] eqn:Hs; [| |done].
  - pose proof (search_end_count _ _ _ _ _ _ Hs) as Hec.
    unfold get in Hbody. rewrite Hec in Hbody.
    destruct (end_count (config s) <=? _) eqn:Hle.
    + injection Hbody as <- <- <-. split; [done|]. split; [done|]. simpl.
      intros Hlt. unfold py_take.
      destruct (Z.leb_spec 0 (end_count (config s))); [|lia].
      rewrite length_take. lia.
    + apply Z.leb_gt in Hle. unfold of_res in Hbody.
      destruct (reported_total_reached r _) as [[|]|e]; [| |done];
        injection Hbody as <- <- <-; simpl; (split; [done|]); split; try done; lia.
  - destruct (pool_exhausted s1) as [[b|e] s2] eqn:Hp; [|done].
    pose proof (search_end_count _ _ _ _ _ _ Hs) as Hec.
    pose proof (pool_exhausted_end_count _ _ _ Hp) as Hec2.
    assert (Hec3 : end_count (config s') = end_count (config s)).
    { destruct b; [|destruct (mcf <=? _)]; injection Hbody as <- <- <-; congruence. }
    split; [exact Hec3|].
    destruct b; [|destruct (mcf <=? _)]; injection Hbody as <- <- <-; simpl;
      split; try done; lia.
Qed.

(** The loop always comes to an end within its fuel. *)
Lemma search_all_loop_total q max_pages mcf fuel ls s :
  (Z.to_nat (max_pages + 1 - page ls) ≤ fuel)%nat →
  ∃ out, search_all_loop E q max_pages mcf fuel ls s = Some out.
Proof.
  revert ls s. induction fuel as [|fuel IH]; intros ls s Hfuel; simpl.
  - destruct (_ <? _); simpl; [|by eexists].
    destruct (Z.leb_spec (page ls) max_pages); [lia|by eexists].
  - destruct ((_ <? _) && (_ <=? _)) eqn:Hcond; [|by eexists].
    apply andb_prop in Hcond as [_ Hpage]. apply Z.leb_le in Hpage.
    destruct (search_all_body E q mcf ls s) as [[[[|] ls']|e] s'] eqn:Hbody;
      [|by eexists..].
    apply IH.
    destruct (search_all_body_spec _ _ _ _ _ _ _ Hbody) as (_ & Hp & _).
    rewrite Hp by done. lia.
Qed.

(** The loop never holds more than the target, and returns no more. *)
Lemma search_all_loop_bound q max_pages mcf fuel ls s res s' :
  Z.of_nat (length (all_results ls)) ≤ Z.max 0 (end_count (config s)) →
  search_all_loop E q max_pages mcf fuel ls s = Some (Ok res, s') →
  Z.of_nat (length res) ≤ Z.max 0 (end_count (config s)).
Proof.
  revert ls s. induction fuel as [|fuel IH]; intros ls s Hinv; simpl.
  - destruct (_ && _); [done|]. by intros [= <- <-].
  - destruct ((_ <? _) && (_ <=? _)) eqn:Hcond; [|by intros [= <- <-]].
    apply andb_prop in Hcond as [Hlt _]. apply Z.ltb_lt in Hlt.
    destruct (search_all_body E q mcf ls s) as [[[c ls']|e] s1] eqn:Hbody; [|done].
    destruct (search_all_body_spec _ _ _ _ _ _ _ Hbody) as (Hec & _ & Hlen).
    specialize (Hlen Hlt).
    destruct c.
    + intros Hloop. rewrite <- Hec. eapply IH; [|exact Hloop]. rewrite Hec. lia.
    + intros [= <- <-]. lia.
Qed.

Lemma search_all_loop_S q max_pages mcf fuel ls s :
  search_all_loop E q max_pages mcf (S fuel) ls s
  = if (Z.of_nat (length (all_results ls)) <? end_count (config s))
       && (page ls <=? max_pages)
    then match search_all_body E q mcf ls s with
         | (Ok (Continue, ls'), s') => search_all_loop E q max_pages mcf fuel ls' s'
         | (Ok (Break, ls'), s') => Some (Ok (all_results ls'), s')
         | (Raise e, s') => Some (Raise e, s')
         end
    else Some (Ok (all_results ls), s).
Proof. reflexivity. Qed.

(** One failed page below the threshold, with the pool not exhausted: the
    loop goes on with the next page. *)
Lemma search_all_loop_failure q max_pages fuel ls s s1 s1' :
  Z.of_nat (length (all_results ls)) < end_count (config s) →
  page ls ≤ max_pages →
  consecutive_failures ls + 1 < 3 →
  search E q (page ls) 3 s = (Ok None, s1) →
  pool_exhausted s1 = (Ok false, s1') →
  search_all_loop E q max_pages 3 (S fuel) ls s
  = search_all_loop E q max_pages 3 fuel
      (mkLoopState (all_results ls) (page ls + 1) (consecutive_failures ls + 1)) s1'
  ∧ end_count (config s1') = end_count (config s).
Proof.
  intros Hlt Hpage Hcf H1 H2. split.
  - rewrite search_all_loop_S.
    rewrite (proj2 (Z.ltb_lt _ _) Hlt), (proj2 (Z.leb_le _ _) Hpage). simpl andb.
    cbv iota.
    rewrite (search_all_body_failure q 3 ls s s1 false s1' H1 H2). simpl orb.
    destruct (Z.leb_spec 3 (consecutive_failures ls + 1)); [lia|done].
  - rewrite (pool_exhausted_end_count _ _ _ H2).
    apply (search_end_count _ _ _ _ _ _ H1).
Qed.

(** The failed page that brings the counter to the threshold: the loop ends
    with what it holds. *)
Lemma search_all_loop_last_failure q max_pages fuel ls s s1 b s1' :
  Z.of_nat (length (all_results ls)) < end_count (config s) →
  page ls ≤ max_pages →
  3 ≤ consecutive_failures ls + 1 →
  search E q (page ls) 3 s = (Ok None, s1) →
  pool_exhausted s1 = (Ok b, s1') →
  search_all_loop E q max_pages 3 (S fuel) ls s = Some (Ok (all_results ls), s1').
Proof.
  intros Hlt Hpage Hcf H1 H2.
  rewrite search_all_loop_S.
  rewrite (proj2 (Z.ltb_lt _ _) Hlt), (proj2 (Z.leb_le _ _) Hpage). simpl andb.
  cbv iota.
  rewrite (search_all_body_failure q 3 ls s s1 b s1' H1 H2).
  rewrite (proj2 (Z.leb_le _ _) Hcf), orb_true_r. reflexivity.
Qed.

Lemma three_failures_loop q max_pages fuel ls s0 s1 s1' s2 s2' s3 s3' b :
  consecutive_failures ls = 0 →
  Z.of_nat (length (all_results ls)) < end_count (config s0) →
  page ls + 2 ≤ max_pages →
  (Z.to_nat (max_pages + 1 - page ls) ≤ fuel)%nat →
  search E q (page ls) 3 s0 = (Ok None, s1) →
  pool_exhausted s1 = (Ok false, s1') →
  search E q (page ls + 1) 3 s1' = (Ok None, s2) →
  pool_exhausted s2 = (Ok false, s2') →
  search E q (page ls + 2) 3 s2' = (Ok None, s3) →
  pool_exhausted s3 = (Ok b, s3') →
  search_all_loop E q max_pages 3 fuel ls s0 = Some (Ok (all_results ls), s3')
  ∧ Z.of_nat (length (all_results ls)) < end_count (config s3').
Proof.
  intros Hcf Hlt Hpage Hfuel A1 B1 A2 B2 A3 B3.
  destruct fuel as [|[|[|fuel]]]; [lia..|].
  destruct (search_all_loop_failure q max_pages (S (S fuel)) ls s0 s1 s1')
    as [-> Hec1]; [done|lia|lia|done|done|].
  set (ls1 := mkLoopState (all_results ls) (page ls + 1) (consecutive_failures ls + 1)).
  destruct (search_all_loop_failure q max_pages (S fuel) ls1 s1' s2 s2')
    as [-> Hec2]; [simpl; lia|simpl; lia|simpl; lia|done|done|].
  set (ls2 := mkLoopState (all_results ls1) (page ls1 + 1)
                (consecutive_failures ls1 + 1)).
  assert (Hp2 : page ls2 = page ls + 2) by (simpl; lia).
  rewrite (search_all_loop_last_failure q max_pages fuel ls2 s2' s3 b s3').
  - split; [done|].
    rewrite (pool_exhausted_end_count _ _ _ B3).
    rewrite (search_end_count _ _ _ _ _ _ A3). lia.
  - simpl; lia.
  - simpl; lia.
  - simpl; lia.
  - by rewrite Hp2.
  - done.
Qed.

(** A page with data below the target, with more to come: the loop goes on
    with the next page. *)
Lemma search_all_loop_data q max_pages mcf fuel ls s r s1 :
  Z.of_nat (length (all_results ls)) < end_count (config s) →
  page ls ≤ max_pages →
  search E q (page ls) 3 s = (Ok (Some r), s1) →
  Z.of_nat (length (all_results ls ++ map of_asset (response_assets r)))
    < end_count (config s) →
  reported_total_reached r
    (Z.of_nat (length (all_results ls ++ map of_asset (response_assets r))))
  = Ok false →
  search_all_loop E q max_pages mcf (S fuel) ls s
  = search_all_loop E q max_pages mcf fuel
      (mkLoopState (all_results ls ++ map of_asset (response_assets r))
                   (page ls + 1) 0) s1.
Proof.
  intros Hlt Hpage H1 Hacc Htotal.
  rewrite search_all_loop_S.
  rewrite (proj2 (Z.ltb_lt _ _) Hlt), (proj2 (Z.leb_le _ _) Hpage). simpl andb.
  cbv iota.
  unfold search_all_body, bind, get. rewrite H1.
  rewrite (search_end_count _ _ _ _ _ _ H1).
  destruct (Z.leb_spec (end_count (config s))
              (Z.of_nat (length (all_results ls ++ map of_asset (response_assets r)))));
    [lia|].
  unfold of_res. by rewrite Htotal.
Qed.

(** The page that reaches the target: the loop ends with the first
    [end_count] results. *)
Lemma search_all_loop_target q max_pages mcf fuel ls s r s1 :
  Z.of_nat (length (all_results ls)) < end_count (config s) →
  page ls ≤ max_pages →
  search E q (page ls) 3 s = (Ok (Some r), s1) →
  end_count (config s)
    ≤ Z.of_nat (length (all_results ls ++ map of_asset (response_assets r))) →
  search_all_loop E q max_pages mcf (S fuel) ls s
  = Some (Ok (take (Z.to_nat (end_count (config s)))
                (all_results ls ++ map of_asset (response_assets r))), s1).
Proof.
  intros Hlt Hpage H1 Hacc.
  rewrite search_all_loop_S.
  rewrite (proj2 (Z.ltb_lt _ _) Hlt), (proj2 (Z.leb_le _ _) Hpage). simpl andb.
  cbv iota.
  unfold search_all_body, bind, get. rewrite H1.
  rewrite (search_end_count _ _ _ _ _ _ H1).
  rewrite (proj2 (Z.leb_le _ _) Hacc). simpl. unfold py_take.
  destruct (Z.leb_spec 0 (end_count (config s))); [done|lia].
Qed.

End SearchAll.

(** C5, as the code has it. With the default threshold 3: when the counter
    of consecutive failures is 0 and the per-page calls for the next three
    pages return no data (the pool not being exhausted at the first two),
    the loop of [search_all], with the fuel that [search_all] leaves it at
    that page, stops after the third of them, below the target, and returns
    what it had accumulated before them; when they are pages 1, 2 and 3
    that is the empty list. And a page that returns data sets the counter
    to 0: the turn of the loop ends with the counter at 0, unless the
    comparison of the reported total (lines 370-373) raises, which ends
    [search_all] altogether and cannot happen when the total is a number or
    falsy. *)
Theorem three_failures_stop (E : Env) :
  (∀ q max_pages fuel ls s0 s1 s1' s2 s2' s3 s3' b,
     consecutive_failures ls = 0 →
     Z.of_nat (length (all_results ls)) < end_count (config s0) →
     page ls + 2 ≤ max_pages →
     (Z.to_nat (max_pages + 1 - page ls) ≤ fuel)%nat →
     search E q (page ls) 3 s0 = (Ok None, s1) →
     pool_exhausted s1 = (Ok false, s1') →
     search E q (page ls + 1) 3 s1' = (Ok None, s2) →
     pool_exhausted s2 = (Ok false, s2') →
     search E q (page ls + 2) 3 s2' = (Ok None, s3) →
     pool_exhausted s3 = (Ok b, s3') →
     search_all_loop E q max_pages 3 fuel ls s0 = Some (Ok (all_results ls), s3')
     ∧ Z.of_nat (length (all_results ls)) < end_count (config s3'))
  ∧ (∀ q max_pages s0 s1 s1' s2 s2' s3 s3' b,
       0 < end_count (config s0) →
       3 ≤ max_pages →
       search E q 1 3 s0 = (Ok None, s1) →
       pool_exhausted s1 = (Ok false, s1') →
       search E q 2 3 s1' = (Ok None, s2) →
       pool_exhausted s2 = (Ok false, s2') →
       search E q 3 3 s2' = (Ok None, s3) →
       pool_exhausted s3 = (Ok b, s3') →
       search_all E q max_pages 3 s0 = Some (Ok [], s3')
       ∧ 0 < end_count (config s3'))
  ∧ (∀ q mcf ls s r s1,
       search E q (page ls) 3 s = (Ok (Some r), s1) →
       ∃ out, search_all_body E q mcf ls s = (out, s1)
              ∧ match out with
                | Ok (c, ls') => consecutive_failures ls' = 0
                | Raise e =>
                    reported_total_reached r
                      (Z.of_nat (length (all_results ls
                                         ++ map of_asset (response_assets r))))
                    = Raise e
                end
              ∧ (ordered_total r → ∃ c ls', out = Ok (c, ls'))).
Proof.
  split; [|split].
  - intros. by eapply three_failures_loop.
  - intros q max_pages s0 s1 s1' s2 s2' s3 s3' b Hec Hmp A1 B1 A2 B2 A3 B3.
    unfold search_all.
    apply (three_failures_loop E q max_pages (Z.to_nat max_pages)
             (mkLoopState [] 1 0) s0 s1 s1' s2 s2' s3 s3' b); simpl; try done; lia.
  - intros. by eapply search_all_body_success.
Qed.

(** C6, as the code has it. With target 20: if page 1 returns 15 results
    and the test of its reported total (lines 370-373) does not end the loop
    there, as when it reports no total or a number above 15, and page 2 then
    returns 10, [search_all] returns the first 20 of the 25, exactly 20
    results. And [search_all] always comes to an end, with no more than
    [end_count] results when it returns (none when the target is
    negative). *)
Theorem search_all_truncates (E : Env) :
  (∀ q max_pages mcf s0 r1 s1 r2 s2,
     end_count (config s0) = 20 →
     2 ≤ max_pages →
     search E q 1 3 s0 = (Ok (Some r1), s1) →
     length (response_assets r1) = 15%nat →
     reported_total_reached r1 15 = Ok false →
     search E q 2 3 s1 = (Ok (Some r2), s2) →
     length (response_assets r2) = 10%nat →
     search_all E q max_pages mcf s0
     = Some (Ok (take 20 (map of_asset (response_assets r1)
                          ++ map of_asset (response_assets r2))), s2)
     ∧ length (take 20 (map of_asset (response_assets r1)
                        ++ map of_asset (response_assets r2))) = 20%nat)
  ∧ (∀ q max_pages mcf s,
       ∃ out, search_all E q max_pages mcf s = Some out
              ∧ ∀ res, fst out = Ok res →
                  Z.of_nat (length res) ≤ Z.max 0 (end_count (config s))
                  ∧ (0 ≤ end_count (config s) →
                     Z.of_nat (length res) ≤ end_count (config s))).
Proof.
  split.
  - intros q max_pages mcf s0 r1 s1 r2 s2 Hec Hmp A1 L1 T1 A2 L2.
    split; [|rewrite length_take, length_app, !length_map; lia].
    unfold search_all.
    destruct (Z.to_nat max_pages) as [|[|fuel]] eqn:Hfuel; [lia..|].
    pose proof (search_end_count _ _ _ _ _ _ _ A1) as Hec1.
    rewrite (search_all_loop_data E q max_pages mcf (S fuel)
               (mkLoopState [] 1 0) s0 r1 s1).
    + change (page (mkLoopState [] 1 0) + 1) with 2.
      change (all_results (mkLoopState [] 1 0) ++ map of_asset (response_assets r1))
        with (map of_asset (response_assets r1)).
      rewrite (search_all_loop_target E q max_pages mcf fuel
                 (mkLoopState (map of_asset (response_assets r1)) 2 0) s1 r2 s2).
      * by rewrite Hec1, Hec.
      * simpl. rewrite length_map, L1, Hec1, Hec. lia.
      * simpl. lia.
      * exact A2.
      * simpl. rewrite length_app, !length_map, L1, L2, Hec1, Hec. lia.
    + simpl. lia.
    + simpl. lia.
    + exact A1.
    + simpl. rewrite length_map, L1, Hec. lia.
    + simpl. by rewrite length_map, L1.
  - intros q max_pages mcf s.
    destruct (search_all_loop_total E q max_pages mcf (Z.to_nat max_pages)
                (mkLoopState [] 1 0) s) as [[r s'] Hout]; [simpl; lia|].
    exists (r, s'). split; [exact Hout|].
    intros res Hres. simpl in Hres. subst r.
    assert (Hb : Z.of_nat (length res) ≤ Z.max 0 (end_count (config s))).
    { apply (search_all_loop_bound E q max_pages mcf (Z.to_nat max_pages)
               (mkLoopState [] 1 0) s res s'); [simpl; lia|exact Hout]. }
    split; [exact Hb|lia].
Qed.

(** *** The claims at concrete sessions *)

Lemma api_stage_outcomes_witness :
  (∃ s', search env_data "port=80" 1 3 session2 = (Ok (Some (api_page 2 50 1)), s')
         ∧ web_requests s' = web_requests session2
         ∧ success s' = success session2 + 1
         ∧ mode s' = mode session2)
  ∧ (∃ s2, stage1 env_empty "port=80" 1 (set_logs [] session2) = (Ok Next, s2)
           ∧ search env_empty "port=80" 1 3 session2
             = after_stage1 env_empty "port=80" 1 3 s2
           ∧ mode (snd (search env_empty "port=80" 1 3 session2)) = WEB
           ∧ LogStage2 ∈ logs (snd (search env_empty "port=80" 1 3 session2))).
Proof.
  split.
  - destruct (api_stage_outcomes env_data "port=80" 1 3 session2
                (snd (api_attempt env_data "port=80" 1 (set_logs [LogStage1] session2)))
                (api_page 2 50 1)) as [H _].
    + right. reflexivity.
    + vm_compute. reflexivity.
    + vm_compute. reflexivity.
    + destruct H as (H1 & H2 & H3 & _ & H5); [discriminate|].
      eexists. split; [exact H1|]. split; [exact H2|]. split; [exact H3|exact H5].
  - destruct (api_stage_outcomes env_empty "port=80" 1 3 session2
                (snd (api_attempt env_empty "port=80" 1 (set_logs [LogStage1] session2)))
                (api_page 0 0 1)) as [_ H].
    + right. reflexivity.
    + vm_compute. reflexivity.
    + vm_compute. reflexivity.
    + destruct H as (s2 & H1 & H2 & _ & _ & H5 & _); [reflexivity|].
      destruct H5 as [H5 H6]; [reflexivity|].
      exists s2. split; [exact H1|]. split; [exact H2|]. split; [exact H5|exact H6].
Defined.

(** C1 as stated fails in [API] mode: after a response that is no ban and
    has no assets, the call does not enter the second stage; here it ends
    without any anonymous request, still in [API] mode. *)
Lemma api_mode_skips_web_stage :
  let s := set_mode API session0 in
  let out := search env_empty "port=80" 1 3 s in
  fst (api_attempt env_empty "port=80" 1 (set_logs [LogStage1] s))
    = Ok (Some (api_page 0 0 1))
  ∧ _is_ban_response env_empty (api_page 0 0 1) = false
  ∧ response_assets (api_page 0 0 1) = []
  ∧ fst out = Ok None
  ∧ (LogStage2 ∉ logs (snd out))
  ∧ web_requests (snd out) = 0%nat
  ∧ mode (snd out) = API.
Proof.
  repeat split; try (vm_compute; reflexivity).
  intros H. vm_compute in H.
  repeat (apply elem_of_cons in H as [H | H]; [discriminate|]).
  by apply elem_of_nil in H.
Qed.



Lemma three_failures_stop_witness :
  search_all_loop env_empty "port=80" 10 3 10 (mkLoopState [] 1 0) session0
    = Some (Ok [], fail3')
  ∧ search_all env_empty "port=80" 10 3 session0 = Some (Ok [], fail3')
  ∧ ∃ c ls', search_all_body env_data "port=80" 3 (mkLoopState [] 1 2) session0
             = (Ok (c, ls'), after_search env_data "port=80" 1 session0)
             ∧ consecutive_failures ls' = 0.
Proof.
  destruct (three_failures_stop env_empty) as (H1 & H2 & _).
  destruct (three_failures_stop env_data) as (_ & _ & H3).
  split; [|split].
  - apply (H1 "port=80" 10 10%nat (mkLoopState [] 1 0)
             session0 fail1 fail1' fail2 fail2' fail3 fail3' false).
    + reflexivity.
    + simpl. lia.
    + simpl. lia.
    + simpl. lia.
    + vm_compute. reflexivity.
    + vm_compute. reflexivity.
    + vm_compute. reflexivity.
    + vm_compute. reflexivity.
    + vm_compute. reflexivity.
    + vm_compute. reflexivity.
  - apply (H2 "port=80" 10 session0 fail1 fail1' fail2 fail2' fail3 fail3' false).
    + simpl. lia.
    + lia.
    + vm_compute. reflexivity.
    + vm_compute. reflexivity.
    + vm_compute. reflexivity.
    + vm_compute. reflexivity.
    + vm_compute. reflexivity.
    + vm_compute. reflexivity.
  - destruct (H3 "port=80" 3 (mkLoopState [] 1 2) session0 (api_page 2 50 1)
                (after_search env_data "port=80" 1 session0))
      as ([[c ls']|e] & Heq & Hout & _).
    + vm_compute. reflexivity.
    + by exists c, ls'.
    + vm_compute in Hout. discriminate.
Defined.

(** C5 as stated fails when data came before the three failures: page 1
    returns one result, pages 2, 3 and 4 return none, and [search_all]
    returns that one result, not the empty list. *)
Lemma three_failures_keep_earlier_results :
  ∃ r s1 s2 s2' s3 s3' s4 s4',
    search env_first_page_only "port=80" 1 3 session0 = (Ok (Some r), s1)
    ∧ search env_first_page_only "port=80" 2 3 s1 = (Ok None, s2)
    ∧ pool_exhausted s2 = (Ok false, s2')
    ∧ search env_first_page_only "port=80" 3 3 s2' = (Ok None, s3)
    ∧ pool_exhausted s3 = (Ok false, s3')
    ∧ search env_first_page_only "port=80" 4 3 s3' = (Ok None, s4)
    ∧ pool_exhausted s4 = (Ok false, s4')
    ∧ search_all env_first_page_only "port=80" 10 3 session0
      = Some (Ok [item 1], s4')
    ∧ [item 1] ≠ [].
Proof.
  do 8 eexists.
  split; [vm_compute; reflexivity|].
  split; [vm_compute; reflexivity|].
  split; [vm_compute; reflexivity|].
  split; [vm_compute; reflexivity|].
  split; [vm_compute; reflexivity|].
  split; [vm_compute; reflexivity|].
  split; [vm_compute; reflexivity|].
  split; [vm_compute; reflexivity|discriminate].
Qed.

Lemma search_all_truncates_witness :
  search_all env_15_then_10 "port=80" 10 3 session20
  = Some (Ok (take 20 (map (of_asset) (items 15) ++ map of_asset (items 10))),
          after_search env_15_then_10 "port=80" 2
            (after_search env_15_then_10 "port=80" 1 session20))
  ∧ length (take 20 (map of_asset (items 15) ++ map of_asset (items 10))) = 20%nat.
Proof.
  apply (proj1 (search_all_truncates env_15_then_10) "port=80" 10 3 session20
           (api_page 15 1000 1) (after_search env_15_then_10 "port=80" 1 session20)
           (api_page 10 1000 2)
           (after_search env_15_then_10 "port=80" 2
              (after_search env_15_then_10 "port=80" 1 session20))).
  - reflexivity.
  - lia.
  - vm_compute. reflexivity.
  - reflexivity.
  - reflexivity.
  - vm_compute. reflexivity.
  - reflexivity.
Defined.

(** C6 as stated fails when page 1 reports a total that its own results
    reach. Here the signed client is banned and the pages of the anonymous
    client report no total, so that the second stage sets the total to the
    number of results of the page: page 1 returns 15 results, page 2 would
    return 10, and [search_all] stops after page 1 with 15 results. Besides,
    with a negative target [search_all] returns the empty list, which is
    longer than the target. *)
Lemma search_all_stops_at_reported_total :
  (∃ r1 s1 r2 s2 res,
     end_count (config session20) = 20
     ∧ search env_web_15_then_10 "port=80" 1 3 session20 = (Ok (Some r1), s1)
     ∧ length (response_assets r1) = 15%nat
     ∧ search env_web_15_then_10 "port=80" 2 3 s1 = (Ok (Some r2), s2)
     ∧ length (response_assets r2) = 10%nat
     ∧ search_all env_web_15_then_10 "port=80" 10 3 session20 = Some (Ok res, s1)
     ∧ length res = 15%nat)
  ∧ (∃ res s',
       search_all env_data "port=80" 10 3 (new_client (mkSearchConfig (-1) None) [])
       = Some (Ok res, s')
       ∧ ¬ Z.of_nat (length res) ≤ -1).
Proof.
  split.
  - do 5 eexists.
    split; [reflexivity|].
    split; [vm_compute; reflexivity|].
    split; [reflexivity|].
    split; [vm_compute; reflexivity|].
    split; [reflexivity|].
    split; [vm_compute; reflexivity|reflexivity].
  - do 2 eexists. split; [vm_compute; reflexivity|]. simpl. lia.
Qed.

End EngineFacts.

(** ** Further properties of the proxy pool *)

Module ProxyToolsFacts.
Import Proxy ProxyExamples ProxyFacts ProxyTools.

(** A loop that runs to its end has rejected the proxies at the [n] places
    from the cursor on. *)
Lemma cycle_none accept n pm pm' :
  (idx pm < length (proxies pm))%nat →
  cycle accept n pm = (Ok None, pm') →
  ∀ k, (k < n)%nat →
    ∃ p, proxies pm !! ((idx pm + k) mod length (proxies pm))%nat = Some p
         ∧ accept p = false.
Proof.
  revert pm. induction n as [|n IH]; intros pm Hlt Hc k Hk; [lia|].
  simpl in Hc.
  destruct (lookup_lt_is_Some_2 (proxies pm) (idx pm) Hlt) as [p Hp].
  rewrite Hp in Hc. destruct (accept p) eqn:Hacc; [discriminate|].
  destruct k as [|k].
  - exists p. by rewrite Nat.add_0_r, Nat.mod_small.
  - assert (Hlt' : ((idx pm + 1) mod length (proxies pm) < length (proxies pm))%nat)
      by (apply Nat.mod_upper_bound; lia).
    destruct (IH (set_idx ((idx pm + 1) mod length (proxies pm))%nat pm) Hlt' Hc k
                ltac:(lia)) as (q & Hq & Hrej).
    exists q. split; [|done]. simpl in Hq.
    rewrite Nat.Div0.add_mod_idemp_l in Hq.
    by replace (idx pm + S k)%nat with (idx pm + 1 + k)%nat by lia.
Qed.

(** A full turn finds a proxy whenever the sequence holds one that the test
    accepts. *)
Lemma cycle_finds accept pm q :
  (idx pm < length (proxies pm))%nat →
  q ∈ proxies pm → accept q = true →
  ∃ p i, cycle accept (length (proxies pm)) pm = (Ok (Some p), set_idx i pm)
         ∧ (i < length (proxies pm))%nat ∧ p ∈ proxies pm ∧ accept p = true.
Proof.
  intros Hlt Hq Hacc.
  destruct (cycle_in_range accept (length (proxies pm)) pm Hlt)
    as (r & i & Heq & Hi & Hr).
  destruct r as [p|].
  - exists p, i. destruct (Hr p eq_refl). by repeat split.
  - exfalso. apply list_elem_of_lookup in Hq as [j Hj].
    pose proof (lookup_lt_Some _ _ _ Hj) as Hjlt.
    set (n := length (proxies pm)) in *.
    set (k := if decide (idx pm ≤ j)%nat then (j - idx pm)%nat
              else (n + j - idx pm)%nat).
    assert (Hk : (k < n)%nat) by (unfold k; destruct (decide _); lia).
    assert (Hm : ((idx pm + k) mod n)%nat = j).
    { unfold k. destruct (decide _).
      - replace (idx pm + (j - idx pm))%nat with j by lia. by apply Nat.mod_small.
      - replace (idx pm + (n + j - idx pm))%nat with (j + 1 * n)%nat by lia.
        rewrite Nat.Div0.mod_add. by apply Nat.mod_small. }
    destruct (cycle_none accept n pm _ Hlt Heq k Hk) as (p & Hp & Hrej).
    fold n in Hp. rewrite Hm in Hp. congruence.
Qed.

Lemma all_failed_false pm :
  all_failed pm = false → ∃ q, q ∈ proxies pm ∧ fail_count pm q < 3.
Proof.
  unfold all_failed. intros H.
  induction (proxies pm) as [|p l IH]; simpl in H; [discriminate|].
  apply andb_false_iff in H as [H|H].
  - exists p. split; [left|]. apply Z.leb_gt in H. lia.
  - destruct (IH H) as (q & Hq & Hlt). exists q. split; [by right|done].
Qed.

Lemma get_proxy_nonempty pm :
  proxies pm ≠ [] →
  get_proxy pm
  = cycle (usable (if all_failed pm then set_failed ∅ pm else pm))
      (length (proxies (if all_failed pm then set_failed ∅ pm else pm)))
      (if all_failed pm then set_failed ∅ pm else pm).
Proof. unfold get_proxy. by destruct (proxies pm). Qed.

(** What [get_proxy] does on a sequence that is not empty and holds the
    cursor. *)
Lemma get_proxy_some pm :
  proxies pm ≠ [] → (idx pm < length (proxies pm))%nat →
  ∃ p i,
    get_proxy pm
    = (Ok (Some p),
       set_idx i (if all_failed pm then set_failed ∅ pm else pm))
    ∧ (i < length (proxies pm))%nat
    ∧ p ∈ proxies pm
    ∧ fail_count (if all_failed pm then set_failed ∅ pm else pm) p < 3.
Proof.
  intros Hne Hlt. rewrite get_proxy_nonempty by done.
  set (pm1 := if all_failed pm then set_failed ∅ pm else pm).
  assert (Hp1 : proxies pm1 = proxies pm) by (unfold pm1; by destruct (all_failed pm)).
  assert (Hi1 : idx pm1 = idx pm) by (unfold pm1; by destruct (all_failed pm)).
  assert (Hq : ∃ q, q ∈ proxies pm1 ∧ usable pm1 q = true).
  { unfold pm1. destruct (all_failed pm) eqn:Ha.
    - destruct (proxies pm) as [|p0 l] eqn:Hl; [done|].
      exists p0. split; [simpl; rewrite Hl; left|].
      unfold usable. by rewrite fail_count_cleared.
    - destruct (all_failed_false pm Ha) as (q & Hq & Hc).
      exists q. split; [done|]. by apply Z.ltb_lt. }
  destruct Hq as (q & Hq & Hacc).
  destruct (cycle_finds (usable pm1) pm1 q) as (p & i & Heq & Hi & Hp & Hu);
    [by rewrite Hi1, Hp1 | done | done |].
  exists p, i. rewrite Heq. rewrite Hp1 in Hi, Hp.
  split; [done|]. split; [done|]. split; [done|]. by apply Z.ltb_lt.
Qed.

(** X1. On a sequence that is not empty and holds the cursor, [get_proxy]
    always returns a proxy: a member of the sequence whose failure count is
    below 3 when the call ends. The sequence is left as it is, the cursor
    stays inside it, and the failure counts are either all cleared (when
    every proxy had reached 3) or untouched. *)
Theorem get_proxy_returns_usable (pm : ProxyManager) :
  proxies pm ≠ [] → (idx pm < length (proxies pm))%nat →
  ∃ p pm',
    get_proxy pm = (Ok (Some p), pm')
    ∧ p ∈ proxies pm
    ∧ fail_count pm' p < 3
    ∧ proxies pm' = proxies pm
    ∧ (idx pm' < length (proxies pm'))%nat
    ∧ failed pm' = (if all_failed pm then ∅ else failed pm).
Proof.
  intros Hne Hlt.
  destruct (get_proxy_some pm Hne Hlt) as (p & i & Heq & Hi & Hp & Hc).
  eexists p, _. split; [exact Heq|].
  destruct (all_failed pm); simpl; by repeat split.
Qed.

Lemma get_proxy_returns_usable_witness :
  ∃ p pm',
    get_proxy pool2_first_usable = (Ok (Some p), pm')
    ∧ p ∈ proxies pool2_first_usable
    ∧ fail_count pm' p < 3
    ∧ proxies pm' = proxies pool2_first_usable
    ∧ (idx pm' < length (proxies pm'))%nat
    ∧ failed pm' = (if all_failed pool2_first_usable then ∅
                    else failed pool2_first_usable).
Proof.
  apply (get_proxy_returns_usable pool2_first_usable).
  - discriminate.
  - simpl. lia.
Defined.

Lemma fail_count_mark_failed p q pm :
  truthy (Some p) = true →
  fail_count (mark_failed (Some p) pm) q
  = if decide (q = p) then fail_count pm p + 1 else fail_count pm q.
Proof.
  intros Ht. unfold mark_failed. rewrite Ht. unfold fail_count; simpl.
  destruct (decide (q = p)) as [->|Hne].
  - by rewrite lookup_insert_eq.
  - by rewrite lookup_insert_ne.
Qed.

Lemma mark_failed_proxies p pm :
  proxies (mark_failed p pm) = proxies pm ∧ idx (mark_failed p pm) = idx pm.
Proof.
  unfold mark_failed. destruct p as [p|]; [|done]. by destruct (truthy (Some p)).
Qed.

(** X2. A proxy whose failure count has reached 3 is skipped by [get_proxy]
    as long as the sequence holds a usable proxy; in particular after three
    calls of [mark_failed] on it with no [mark_success] in between. *)
Theorem failed_proxy_is_skipped (pm : ProxyManager) (p q : string) :
  (idx pm < length (proxies pm))%nat →
  p ≠ "" → 0 ≤ fail_count pm p →
  q ∈ proxies pm → q ≠ p → fail_count pm q < 3 →
  let pm3 := mark_failed (Some p) (mark_failed (Some p) (mark_failed (Some p) pm)) in
  ∃ r pm',
    get_proxy pm3 = (Ok (Some r), pm')
    ∧ r ≠ p ∧ r ∈ proxies pm ∧ fail_count pm r < 3
    ∧ failed pm' = failed pm3.
Proof.
  intros Hlt Hp Hc Hq Hqp Hqc pm3.
  assert (Ht : truthy (Some p) = true).
  { simpl. apply negb_true_iff, String.eqb_neq. done. }
  assert (Hcount : ∀ x, fail_count pm3 x
                        = if decide (x = p) then fail_count pm p + 3
                          else fail_count pm x).
  { intros x. unfold pm3. rewrite !fail_count_mark_failed by done.
    destruct (decide (x = p)).
    - rewrite !decide_True by done. lia.
    - done. }
  assert (Hpr : proxies pm3 = proxies pm ∧ idx pm3 = idx pm).
  { unfold pm3. split.
    - by rewrite !(proj1 (mark_failed_proxies _ _)).
    - by rewrite !(proj2 (mark_failed_proxies _ _)). }
  destruct Hpr as [Hpr Hix].
  assert (Hnf : all_failed pm3 = false).
  { apply not_true_is_false. intros Ha.
    pose proof (proj1 (all_failed_true pm3) Ha q) as H.
    rewrite Hpr in H. specialize (H Hq).
    rewrite Hcount, decide_False in H by done. lia. }
  destruct (get_proxy_some pm3) as (r & i & Heq & Hi & Hr & Hrc).
  { rewrite Hpr. intros Hnil. rewrite Hnil in Hq. by apply elem_of_nil in Hq. }
  { by rewrite Hpr, Hix. }
  rewrite Hnf in Heq, Hrc. rewrite Hpr in Hr.
  exists r, (set_idx i pm3). split; [exact Heq|].
  rewrite Hcount in Hrc. destruct (decide (r = p)) as [->|Hne].
  - lia.
  - by repeat split.
Qed.

Lemma failed_proxy_is_skipped_witness :
  ∃ r pm',
    get_proxy (mark_failed (Some "http://a:1")
                 (mark_failed (Some "http://a:1")
                    (mark_failed (Some "http://a:1") manual_pool)))
    = (Ok (Some r), pm')
    ∧ r ≠ "http://a:1" ∧ r ∈ proxies manual_pool ∧ fail_count manual_pool r < 3
    ∧ failed pm'
      = failed (mark_failed (Some "http://a:1")
                  (mark_failed (Some "http://a:1")
                     (mark_failed (Some "http://a:1") manual_pool))).
Proof.
  apply (failed_proxy_is_skipped manual_pool "http://a:1" "http://b:2").
  - vm_compute. lia.
  - discriminate.
  - vm_compute. discriminate.
  - apply (bool_decide_unpack _). vm_compute. exact I.
  - discriminate.
  - vm_compute. reflexivity.
Defined.


Lemma cycle_failed accept n pm :
  failed (snd (cycle accept n pm)) = failed pm
  ∧ proxies (snd (cycle accept n pm)) = proxies pm.
Proof.
  revert pm. induction n as [|n IH]; intros pm; simpl; [done|].
  destruct (proxies pm !! idx pm) as [p|]; [|done].
  destruct (accept p); [done|].
  destruct (IH (set_idx ((idx pm + 1) mod length (proxies pm))%nat pm)) as [-> ->].
  done.
Qed.

(** With the cursor behind the end of the sequence the loop raises at its
    first turn and leaves the pool as it is. *)
Lemma cycle_out_of_range accept n pm :
  (length (proxies pm) ≤ idx pm)%nat → n ≠ 0%nat →
  cycle accept n pm = (Raise IndexError, pm).
Proof.
  intros Hge Hn. destruct n as [|n]; [done|]. simpl.
  by rewrite lookup_ge_None_2.
Qed.

Lemma get_next_proxy_many cur pm p0 l :
  proxies pm = p0 :: l → l ≠ [] →
  get_next_proxy cur pm
  = match cycle (fun proxy => negb (bool_decide (Some proxy = cur))
                              && (fail_count pm proxy <? 3))
                (length (proxies pm)) pm with
    | (Ok None, pm') =>
        (Ok (if 3 <=? fail_count pm' p0 then None else Some p0), pm')
    | r => r
    end.
Proof.
  intros Hl Hne. unfold get_next_proxy. rewrite Hl. by destruct l.
Qed.

Lemma get_next_proxy_failed cur pm :
  failed (snd (get_next_proxy cur pm)) = failed pm
  ∧ proxies (snd (get_next_proxy cur pm)) = proxies pm.
Proof.
  destruct (proxies pm) as [|p0 [|p1 l]] eqn:Hl.
  - unfold get_next_proxy. by rewrite Hl.
  - unfold get_next_proxy. by rewrite Hl.
  - rewrite (get_next_proxy_many cur pm p0 (p1 :: l)) by done.
    pose proof (cycle_failed
                  (fun proxy => negb (bool_decide (Some proxy = cur))
                                && (fail_count pm proxy <? 3))
                  (length (proxies pm)) pm) as Hc.
    destruct (cycle _ _ pm) as [[[q|]|e] pm']; simpl in *; by rewrite <- Hl.
Qed.

Lemma get_next_proxy_usable cur pm pm' p :
  get_next_proxy cur pm = (Ok (Some p), pm') →
  p ∈ proxies pm ∧ fail_count pm p < 3.
Proof.
  intros Heq. split.
  - destruct (proxies pm) as [|p0 [|p1 l]] eqn:Hl.
    + unfold get_next_proxy in Heq. rewrite Hl in Heq. discriminate.
    + unfold get_next_proxy in Heq. rewrite Hl in Heq.
      destruct (fail_count pm p0 <? 3); [|discriminate].
      injection Heq as <- _. left.
    + rewrite (get_next_proxy_many cur pm p0 (p1 :: l)) in Heq by done.
      destruct (decide (idx pm < length (proxies pm))%nat) as [Hlt|Hge].
      * destruct (cycle_in_range
                    (fun proxy => negb (bool_decide (Some proxy = cur))
                                  && (fail_count pm proxy <? 3))
                    (length (proxies pm)) pm Hlt) as (r & i & Hc & _ & Hr).
        rewrite Hc in Heq. destruct r as [q|].
        -- injection Heq as <- _. destruct (Hr q eq_refl) as [Hq _].
           by rewrite <- Hl.
        -- destruct (3 <=? fail_count (set_idx i pm) p0); [discriminate|].
           injection Heq as <- _. left.
      * rewrite cycle_out_of_range in Heq; [discriminate|lia|].
        rewrite Hl. discriminate.
  - destruct (proxies pm) as [|p0 [|p1 l]] eqn:Hl.
    + unfold get_next_proxy in Heq. rewrite Hl in Heq. discriminate.
    + unfold get_next_proxy in Heq. rewrite Hl in Heq.
      destruct (fail_count pm p0 <? 3) eqn:Hc; [|discriminate].
      injection Heq as <- _. by apply Z.ltb_lt.
    + rewrite (get_next_proxy_many cur pm p0 (p1 :: l)) in Heq by done.
      destruct (decide (idx pm < length (proxies pm))%nat) as [Hlt|Hge].
      * destruct (cycle_in_range
                    (fun proxy => negb (bool_decide (Some proxy = cur))
                                  && (fail_count pm proxy <? 3))
                    (length (proxies pm)) pm Hlt) as (r & i & Hc & _ & Hr).
        rewrite Hc in Heq. destruct r as [q|].
        -- injection Heq as <- _. destruct (Hr q eq_refl) as [_ Hq].
           apply andb_true_iff in Hq as [_ Hq]. by apply Z.ltb_lt.
        -- destruct (3 <=? fail_count (set_idx i pm) p0) eqn:Hc0; [discriminate|].
           injection Heq as <- _. apply Z.leb_gt in Hc0.
           by rewrite fail_count_set_idx in Hc0.
      * rewrite cycle_out_of_range in Heq; [discriminate|lia|].
        rewrite Hl. discriminate.
Qed.

(** X3. Whatever [get_next_proxy] returns is a member of the sequence whose
    failure count is below 3; the call changes neither the failure counts nor
    the sequence. *)
Theorem get_next_proxy_returns_usable (cur : option string) (pm pm' : ProxyManager)
    (p : string) :
  get_next_proxy cur pm = (Ok (Some p), pm') →
  p ∈ proxies pm ∧ fail_count pm p < 3
  ∧ failed pm' = failed pm ∧ proxies pm' = proxies pm.
Proof.
  intros Heq.
  destruct (get_next_proxy_usable cur pm pm' p Heq) as [Hin Hc].
  destruct (get_next_proxy_failed cur pm) as [Hf Hp].
  rewrite Heq in Hf, Hp. simpl in Hf, Hp. by repeat split.
Qed.

Lemma get_next_proxy_returns_usable_witness :
  "http://a:1" ∈ proxies pool2_first_usable
  ∧ fail_count pool2_first_usable "http://a:1" < 3
  ∧ failed (set_idx 1 pool2_first_usable) = failed pool2_first_usable
  ∧ proxies (set_idx 1 pool2_first_usable) = proxies pool2_first_usable.
Proof.
  apply (get_next_proxy_returns_usable (Some "http://b:2") pool2_first_usable).
  vm_compute. reflexivity.
Defined.

(** X4. With at least two proxies and the cursor inside the sequence, if
    some proxy other than the current one has a failure count below 3, then
    [get_next_proxy] returns a usable proxy that is not the current one. *)
Theorem get_next_proxy_avoids_current (cur : option string) (pm : ProxyManager)
    (q : string) :
  (2 ≤ length (proxies pm))%nat → (idx pm < length (proxies pm))%nat →
  q ∈ proxies pm → Some q ≠ cur → fail_count pm q < 3 →
  ∃ p i,
    get_next_proxy cur pm = (Ok (Some p), set_idx i pm)
    ∧ Some p ≠ cur ∧ p ∈ proxies pm ∧ fail_count pm p < 3
    ∧ (i < length (proxies pm))%nat.
Proof.
  intros Hlen Hlt Hq Hqc Hqf.
  destruct (proxies pm) as [|p0 [|p1 l]] eqn:Hl; [simpl in Hlen; lia..|].
  rewrite (get_next_proxy_many cur pm p0 (p1 :: l)) by done.
  destruct (cycle_finds
              (fun proxy => negb (bool_decide (Some proxy = cur))
                            && (fail_count pm proxy <? 3)) pm q)
    as (p & i & Hc & Hi & Hp & Hacc).
  - by rewrite Hl.
  - by rewrite Hl.
  - apply andb_true_iff. split.
    + apply negb_true_iff, bool_decide_eq_false. done.
    + by apply Z.ltb_lt.
  - rewrite Hc. exists p, i. apply andb_true_iff in Hacc as [Hn Hf].
    apply negb_true_iff, bool_decide_eq_false in Hn. apply Z.ltb_lt in Hf.
    rewrite Hl in Hp, Hi. by repeat split.
Qed.

Lemma get_next_proxy_avoids_current_witness :
  ∃ p i,
    get_next_proxy (Some "http://b:2") pool2_first_usable
    = (Ok (Some p), set_idx i pool2_first_usable)
    ∧ Some p ≠ Some "http://b:2" ∧ p ∈ proxies pool2_first_usable
    ∧ fail_count pool2_first_usable p < 3
    ∧ (i < length (proxies pool2_first_usable))%nat.
Proof.
  apply (get_next_proxy_avoids_current (Some "http://b:2") pool2_first_usable
           "http://a:1").
  - simpl. lia.
  - simpl. lia.
  - apply (bool_decide_unpack _). vm_compute. exact I.
  - discriminate.
  - vm_compute. reflexivity.
Defined.


(** *** Failure counts *)

Lemma get_proxy_failed pm :
  failed (snd (get_proxy pm)) = failed pm ∨ failed (snd (get_proxy pm)) = ∅.
Proof.
  unfold get_proxy. destruct (proxies pm) as [|p0 l]; [by left|].
  match goal with |- context [cycle ?a ?n ?x] =>
    destruct (cycle_failed a n x) as [-> _] end.
  destruct (all_failed pm); [by right|by left].
Qed.

Lemma get_proxy_proxies pm : proxies (snd (get_proxy pm)) = proxies pm.
Proof.
  destruct (decide (proxies pm = [])) as [Hnil|Hne].
  - unfold get_proxy. by rewrite Hnil.
  - rewrite get_proxy_nonempty by done.
    match goal with |- context [cycle ?a ?k ?x] =>
      destruct (cycle_failed a k x) as [_ ->] end.
    by destruct (all_failed pm).
Qed.

Lemma refresh_body_frame E pm :
  failed (snd (refresh_body E pm)) = failed pm
  ∧ idx (snd (refresh_body E pm)) = idx pm
  ∧ allow_direct (snd (refresh_body E pm)) = allow_direct pm
  ∧ _refreshing (snd (refresh_body E pm)) = _refreshing pm.
Proof.
  unfold refresh_body. repeat case_match; by simpl.
Qed.

Lemma counts_nonneg_mark_failed p pm :
  counts_nonneg pm → counts_nonneg (mark_failed p pm).
Proof.
  intros Hn. unfold mark_failed. destruct p as [p|]; [|done].
  destruct (truthy (Some p)); [|done].
  intros q c. simpl. destruct (decide (q = p)) as [->|Hne].
  - rewrite lookup_insert_eq. intros [= <-]. unfold fail_count.
    destruct (failed pm !! p) as [c|] eqn:Hc; simpl; [|lia].
    specialize (Hn p c Hc). lia.
  - rewrite lookup_insert_ne by done. apply Hn.
Qed.

Lemma counts_nonneg_mark_success p pm :
  counts_nonneg pm → counts_nonneg (mark_success p pm).
Proof.
  intros Hn. unfold mark_success. destruct p as [p|]; [|done].
  destruct (truthy (Some p)); [|done].
  destruct (failed pm !! p) as [c0|] eqn:Hc; [|done].
  intros q c. simpl. destruct (decide (q = p)) as [->|Hne].
  - rewrite lookup_insert_eq. intros [= <-]. lia.
  - rewrite lookup_insert_ne by done. apply Hn.
Qed.

Lemma counts_nonneg_run_op o pm :
  counts_nonneg pm → counts_nonneg (snd (run_op o pm)).
Proof.
  intros Hn. destruct o as [p| |c|p|p|E n]; simpl.
  - unfold add_proxy. by destruct (_ && _).
  - destruct (get_proxy_failed pm) as [H|H]; unfold counts_nonneg; rewrite H.
    + exact Hn.
    + intros p c. by rewrite lookup_empty.
  - unfold counts_nonneg.
    by destruct (get_next_proxy_failed c pm) as [-> _].
  - by apply counts_nonneg_mark_failed.
  - by apply counts_nonneg_mark_success.
  - unfold counts_nonneg, _refresh_background. simpl.
    by destruct (refresh_body_frame E pm) as [-> _].
Qed.

(** X5. No failure count ever becomes negative: whatever operations are
    applied to a pool in which no count is negative (a new pool has none),
    and wherever they stop, [failed.get(p, 0)] is at least 0 for every
    proxy. *)
Theorem counts_never_negative (os : list pool_op) (pm : ProxyManager) :
  counts_nonneg pm →
  counts_nonneg (snd (run_ops os pm))
  ∧ ∀ p, 0 ≤ fail_count (snd (run_ops os pm)) p.
Proof.
  intros Hn.
  assert (H : counts_nonneg (snd (run_ops os pm))).
  { revert pm Hn. induction os as [|o os IH]; intros pm Hn; simpl; [done|].
    pose proof (counts_nonneg_run_op o pm Hn) as Ho.
    destruct (run_op o pm) as [[r|e] pm1]; simpl in *; [by apply IH|done]. }
  split; [done|]. intros p. unfold fail_count.
  destruct (failed (snd (run_ops os pm)) !! p) as [c|] eqn:Hc; simpl; [|lia].
  by apply (H p c).
Qed.

Lemma counts_never_negative_witness :
  counts_nonneg (snd (run_ops swap_in_ops (init false)))
  ∧ ∀ p, 0 ≤ fail_count (snd (run_ops swap_in_ops (init false))) p.
Proof.
  apply (counts_never_negative swap_in_ops (init false)).
  intros p c. simpl. rewrite lookup_empty. discriminate.
Defined.

(** X6. [mark_success] lowers the failure count of its proxy by one, but
    not below 0, and touches no other count; a failure followed by a success
    of the same proxy leaves every failure count as it was. Neither call
    changes the sequence or the cursor. *)
Theorem mark_failed_then_success (p : string) (pm : ProxyManager) :
  p ≠ "" → 0 ≤ fail_count pm p →
  (∀ q, fail_count (mark_success (Some p) pm) q
        = if decide (q = p) then Z.max 0 (fail_count pm p - 1)
          else fail_count pm q)
  ∧ (∀ q, fail_count (mark_success (Some p) (mark_failed (Some p) pm)) q
          = fail_count pm q)
  ∧ proxies (mark_success (Some p) (mark_failed (Some p) pm)) = proxies pm
  ∧ idx (mark_success (Some p) (mark_failed (Some p) pm)) = idx pm.
Proof.
  intros Hp Hc.
  assert (Ht : truthy (Some p) = true).
  { simpl. apply negb_true_iff, String.eqb_neq. done. }
  split; [|split].
  - intros q. unfold mark_success. rewrite Ht. unfold fail_count in *.
    destruct (failed pm !! p) as [c|] eqn:Hl; simpl in *.
    + destruct (decide (q = p)) as [->|Hne].
      * by rewrite lookup_insert_eq.
      * by rewrite lookup_insert_ne.
    + destruct (decide (q = p)) as [->|Hne]; [by rewrite Hl|done].
  - intros q. unfold mark_success, mark_failed. rewrite Ht. simpl.
    rewrite lookup_insert_eq. unfold fail_count at 1. simpl.
    destruct (decide (q = p)) as [->|Hne].
    + rewrite lookup_insert_eq. simpl. lia.
    + by rewrite !lookup_insert_ne.
  - unfold mark_success, mark_failed. rewrite Ht. simpl.
    by rewrite lookup_insert_eq.
Qed.

Lemma mark_failed_then_success_witness :
  (∀ q, fail_count (mark_success (Some "http://a:1") pool2) q
        = if decide (q = "http://a:1")
          then Z.max 0 (fail_count pool2 "http://a:1" - 1)
          else fail_count pool2 q)
  ∧ (∀ q, fail_count (mark_success (Some "http://a:1")
                        (mark_failed (Some "http://a:1") pool2)) q
          = fail_count pool2 q)
  ∧ proxies (mark_success (Some "http://a:1")
               (mark_failed (Some "http://a:1") pool2)) = proxies pool2
  ∧ idx (mark_success (Some "http://a:1")
           (mark_failed (Some "http://a:1") pool2)) = idx pool2.
Proof.
  apply (mark_failed_then_success "http://a:1" pool2).
  - discriminate.
  - vm_compute. discriminate.
Defined.

(** *** The sequence has no duplicates *)

Lemma add_proxy_elem q p pm :
  p ∈ proxies (add_proxy q pm) ↔ p ∈ proxies pm ∨ (p = q ∧ q ≠ "").
Proof.
  unfold add_proxy. simpl.
  destruct (String.eqb q "") eqn:Hq; simpl.
  - apply String.eqb_eq in Hq. split; [by left|]. by intros [?|[_ ?]].
  - apply String.eqb_neq in Hq.
    destruct (bool_decide (q ∈ proxies pm)) eqn:Hin; simpl.
    + apply bool_decide_eq_true in Hin. split; [by left|]. by intros [?|[-> _]].
    + rewrite elem_of_app, list_elem_of_singleton.
      split; (intros [?|?]; [by left|right]); [by split|tauto].
Qed.

Lemma add_proxy_NoDup q pm : NoDup (proxies pm) → NoDup (proxies (add_proxy q pm)).
Proof.
  intros Hn. unfold add_proxy.
  destruct (truthy (Some q)); simpl; [|done].
  destruct (bool_decide (q ∈ proxies pm)) eqn:Hin; simpl; [done|].
  apply bool_decide_eq_false in Hin.
  apply NoDup_app. split; [done|]. split.
  - intros x Hx ->%list_elem_of_singleton. done.
  - apply NoDup_singleton.
Qed.

(** X7. [add_proxy] treats the sequence as a set in insertion order: it
    keeps it free of duplicates and of the empty string, adds exactly the
    given proxy when that is a new, non-empty string, only ever appends, and
    adding the same proxy a second time changes nothing. *)
Theorem add_proxy_set_like (q : string) (pm : ProxyManager) :
  NoDup (proxies pm) → "" ∉ proxies pm →
  NoDup (proxies (add_proxy q pm))
  ∧ ("" ∉ proxies (add_proxy q pm))
  ∧ (∀ p, p ∈ proxies (add_proxy q pm) ↔ p ∈ proxies pm ∨ (p = q ∧ q ≠ ""))
  ∧ (proxies pm `prefix_of` proxies (add_proxy q pm))
  ∧ add_proxy q (add_proxy q pm) = add_proxy q pm.
Proof.
  intros Hn He. split; [by apply add_proxy_NoDup|]. split; [|split; [|split]].
  - rewrite add_proxy_elem. intros [?|[-> ?]]; done.
  - intros p. apply add_proxy_elem.
  - unfold add_proxy. destruct (_ && _); simpl; [by eexists|done].
  - unfold add_proxy at 1.
    destruct (truthy (Some q)) eqn:Ht; simpl; [|unfold add_proxy; by rewrite Ht].
    rewrite bool_decide_eq_true_2; [done|].
    apply add_proxy_elem.
    destruct (decide (q ∈ proxies pm)); [by left|right].
    split; [done|]. simpl in Ht. apply negb_true_iff, String.eqb_neq in Ht. done.
Qed.

Lemma add_proxy_set_like_witness :
  NoDup (proxies (add_proxy "http://d:4" manual_pool))
  ∧ ("" ∉ proxies (add_proxy "http://d:4" manual_pool))
  ∧ (∀ p, p ∈ proxies (add_proxy "http://d:4" manual_pool)
          ↔ p ∈ proxies manual_pool ∨ (p = "http://d:4" ∧ "http://d:4" ≠ ""))
  ∧ (proxies manual_pool `prefix_of` proxies (add_proxy "http://d:4" manual_pool))
  ∧ add_proxy "http://d:4" (add_proxy "http://d:4" manual_pool)
    = add_proxy "http://d:4" manual_pool.
Proof.
  apply (add_proxy_set_like "http://d:4" manual_pool).
  - apply (bool_decide_unpack _). vm_compute. exact I.
  - apply (bool_decide_unpack _). vm_compute. exact I.
Defined.


Lemma foldl_add_proxy l pm :
  NoDup (proxies pm) → pool pm = proxies pm →
  NoDup (proxies (foldl (fun pm p => add_proxy p pm) pm l))
  ∧ (∀ p, p ∈ proxies (foldl (fun pm p => add_proxy p pm) pm l)
          ↔ p ∈ proxies pm ∨ (p ∈ l ∧ p ≠ ""))
  ∧ pool (foldl (fun pm p => add_proxy p pm) pm l)
    = proxies (foldl (fun pm p => add_proxy p pm) pm l)
  ∧ idx (foldl (fun pm p => add_proxy p pm) pm l) = idx pm
  ∧ failed (foldl (fun pm p => add_proxy p pm) pm l) = failed pm
  ∧ allow_direct (foldl (fun pm p => add_proxy p pm) pm l) = allow_direct pm
  ∧ is_ready (foldl (fun pm p => add_proxy p pm) pm l) = is_ready pm.
Proof.
  revert pm. induction l as [|q l IH]; intros pm Hn Hpool; simpl.
  - split; [done|]. split; [|done]. intros p. split; [by left|].
    intros [?|[H _]]; [done|]. by apply elem_of_nil in H.
  - destruct (IH (add_proxy q pm)) as (H1 & H2 & H3 & H4 & H5 & H6 & H7).
    + by apply add_proxy_NoDup.
    + unfold add_proxy. destruct (_ && _); simpl; [by rewrite Hpool|done].
    + split; [done|]. split; [|split; [done|]].
      * intros p. rewrite H2, add_proxy_elem, elem_of_cons.
        split.
        -- intros [[?|[-> ?]]|[? ?]]; [by left|right..]; split; auto.
        -- intros [?|[[->|?] ?]]; [by left; left|left; right|right]; by split.
      * rewrite H4, H5, H6, H7. unfold add_proxy. by destruct (_ && _).
Qed.

(** X8. The pool that [ManualProxyManager] builds from a list holds exactly
    the non-empty strings of the list, each once; the queue holds the same
    proxies; the cursor is well placed and no failure is recorded. The pool
    is ready exactly when the list is not empty, also when it holds nothing
    but empty strings. *)
Theorem manual_pool_contents (manual_proxies : list string) (direct : bool) :
  NoDup (proxies (manual_init (Some manual_proxies) direct))
  ∧ (∀ p, p ∈ proxies (manual_init (Some manual_proxies) direct)
          ↔ p ∈ manual_proxies ∧ p ≠ "")
  ∧ pool (manual_init (Some manual_proxies) direct)
    = proxies (manual_init (Some manual_proxies) direct)
  ∧ cursor_ok (manual_init (Some manual_proxies) direct)
  ∧ failed (manual_init (Some manual_proxies) direct) = ∅
  ∧ allow_direct (manual_init (Some manual_proxies) direct) = direct
  ∧ (is_ready (manual_init (Some manual_proxies) direct) = true
     ↔ manual_proxies ≠ []).
Proof.
  destruct manual_proxies as [|q l].
  - simpl. split; [apply NoDup_nil_2|]. split.
    + intros p. split; [by intros ?%elem_of_nil|by intros [?%elem_of_nil _]].
    + split; [done|]. split; [by right|]. by repeat split.
  - unfold manual_init.
    destruct (foldl_add_proxy (q :: l) (init direct))
      as (H1 & H2 & H3 & H4 & H5 & H6 & H7); [apply NoDup_nil_2|done|].
    set (pm := foldl (fun pm p => add_proxy p pm) (init direct) (q :: l)) in *.
    simpl proxies. simpl pool. simpl failed. simpl allow_direct. simpl is_ready.
    split; [done|]. split; [|split; [done|split; [|split; [done|split; [done|done]]]]].
    + intros p. rewrite H2. simpl. split; [|by right].
      by intros [?%elem_of_nil|?].
    + unfold cursor_ok. simpl. rewrite H4. simpl.
      destruct (proxies pm) as [|x xs]; [by right|left; simpl; lia].
Qed.

(** *** Collection cycles *)

Lemma refresh_body_adopts E pm p :
  p ∈ proxies (snd (refresh_body E pm)) →
  p ∈ proxies pm ∨ _validate_proxy E p = true.
Proof.
  unfold refresh_body. repeat case_match; simpl; auto.
  - intros [? _]%list_elem_of_filter. by right.
  - rewrite elem_of_app.
    intros [[? _]%list_elem_of_filter|[? _]%list_elem_of_filter]; by right.
  - by intros ?%elem_of_nil.
Qed.

(** X9. A collection cycle never adopts a candidate that has not passed the
    probe: every proxy of the sequence after the cycle was in it before or
    was validated. The cycle leaves the failure counts, the cursor and the
    direct-connection switch alone, so counts recorded for the old proxies
    stay, and the cursor may end up behind the end of a shorter sequence. *)
Theorem refresh_adopts_validated_only (E : CycleEnv) (n : Z) (pm : ProxyManager) :
  (∀ p, p ∈ proxies (_refresh_background E n pm) →
        p ∈ proxies pm ∨ _validate_proxy E p = true)
  ∧ failed (_refresh_background E n pm) = failed pm
  ∧ idx (_refresh_background E n pm) = idx pm
  ∧ allow_direct (_refresh_background E n pm) = allow_direct pm.
Proof.
  unfold _refresh_background. simpl.
  destruct (refresh_body_frame E pm) as (-> & -> & -> & _).
  split; [|done]. intros p. apply refresh_body_adopts.
Qed.

(** X10. A cycle that is cut short by the time limit of [as_completed]
    changes nothing but the refresh flag: the sequence, the queue and the
    readiness flag stay as they were, so callers that wait for readiness
    keep waiting. A cycle that runs to its end always sets readiness. In
    both cases the flag is cleared, and the next [auto_refresh] starts a new
    cycle. *)
Theorem refresh_timeout_or_ready (E : CycleEnv) (n m : Z) (pm : ProxyManager) :
  match fst (refresh_body E pm) with
  | Raise e =>
      e = TimeoutError
      ∧ _refresh_background E n pm = set_refreshing (Some false) pm
  | Ok _ => is_ready (_refresh_background E n pm) = true
  end
  ∧ _refreshing (_refresh_background E n pm) = Some false
  ∧ snd (auto_refresh m (_refresh_background E n (fst (auto_refresh n pm))))
    = Some m.
Proof.
  split; [|done].
  unfold _refresh_background, refresh_body.
  destruct (as_completed E 0 sources); [|done].
  destruct (concat _); [done|].
  destruct (as_completed E 1 _); [|done].
  destruct (5 <=? _)%nat; [done|].
  destruct (1 <=? _)%nat; [|done].
  by destruct (as_completed E 2 _).
Qed.

Lemma NoDup_take {A} (n : nat) (l : list A) : NoDup l → NoDup (take n l).
Proof. intros H. eapply sublist_NoDup; [exact H|apply sublist_take]. Qed.

Lemma refresh_body_NoDup E pm :
  orderly E → NoDup (proxies pm) → NoDup (proxies (snd (refresh_body E pm))).
Proof.
  intros [Hset Hdone] Hn. unfold refresh_body.
  destruct (as_completed E 0 sources) as [dn0|]; [|done].
  destruct (concat (map (fetch_source E) dn0)) as [|c0 cs] eqn:Hcs; [done|].
  set (collected := list_set E (c0 :: cs)).
  assert (Hcol : NoDup collected) by apply Hset.
  destruct (as_completed E 1 _) as [dn1|] eqn:H1; [|done].
  assert (Hd1 : NoDup dn1).
  { rewrite (Hdone _ _ _ H1). by apply NoDup_take. }
  set (valid := filter (fun p => _validate_proxy E p = true) dn1).
  assert (Hv : NoDup valid) by by apply NoDup_filter.
  destruct (5 <=? length valid)%nat; [done|].
  destruct (1 <=? length valid)%nat.
  - destruct (as_completed E 2 _) as [dn2|] eqn:H2; [|done].
    simpl. apply NoDup_app. split; [done|]. split.
    + intros x Hx [_ Hx2]%list_elem_of_filter.
      rewrite (Hdone _ _ _ H2) in Hx2.
      apply elem_of_take in Hx2 as (i & Hx2 & _).
      apply list_elem_of_lookup_2, list_elem_of_filter in Hx2 as [Hx2 _]. done.
    + apply NoDup_filter. rewrite (Hdone _ _ _ H2).
      apply NoDup_take. by apply NoDup_filter.
  - simpl. destruct (allow_direct pm); [apply NoDup_nil_2|done].
Qed.

Lemma run_op_NoDup o pm :
  (∀ E n, o = OpRefresh E n → orderly E) →
  NoDup (proxies pm) → NoDup (proxies (snd (run_op o pm))).
Proof.
  intros Ho Hn. destruct o as [p| |c|p|p|E n]; simpl.
  - by apply add_proxy_NoDup.
  - by rewrite get_proxy_proxies.
  - by destruct (get_next_proxy_failed c pm) as [_ ->].
  - by rewrite (proj1 (mark_failed_proxies p pm)).
  - unfold mark_success. destruct p as [p|]; [|done].
    destruct (truthy (Some p)); [|done]. by destruct (failed pm !! p).
  - unfold _refresh_background. simpl. apply refresh_body_NoDup; [|done].
    by apply (Ho E n).
Qed.

(** X11. The sequence of a pool never holds a proxy twice: this holds for a
    new pool and is kept by every operation, collection cycles included, as
    long as [list(set(...))] returns no duplicates and [as_completed] yields
    each submitted future once. *)
Theorem proxies_stay_distinct (os : list pool_op) (pm : ProxyManager) :
  (∀ E n, OpRefresh E n ∈ os → orderly E) →
  NoDup (proxies pm) →
  NoDup (proxies (snd (run_ops os pm))).
Proof.
  revert pm. induction os as [|o os IH]; intros pm Ho Hn; simpl; [done|].
  assert (H1 : NoDup (proxies (snd (run_op o pm)))).
  { apply run_op_NoDup; [|done]. intros E n ->. apply (Ho E n). left. }
  destruct (run_op o pm) as [[r|e] pm1]; simpl in *; [|done].
  apply IH; [|done]. intros E n Hin. apply (Ho E n). by right.
Qed.

Lemma cycle_env_orderly found ok : orderly (cycle_env found ok).
Proof.
  split.
  - intros l. apply NoDup_remove_dups.
  - intros ph keys finished [= <-]. done.
Defined.

Lemma proxies_stay_distinct_witness :
  NoDup (proxies (snd (run_ops swap_in_ops (init false)))).
Proof.
  apply (proxies_stay_distinct swap_in_ops (init false)).
  - intros E n Hin. unfold swap_in_ops in Hin.
    repeat (apply elem_of_cons in Hin as [Hin|Hin]; [try discriminate|]).
    + injection Hin as -> _. apply cycle_env_orderly.
    + by apply elem_of_nil in Hin.
  - apply NoDup_nil_2.
Defined.


(** *** Statistics *)

Lemma get_proxy_failed_nonempty pm :
  proxies pm ≠ [] →
  failed (snd (get_proxy pm)) = (if all_failed pm then ∅ else failed pm).
Proof.
  intros Hne. rewrite get_proxy_nonempty by done.
  match goal with |- context [cycle ?a ?k ?x] =>
    destruct (cycle_failed a k x) as [-> _] end.
  by destruct (all_failed pm).
Qed.

Lemma filter_all {A} (P : A → Prop) `{∀ x, Decision (P x)} (l : list A) :
  (∀ x, x ∈ l → P x) → filter P l = l.
Proof.
  induction l as [|x l IH]; intros Hall; [done|].
  rewrite filter_cons_True by (apply Hall; left).
  f_equal. apply IH. intros y Hy. apply Hall. by right.
Qed.

Lemma filter_none {A} (P : A → Prop) `{∀ x, Decision (P x)} (l : list A) :
  (∀ x, x ∈ l → ¬ P x) → filter P l = [].
Proof.
  induction l as [|x l IH]; intros Hall; [done|].
  rewrite filter_cons_False by (apply Hall; left).
  apply IH. intros y Hy. apply Hall. by right.
Qed.

Lemma stat_valid_ext pm pm' :
  failed pm' = failed pm → proxies pm' = proxies pm →
  stat_valid (get_stats pm') = stat_valid (get_stats pm).
Proof. unfold get_stats, fail_count. simpl. by intros -> ->. Qed.

(** X12. [get_proxy] never lowers the number of valid proxies that
    [get_stats] reports: it leaves that number as it is while it is positive
    and brings it back to the total when it had dropped to 0. The total does
    not change, the number of valid proxies never exceeds it, and the number
    of recorded failures does not grow. *)
Theorem get_proxy_restores_valid (pm : ProxyManager) :
  (stat_valid (get_stats pm) ≤ stat_total (get_stats pm))%nat
  ∧ stat_total (get_stats (snd (get_proxy pm))) = stat_total (get_stats pm)
  ∧ stat_valid (get_stats (snd (get_proxy pm)))
    = (if decide (stat_valid (get_stats pm) = 0%nat)
       then stat_total (get_stats pm)
       else stat_valid (get_stats pm))
  ∧ (stat_failed (get_stats (snd (get_proxy pm))) ≤ stat_failed (get_stats pm))%nat.
Proof.
  split; [apply length_filter|]. split; [simpl; by rewrite get_proxy_proxies|].
  destruct (decide (proxies pm = [])) as [Hnil|Hne].
  - unfold get_proxy. rewrite Hnil. simpl. rewrite Hnil. simpl. done.
  - pose proof (get_proxy_failed_nonempty pm Hne) as Hf.
    pose proof (get_proxy_proxies pm) as Hp.
    destruct (all_failed pm) eqn:Ha.
    + split.
      * rewrite decide_True.
        -- simpl. rewrite Hp. f_equal. apply filter_all.
           intros x _. unfold fail_count. rewrite Hf, lookup_empty. simpl. lia.
        -- simpl. rewrite filter_none; [done|].
           intros x Hx. pose proof (proj1 (all_failed_true pm) Ha x Hx). lia.
      * simpl. rewrite Hf, map_size_empty. lia.
    + split; [|simpl; by rewrite Hf].
      rewrite (stat_valid_ext pm (snd (get_proxy pm))) by done.
      rewrite decide_False; [done|].
      destruct (all_failed_false pm Ha) as (q & Hq & Hc). simpl.
      assert (Hin : q ∈ filter (fun p => fail_count pm p < 3) (proxies pm))
        by (apply list_elem_of_filter; by split).
      destruct (filter _ (proxies pm)); [by apply elem_of_nil in Hin|done].
Qed.

(** *** Reading a source *)

Lemma candidate_of_line_spec strip line p :
  candidate_of_line strip line = Some p →
  String.prefix "http" p = true ∧ contains ":" p = true
  ∧ strip line ≠ "" ∧ String.prefix "#" (strip line) = false
  ∧ p = (if String.prefix "http" (strip line) then strip line
         else "http://" +:+ strip line).
Proof.
  unfold candidate_of_line.
  destruct (truthy (Some (strip line))) eqn:Ht; simpl; [|discriminate].
  destruct (contains ":" (strip line)) eqn:Hc; simpl; [|discriminate].
  destruct (String.prefix "#" (strip line)) eqn:Hh; simpl; [discriminate|].
  simpl in Ht. apply negb_true_iff, String.eqb_neq in Ht.
  destruct (String.prefix "http" (strip line)) eqn:Hp; simpl; intros [= <-].
  - by repeat split.
  - by repeat split.
Qed.

(** X13. Every candidate that [_fetch_source] returns starts with "http" and
    contains a colon, and comes from a line of a response with status 200
    that, once stripped, is neither empty nor a comment: it is that line, or
    that line behind "http://" when the line does not start with "http". An
    answer with any other status, or no answer, gives no candidate. *)
Theorem fetch_source_candidates (strip : string -> string)
    (resp : option (Z * string)) (p : string) :
  p ∈ _fetch_source strip resp →
  String.prefix "http" p = true ∧ contains ":" p = true
  ∧ ∃ text line,
      resp = Some (200, text)
      ∧ line ∈ split_lines (strip text)
      ∧ strip line ≠ "" ∧ String.prefix "#" (strip line) = false
      ∧ p = (if String.prefix "http" (strip line) then strip line
             else "http://" +:+ strip line).
Proof.
  unfold _fetch_source. destruct resp as [[status_code text]|]; [|by intros ?%elem_of_nil].
  destruct (status_code =? 200) eqn:Hs; [|by intros ?%elem_of_nil].
  apply Z.eqb_eq in Hs as ->.
  intros (line & Hline & Hc)%list_elem_of_omap.
  destruct (candidate_of_line_spec strip line p Hc) as (H1 & H2 & H3 & H4 & H5).
  split; [done|]. split; [done|]. by exists text, line.
Qed.

Lemma fetch_source_candidates_witness :
  String.prefix "http" "http://1.2.3.4:80" = true
  ∧ contains ":" "http://1.2.3.4:80" = true
  ∧ ∃ text line,
      Some (200, "# list
1.2.3.4:80
") = Some (200, text)
      ∧ line ∈ split_lines (id text)
      ∧ id line ≠ "" ∧ String.prefix "#" (id line) = false
      ∧ "http://1.2.3.4:80"
        = (if String.prefix "http" (id line) then id line
           else "http://" +:+ id line).
Proof.
  apply (fetch_source_candidates id (Some (200, "# list
1.2.3.4:80
")) "http://1.2.3.4:80").
  apply (bool_decide_unpack _). vm_compute. exact I.
Defined.

End ProxyToolsFacts.

(** ** The accounts of the engine *)

Module EngineAccounts.
Import Proxy Unified Logic Accounts ProxyFacts EngineFacts.

(** *** Steps that issue no request *)

Lemma calm_refl s : calm s s.
Proof. by repeat split. Qed.

Lemma calm_trans s1 s2 s3 : calm s1 s2 → calm s2 s3 → calm s1 s3.
Proof. intros (H1 & H2 & H3) (H4 & H5 & H6). repeat split; congruence. Qed.

Lemma calm_ret {A} (a : A) : preserves calm (ret a).
Proof. intros s. apply calm_refl. Qed.

Lemma calm_get : preserves calm get.
Proof. intros s. apply calm_refl. Qed.

Lemma calm_of_res {A} (r : Res A) : preserves calm (of_res r).
Proof. intros s. apply calm_refl. Qed.

Lemma calm_bind {A B} (m : M A) (k : A → M B) :
  preserves calm m → (∀ a, preserves calm (k a)) → preserves calm (bind m k).
Proof.
  intros Hm Hk s. unfold bind. specialize (Hm s).
  destruct (m s) as [[a|e] s1]; simpl in *; [|done].
  eapply calm_trans; [exact Hm|apply Hk].
Qed.

Lemma calm_try {A} (m : M A) (h : exn → M A) :
  preserves calm m → (∀ e, preserves calm (h e)) → preserves calm (try_except m h).
Proof.
  intros Hm Hh s. unfold try_except. specialize (Hm s).
  destruct (m s) as [[a|e] s1]; simpl in *; [done|].
  eapply calm_trans; [exact Hm|apply Hh].
Qed.

Lemma calm_on_pool {A} (f : ProxyManager → Res A * ProxyManager) :
  preserves calm (on_pool f).
Proof. intros s. by repeat split. Qed.

Lemma calm_on_pool_ f : preserves calm (on_pool_ f).
Proof. intros s. by repeat split. Qed.

Lemma calm_log m : preserves calm (log m).
Proof. intros s. by repeat split. Qed.

(** Walks through a body that only touches the pool, the clients and the
    counters other than [success]. *)
Ltac calm_walk :=
  repeat first
    [ apply calm_ret
    | apply calm_get
    | apply calm_of_res
    | apply calm_on_pool
    | apply calm_on_pool_
    | apply calm_log
    | match goal with H : context [preserves] |- preserves _ _ => apply H end
    | apply calm_bind; [|intros ?]
    | apply calm_try; [|intros ?]
    | apply preserves_modify; intros ?; by repeat split
    | match goal with
      | |- preserves _ (match ?x with _ => _ end) => destruct x
      end ].

Lemma calm_api_client : preserves calm api_client.
Proof. unfold api_client. calm_walk. Qed.

Lemma calm_web_client : preserves calm web_client.
Proof. unfold web_client. calm_walk. Qed.

Lemma calm_proxy_failed : preserves calm _proxy_failed.
Proof. unfold _proxy_failed. calm_walk. Qed.

Lemma calm_ensure_proxy n k : preserves calm (ensure_proxy n k).
Proof. revert k. induction n as [|n IH]; intros k; simpl; calm_walk. Qed.

Lemma calm_attempts_exhausted : preserves calm attempts_exhausted.
Proof. unfold attempts_exhausted. calm_walk. Qed.

Lemma calm_pool_exhausted : preserves calm pool_exhausted.
Proof. unfold pool_exhausted. calm_walk. Qed.

Section Accounting.

Variable E : Env.

(** [kl] bounds the pages that the second stage counts and loses in one
    call: 1 in general, 0 when no look-up of a total raises. *)
Variable kl : nat.
Hypothesis Hkl : ∀ d e, json_total E d = Raise e → (1 ≤ kl)%nat.

Lemma calm_parse_assets l : preserves calm (parse_assets E l).
Proof.
  pose proof calm_web_client.
  induction l as [|a l IH]; simpl; calm_walk.
Qed.

Lemma calm_web_results d : preserves calm (web_results E d).
Proof.
  pose proof calm_web_client. pose proof calm_parse_assets.
  unfold web_results. calm_walk.
Qed.

(** *** Steps that issue requests *)

Lemma tally_calm a w s s' : calm s s' → tally 0 a w s s'.
Proof. intros (H1 & H2 & H3). unfold tally. rewrite H1, H2, H3. lia. Qed.

Lemma tally_step d a1 w1 a2 w2 s s1 s2 :
  tally 0 a1 w1 s s1 → tally d a2 w2 s1 s2 → tally d (a1 + a2) (w1 + w2) s s2.
Proof. unfold tally. lia. Qed.

Lemma tally_weaken d a w a' w' s s' :
  tally d a w s s' → (a ≤ a')%nat → (w ≤ w')%nat → tally d a' w' s s'.
Proof. unfold tally. lia. Qed.

Lemma tally_bind_calm {A B} a w (m : M A) (f : A → M B) :
  preserves calm m → (∀ x, preserves (tally 0 a w) (f x)) →
  preserves (tally 0 a w) (bind m f).
Proof.
  intros Hm Hf s. unfold bind. specialize (Hm s).
  destruct (m s) as [[x|e] s1]; simpl in *; [|by apply tally_calm].
  apply (tally_step 0 0 0 a w s s1); [by apply tally_calm|apply Hf].
Qed.

Lemma tally_api_call c q p : preserves (tally 0 1 0) (api_call E c q p).
Proof. intros s. unfold tally. simpl. lia. Qed.

Lemma tally_web_call c q p : preserves (tally 0 0 1) (web_call E c q p).
Proof. intros s. unfold tally. simpl. lia. Qed.

Lemma tally_api_attempt q p : preserves (tally 0 1 0) (api_attempt E q p).
Proof.
  pose proof calm_api_client.
  unfold api_attempt.
  repeat (apply tally_bind_calm; [calm_walk|intros ?]).
  apply tally_api_call.
Qed.

Lemma tally_web_fetch q p : preserves (tally 0 0 1) (web_fetch E q p).
Proof.
  pose proof calm_web_client.
  unfold web_fetch.
  repeat (apply tally_bind_calm; [calm_walk|intros ?]).
  apply tally_web_call.
Qed.

(** *** Rules for [counts] *)

Lemma tally_add d1 a1 w1 d2 a2 w2 s s1 s2 :
  tally d1 a1 w1 s s1 → tally d2 a2 w2 s1 s2 →
  tally (d1 + d2) (a1 + a2) (w1 + w2) s s2.
Proof. unfold tally. lia. Qed.

Lemma tally_eq d d' a w a' w' s s' :
  tally d a w s s' → d = d' → (a ≤ a')%nat → (w ≤ w')%nat → tally d' a' w' s s'.
Proof. unfold tally. lia. Qed.

Lemma counts_weaken {A} (got : A → option FofaResponse) j a w j' a' w' (m : M A) :
  counts got j a w m → (j ≤ j')%nat → (a ≤ a')%nat → (w ≤ w')%nat →
  counts got j' a' w' m.
Proof.
  intros Hm Hj Ha Hw s. destruct (Hm s) as (lost & Hl & H).
  exists lost. split; [lia|].
  destruct (fst (m s)) as [x|e]; [destruct (got x)|];
    [destruct H as [H ?]; split; [|done]|..]; by eapply tally_weaken.
Qed.

Lemma counts_ret {A} (got : A → option FofaResponse) (x : A) :
  got x = None → counts got 0 0 0 (ret x).
Proof.
  intros Hx s. exists 0%nat. split; [lia|]. simpl. rewrite Hx.
  apply tally_calm, calm_refl.
Qed.

Lemma counts_bind {A B} (got : B → option FofaResponse) j a1 w1 a2 w2
    (m : M A) (f : A → M B) :
  preserves (tally 0 a1 w1) m → (∀ x, counts got j a2 w2 (f x)) →
  counts got j (a1 + a2) (w1 + w2) (bind m f).
Proof.
  intros Hm Hf s. unfold bind. specialize (Hm s).
  destruct (m s) as [[x|e] s1]; simpl in *.
  - destruct (Hf x s1) as (lost & Hl & H). exists lost. split; [done|].
    destruct (fst (f x s1)) as [y|e]; [destruct (got y)|];
      [destruct H as [H ?]; split; [|done]|..]; by eapply tally_step.
  - exists 0%nat. split; [lia|]. eapply tally_weaken; [exact Hm|lia..].
Qed.

Lemma counts_bind_calm {A B} (got : B → option FofaResponse) j a w
    (m : M A) (f : A → M B) :
  preserves calm m → (∀ x, counts got j a w (f x)) → counts got j a w (bind m f).
Proof.
  intros Hm Hf. apply (counts_bind got j 0 0 a w); [|done].
  intros s. apply tally_calm, Hm.
Qed.

Lemma counts_get {A} (got : A → option FofaResponse) j a w
    (f : UnifiedFofaClient → M A) :
  (∀ s0, counts got j a w (f s0)) → counts got j a w (bind get f).
Proof. intros Hf s. apply (Hf s s). Qed.

(** What the body of a [try] had counted when it raised stays counted. *)
Lemma counts_try {A} (got : A → option FofaResponse) k1 a1 w1 k2 a2 w2
    (m : M A) (h : exn → M A) :
  counts got k1 a1 w1 m → (∀ e, counts got k2 a2 w2 (h e)) →
  counts got (k1 + k2) (a1 + a2) (w1 + w2) (try_except m h).
Proof.
  intros Hm Hh s. unfold try_except. destruct (Hm s) as (l1 & Hl1 & H1).
  destruct (m s) as [[x|e] s1]; simpl in *.
  - exists l1. split; [lia|].
    destruct (got x); [destruct H1 as [H1 ?]; split; [|done]|];
      (eapply tally_weaken; [exact H1|lia..]).
  - destruct (Hh e s1) as (l2 & Hl2 & H2). exists (l1 + l2)%nat. split; [lia|].
    destruct (fst (h e s1)) as [y|e']; [destruct (got y)|];
      [destruct H2 as [H2 ?]; split; [|done]|..];
      (eapply tally_eq; [eapply tally_add; [exact H1|exact H2]|lia..]).
Qed.

(** A stage followed by the rest of [search]: [return] ends the call. *)
Lemma counts_then k1 a1 w1 k2 a2 w2 (m : M flow) (rest : M (option FofaResponse)) :
  counts flow_response k1 a1 w1 m → counts id k2 a2 w2 rest →
  counts id (k1 + k2) (a1 + a2) (w1 + w2)
    (f <- m ;; match f with Return r => ret r | Next => rest end).
Proof.
  intros Hm Hr s. unfold bind. destruct (Hm s) as (l1 & Hl1 & H1).
  destruct (m s) as [[[|r]|e] s1]; simpl in *.
  - destruct (Hr s1) as (l2 & Hl2 & H2). exists (l1 + l2)%nat. split; [lia|].
    unfold id in *.
    destruct (fst (rest s1)) as [[y|]|e];
      [destruct H2 as [H2 ?]; split; [|done]|..];
      (eapply tally_eq; [eapply tally_add; [exact H1|exact H2]|lia..]).
  - exists l1. split; [lia|]. unfold id.
    destruct r; [destruct H1 as [H1 ?]; split; [|done]|];
      (eapply tally_weaken; [exact H1|lia..]).
  - exists l1. split; [lia|]. eapply tally_weaken; [exact H1|lia..].
Qed.

(** *** The stages *)

Lemma counts_api_handle r : counts flow_response 0 0 0 (api_handle E r).
Proof.
  pose proof calm_proxy_failed.
  unfold api_handle. destruct r as [r|].
  - destruct (_is_ban_response E r).
    + repeat (apply counts_bind_calm; [calm_walk|intros ?]). by apply counts_ret.
    + destruct (data r) as [d|] eqn:Hd.
      * destruct (assets d) as [|res0 ress] eqn:Ha.
        -- repeat (apply counts_bind_calm; [calm_walk|intros ?]). by apply counts_ret.
        -- intros s. exists 0%nat. split; [lia|].
           simpl. unfold response_assets. rewrite Hd, Ha.
           split; [|done]. unfold tally. simpl. lia.
      * repeat (apply counts_bind_calm; [calm_walk|intros ?]). by apply counts_ret.
  - repeat (apply counts_bind_calm; [calm_walk|intros ?]). by apply counts_ret.
Qed.

Lemma counts_api_except e : counts flow_response 0 0 0 (api_except E e).
Proof.
  pose proof calm_proxy_failed.
  unfold api_except.
  repeat (apply counts_bind_calm; [calm_walk|intros ?]). by apply counts_ret.
Qed.

Lemma counts_stage1 q p : counts flow_response 0 1 0 (stage1 E q p).
Proof.
  unfold stage1. apply counts_get. intros s0.
  destruct (mode s0).
  - apply counts_bind_calm; [calm_walk|intros ?].
    apply (counts_try _ 0 1 0 0 0 0); [|apply counts_api_except].
    apply (counts_bind _ 0 1 0 0 0); [apply tally_api_attempt|].
    apply counts_api_handle.
  - eapply counts_weaken; [by apply counts_ret|lia..].
  - apply counts_bind_calm; [calm_walk|intros ?].
    apply (counts_try _ 0 1 0 0 0 0); [|apply counts_api_except].
    apply (counts_bind _ 0 1 0 0 0); [apply tally_api_attempt|].
    apply counts_api_handle.
Qed.

(** The second stage counts the page before it looks up its total: when the
    look-up raises, the page is counted and lost. *)
Lemma counts_web_attempt q p : counts flow_response kl 0 1 (web_attempt E q p).
Proof.
  pose proof calm_proxy_failed. pose proof calm_web_client.
  pose proof calm_web_results.
  unfold web_attempt.
  apply counts_bind_calm; [calm_walk|intros ?].
  apply (counts_bind _ kl 0 1 0 0); [apply tally_web_fetch|intros html].
  destruct html as [h|].
  - destruct (negb (truthy (Some h))).
    + repeat (apply counts_bind_calm; [calm_walk|intros ?]).
      eapply counts_weaken; [by apply counts_ret|lia..].
    + destruct (_is_ban_html E h).
      * repeat (apply counts_bind_calm; [calm_walk|intros ?]).
        eapply counts_weaken; [by apply counts_ret|lia..].
      * apply counts_bind_calm; [calm_walk|intros ?].
        destruct (_parse_json_response E h) as [d|].
        -- apply counts_bind_calm; [calm_walk|intros results].
           destruct results as [|res0 ress].
           ++ repeat (apply counts_bind_calm; [calm_walk|intros ?]).
              eapply counts_weaken; [by apply counts_ret|lia..].
           ++ intros s. unfold bind, modify, get, on_pool_, of_res, log, ret.
              simpl. destruct (json_total E d) as [t|e] eqn:Ht; simpl.
              ** exists 0%nat. split; [lia|]. split; [|done].
                 unfold tally. simpl. lia.
              ** exists 1%nat. split; [by eapply Hkl|].
                 unfold tally. simpl. lia.
        -- repeat (apply counts_bind_calm; [calm_walk|intros ?]).
           eapply counts_weaken; [by apply counts_ret|lia..].
  - repeat (apply counts_bind_calm; [calm_walk|intros ?]).
    eapply counts_weaken; [by apply counts_ret|lia..].
Qed.

Lemma counts_web_handler e :
  counts flow_response 0 0 0
    (log (LogWebException e) ;;; _proxy_failed ;;; ret Next).
Proof.
  pose proof calm_proxy_failed.
  repeat (apply counts_bind_calm; [calm_walk|intros ?]). by apply counts_ret.
Qed.

Lemma counts_web_tried q p :
  counts flow_response kl 0 1
    (try_except (web_attempt E q p)
       (fun e => log (LogWebException e) ;;; _proxy_failed ;;; ret Next)).
Proof.
  eapply counts_weaken;
    [apply (counts_try _ kl 0 1 0 0 0); [apply counts_web_attempt|]|lia..].
  apply counts_web_handler.
Qed.

Lemma counts_web_stage q p : counts flow_response kl 0 1 (web_stage E q p).
Proof.
  pose proof calm_ensure_proxy.
  unfold web_stage.
  apply counts_bind_calm; [calm_walk|intros ?].
  apply counts_get. intros s0.
  destruct (negb (truthy (proxy (config s0)))).
  - destruct (allow_direct (proxy_manager s0)).
    + apply counts_bind_calm; [calm_walk|intros ?]. apply counts_web_tried.
    + apply counts_bind_calm; [calm_walk|intros ?].
      eapply counts_weaken; [by apply counts_ret|lia..].
  - apply counts_web_tried.
Qed.

Lemma counts_stage2 q p : counts flow_response kl 0 1 (stage2 E q p).
Proof.
  unfold stage2. apply counts_get. intros s0.
  destruct (mode s0).
  - eapply counts_weaken; [by apply counts_ret|lia..].
  - apply counts_bind_calm; [calm_walk|intros ?].
    apply counts_bind_calm; [calm_walk|intros ?].
    apply counts_web_stage.
  - apply counts_bind_calm; [calm_walk|intros ?].
    apply counts_bind_calm; [calm_walk|intros ?].
    apply counts_web_stage.
Qed.

(** The final retry builds its response from what it has counted: nothing
    can raise in between. *)
Lemma counts_retry_attempt q p : counts flow_response 0 0 1 (retry_attempt E q p).
Proof.
  pose proof calm_web_client. pose proof calm_web_results.
  unfold retry_attempt.
  apply counts_bind_calm; [calm_walk|intros ?].
  apply (counts_bind _ 0 0 1 0 0); [apply tally_web_fetch|intros html].
  destruct html as [h|]; [|by apply counts_ret].
  destruct (truthy (Some h) && negb (_is_ban_html E h)); [|by apply counts_ret].
  apply counts_bind_calm; [calm_walk|intros ?].
  destruct (_parse_json_response E h) as [d|]; [|by apply counts_ret].
  apply counts_bind_calm; [calm_walk|intros results].
  destruct results as [|res0 ress]; [by apply counts_ret|].
  intros s. exists 0%nat. split; [lia|].
  simpl. split; [|done]. unfold tally. simpl. lia.
Qed.

Lemma counts_stage3 q p mr : counts flow_response 0 0 1 (stage3 E q p mr).
Proof.
  unfold stage3.
  destruct (1 <? mr); [|eapply counts_weaken; [by apply counts_ret|lia..]].
  apply counts_bind_calm; [calm_walk|intros cp].
  apply counts_get. intros s0.
  destruct (truthy cp && bool_decide (cp ≠ proxy (config s0)));
    [|eapply counts_weaken; [by apply counts_ret|lia..]].
  apply counts_bind_calm; [calm_walk|intros ?].
  apply counts_bind_calm; [calm_walk|intros ?].
  apply (counts_try _ 0 0 1 0 0 0); [apply counts_retry_attempt|].
  intros _. by apply counts_ret.
Qed.

Lemma counts_attempts_exhausted : counts id 0 0 0 attempts_exhausted.
Proof.
  unfold attempts_exhausted.
  repeat (apply counts_bind_calm; [calm_walk|intros ?]). by apply counts_ret.
Qed.

(** One call of [search]: at most one signed and two anonymous requests; a
    returned response carries assets and is counted in [success], as are at
    most [kl] lost pages. *)
Lemma counts_search q p mr : counts id kl 1 2 (search E q p mr).
Proof.
  unfold search. apply counts_bind_calm; [calm_walk|intros ?].
  apply (counts_then 0 1 0 kl 0 2); [apply counts_stage1|].
  unfold after_stage1, after_stage2.
  eapply counts_weaken;
    [apply (counts_then kl 0 1 0 0 1); [apply counts_stage2|]|lia..].
  apply (counts_then 0 0 1 0 0 0); [apply counts_stage3|].
  apply counts_attempts_exhausted.
Qed.

Lemma search_all_body_tally q mcf ls s :
  ∃ d, 0 ≤ d ≤ 1 + Z.of_nat kl
       ∧ tally d 1 2 s (snd (search_all_body E q mcf ls s)).
Proof.
  unfold search_all_body, bind.
  destruct (counts_search q (page ls) 3 s) as (lost & Hl & Hs).
  destruct (search E q (page ls) 3 s) as [[[r|]|e] s1]; simpl in *.
  - exists (1 + Z.of_nat lost). split; [lia|]. destruct Hs as [Hs _].
    unfold get, of_res. by repeat case_match.
  - exists (Z.of_nat lost). split; [lia|].
    pose proof (calm_pool_exhausted s1) as Hp.
    destruct (pool_exhausted s1) as [[b|e] s2]; simpl in *.
    + replace (snd _) with s2 by (unfold ret; by repeat case_match).
      unfold tally, calm in *. lia.
    + unfold tally, calm in *. lia.
  - exists (Z.of_nat lost). by split; [lia|].
Qed.

Lemma search_all_body_session q mcf ls s :
  session_step s (snd (search_all_body E q mcf ls s)).
Proof.
  unfold search_all_body, bind.
  pose proof (search_session_step E q (page ls) 3 s) as Hs.
  destruct (search E q (page ls) 3 s) as [[[r|]|e] s1]; simpl in *.
  - unfold get, of_res. by repeat case_match.
  - pose proof (preserves_pool_exhausted _ (frame_base _ session_step_frame) s1) as Hp.
    destruct (pool_exhausted s1) as [[b|e] s2]; simpl in *.
    + replace (snd _) with s2 by (unfold ret; by repeat case_match).
      by eapply session_step_trans.
    + by eapply session_step_trans.
  - done.
Qed.

Lemma search_all_loop_tally q max_pages mcf fuel ls s out :
  search_all_loop E q max_pages mcf fuel ls s = Some out →
  success s ≤ success (snd out) ≤ success s + (1 + Z.of_nat kl) * Z.of_nat fuel
  ∧ (api_requests s ≤ api_requests (snd out) ≤ api_requests s + fuel)%nat
  ∧ (web_requests s ≤ web_requests (snd out) ≤ web_requests s + 2 * fuel)%nat
  ∧ session_step s (snd out).
Proof.
  revert ls s. induction fuel as [|fuel IH]; intros ls s.
  - simpl. destruct (_ && _); [discriminate|]. intros [= <-]. simpl.
    split; [lia|]. split; [lia|]. split; [lia|]. apply session_step_refl.
  - rewrite search_all_loop_S. destruct (_ && _).
    + destruct (search_all_body_tally q mcf ls s) as (d & Hd & Ht).
      pose proof (search_all_body_session q mcf ls s) as Hses.
      destruct (search_all_body E q mcf ls s) as [[[[|] ls']|e] s1]; simpl in *.
      * intros Hloop. destruct (IH ls' s1 Hloop) as (H1 & H2 & H3 & H4).
        unfold tally in Ht.
        split; [lia|]. split; [lia|]. split; [lia|].
        by eapply session_step_trans.
      * intros [= <-]. simpl. unfold tally in Ht. repeat split; try lia; apply Hses.
      * intros [= <-]. simpl. unfold tally in Ht. repeat split; try lia; apply Hses.
    + intros [= <-]. simpl.
      split; [lia|]. split; [lia|]. split; [lia|]. apply session_step_refl.
Qed.

End Accounting.

(** X14. One call of [search] issues at most one request through the signed
    client and at most two through the anonymous client, whether it returns
    or raises, and a response it returns always carries at least one asset.
    [success] grows by 1 or 2 when a response is returned and by at most 1
    otherwise: the second stage counts a page before it looks up the total
    of the page (line 236), and when that look-up raises the page is counted
    and lost, and the final retry may count another. When no look-up of a
    total raises, [success] grows by exactly 1 when a response is returned
    and is left as it was in every other case. *)
Theorem search_counts_successes (E : Env) (q : string) (p mr : Z)
    (s : UnifiedFofaClient) :
  match fst (search E q p mr s) with
  | Ok (Some r) =>
      success s + 1 ≤ success (snd (search E q p mr s)) ≤ success s + 2
      ∧ response_assets r ≠ []
  | _ => success s ≤ success (snd (search E q p mr s)) ≤ success s + 1
  end
  ∧ (api_requests s ≤ api_requests (snd (search E q p mr s))
     ≤ api_requests s + 1)%nat
  ∧ (web_requests s ≤ web_requests (snd (search E q p mr s))
     ≤ web_requests s + 2)%nat
  ∧ ((∀ d, is_Ok (json_total E d) = true) →
     match fst (search E q p mr s) with
     | Ok (Some r) => success (snd (search E q p mr s)) = success s + 1
     | _ => success (snd (search E q p mr s)) = success s
     end).
Proof.
  assert (H1 : ∀ d e, json_total E d = Raise e → (1 ≤ 1)%nat) by (intros; lia).
  destruct (counts_search E 1 H1 q p mr s) as (lost & Hl & H).
  unfold id, tally in H.
  assert (Hreq : (api_requests s ≤ api_requests (snd (search E q p mr s))
                  ≤ api_requests s + 1)%nat
                 ∧ (web_requests s ≤ web_requests (snd (search E q p mr s))
                    ≤ web_requests s + 2)%nat).
  { destruct (fst (search E q p mr s)) as [[r|]|e]; [destruct H as [H _]|..];
      by destruct H as (_ & ? & ?). }
  split; [|split; [apply Hreq|split; [apply Hreq|]]].
  - destruct (fst (search E q p mr s)) as [[r|]|e].
    + destruct H as [(H & _) ?]. split; [lia|done].
    + destruct H as (H & _). lia.
    + destruct H as (H & _). lia.
  - intros Hok.
    assert (H0 : ∀ d e, json_total E d = Raise e → (1 ≤ 0)%nat).
    { intros d e Hd. specialize (Hok d). by rewrite Hd in Hok. }
    destruct (counts_search E 0 H0 q p mr s) as (lost0 & Hl0 & H').
    unfold id, tally in H'.
    destruct (fst (search E q p mr s)) as [[r|]|e].
    + destruct H' as [(H' & _) _]. lia.
    + destruct H' as (H' & _). lia.
    + destruct H' as (H' & _). lia.
Qed.

(** X15. [search_all] always comes to an end, and with [max_pages] pages it
    issues at most [max_pages] requests through the signed client and at
    most twice as many through the anonymous client; [success] never goes
    down and grows by at most 2 for each page, a page of the second stage
    that is counted and then lost included. It leaves the target count and
    the pool's sequence as they were, and the mode is unchanged or [WEB]. *)
Theorem search_all_is_bounded (E : Env) (q : string) (max_pages mcf : Z)
    (s : UnifiedFofaClient) :
  ∃ out,
    search_all E q max_pages mcf s = Some out
    ∧ success s ≤ success (snd out) ≤ success s + 2 * Z.max 0 max_pages
    ∧ (api_requests s ≤ api_requests (snd out)
       ≤ api_requests s + Z.to_nat max_pages)%nat
    ∧ (web_requests s ≤ web_requests (snd out)
       ≤ web_requests s + 2 * Z.to_nat max_pages)%nat
    ∧ end_count (config (snd out)) = end_count (config s)
    ∧ (mode (snd out) = mode s ∨ mode (snd out) = WEB)
    ∧ proxies (proxy_manager (snd out)) = proxies (proxy_manager s).
Proof.
  unfold search_all.
  destruct (search_all_loop_total E q max_pages mcf (Z.to_nat max_pages)
              (mkLoopState [] 1 0) s) as [out Hout]; [simpl; lia|].
  exists out. split; [done|].
  assert (H1 : ∀ d e, json_total E d = Raise e → (1 ≤ 1)%nat) by (intros; lia).
  destruct (search_all_loop_tally E 1 H1 _ _ _ _ _ _ _ Hout)
    as (Hs & H2 & H3 & H4 & H5 & (H6 & _) & _).
  split; [lia|]. split; [exact H2|]. split; [exact H3|]. by split.
Qed.

End EngineAccounts.

(** ** Exceptions of the engine *)

Module EngineSafety.
Import Proxy Unified Logic Accounts ProxyExamples EngineExamples.
Import TotalFacts ProxyFacts EngineFacts ProxyToolsFacts.

(** *** With the cursor well placed nothing escapes from [search] *)

Local Notation "'safe' m" := (returns placed m (fun _ => placed))
  (at level 10, m at level 9).

Lemma safe_get_proxy : safe (on_pool get_proxy).
Proof.
  intros s Hs. destruct (get_proxy_in_range _ Hs) as (r & pm' & Heq & Hc & _).
  exists r, (set_proxy_manager pm' s). unfold on_pool. by rewrite Heq.
Qed.

Lemma safe_get_next_proxy c : safe (on_pool (get_next_proxy c)).
Proof.
  intros s Hs. destruct (get_next_proxy_in_range c _ Hs) as (r & pm' & Heq & Hc & _).
  exists r, (set_proxy_manager pm' s). unfold on_pool. by rewrite Heq.
Qed.

Lemma safe_mark_failed p : safe (on_pool_ (mark_failed p)).
Proof. apply returns_modify. intros s Hs. by apply mark_failed_cursor_ok. Qed.

Lemma safe_mark_success p : safe (on_pool_ (mark_success p)).
Proof. apply returns_modify. intros s Hs. by apply mark_success_cursor_ok. Qed.

Lemma safe_log m : safe (log m).
Proof. apply returns_modify. by intros s Hs. Qed.

Lemma safe_get : returns placed get (fun _ => placed).
Proof. intros s Hs. by exists s, s. Qed.

Lemma safe_ret {A} (x : A) : safe (ret x).
Proof. by apply returns_ret. Qed.

(** A [try] whose body may raise: the handler takes over in a state in
    which the cursor is still well placed. *)
Lemma safe_try_any {A} (m : M A) (h : exn → M A) :
  (∀ s, placed s → placed (snd (m s))) → (∀ e, safe (h e)) →
  safe (try_except m h).
Proof.
  intros Hm Hh s Hs. unfold try_except. specialize (Hm s Hs).
  destruct (m s) as [[a|e] s1]; simpl in *.
  - by exists a, s1.
  - by apply Hh.
Qed.

Ltac safe_walk :=
  repeat first
    [ apply safe_ret
    | apply safe_get_proxy
    | apply safe_get_next_proxy
    | apply safe_mark_failed
    | apply safe_mark_success
    | apply safe_log
    | match goal with H : context [returns] |- returns _ _ _ => apply H end
    | apply (returns_bind _ _ _ (fun _ => placed)); [|intros ?]
    | apply safe_get
    | apply returns_try
    | apply returns_modify; intros ? ?; assumption
    | match goal with
      | |- returns _ (match ?x with _ => _ end) _ => destruct x
      end ].

Lemma safe_api_client : safe api_client.
Proof. unfold api_client. safe_walk. Qed.

Lemma safe_web_client : safe web_client.
Proof. unfold web_client. safe_walk. Qed.

Lemma safe_proxy_failed : safe _proxy_failed.
Proof. unfold _proxy_failed. safe_walk. Qed.

Lemma safe_ensure_proxy n k : safe (ensure_proxy n k).
Proof. revert k. induction n as [|n IH]; intros k; simpl; safe_walk. Qed.

Lemma safe_attempts_exhausted : safe attempts_exhausted.
Proof. unfold attempts_exhausted. safe_walk. Qed.

Lemma safe_pool_exhausted : safe pool_exhausted.
Proof. unfold pool_exhausted. safe_walk. Qed.

Section Safety.

Variable E : Env.

Lemma safe_web_call c q p : safe (web_call E c q p).
Proof. intros s Hs. by eexists _, _. Qed.

Lemma safe_api_handle r : safe (api_handle E r).
Proof.
  pose proof safe_proxy_failed.
  unfold api_handle. safe_walk.
Qed.

Lemma safe_api_except e : safe (api_except E e).
Proof.
  pose proof safe_proxy_failed.
  unfold api_except. safe_walk.
Qed.

(** The [try] block of the first stage keeps the cursor well placed also
    when the signed client raises. *)
Lemma placed_api_body q p s :
  placed s →
  placed (snd ((response <- api_attempt E q p ;; api_handle E response) s)).
Proof.
  intros Hs.
  pose proof (preserves_bind _ (frame_base _ session_step_frame) _ _
                (preserves_api_attempt E _ (frame_base _ session_step_frame) q p)
                (fun r => preserves_api_handle E _ session_step_frame r) s)
    as (_ & _ & (_ & _ & Hc) & _).
  by apply Hc.
Qed.

Lemma safe_stage1 q p : safe (stage1 E q p).
Proof.
  pose proof safe_api_except.
  unfold stage1.
  apply (returns_bind _ _ _ (fun _ => placed)); [apply safe_get|intros s0].
  destruct (mode s0).
  - apply (returns_bind _ _ _ (fun _ => placed)); [apply safe_log|intros ?].
    apply safe_try_any; [apply placed_api_body|done].
  - apply safe_ret.
  - apply (returns_bind _ _ _ (fun _ => placed)); [apply safe_log|intros ?].
    apply safe_try_any; [apply placed_api_body|done].
Qed.

(** The [try] block of the second stage can raise, at the iteration over
    the assets and at the look-up of the total; the cursor stays well placed
    and the handler takes over. *)
Lemma safe_web_tried q p :
  safe (try_except (web_attempt E q p)
          (fun e => log (LogWebException e) ;;; _proxy_failed ;;; ret Next)).
Proof.
  apply safe_try_any.
  - intros s Hs.
    pose proof (preserves_web_attempt E _ session_step_frame q p s)
      as (_ & _ & (_ & _ & Hc) & _).
    by apply Hc.
  - intros e. pose proof safe_proxy_failed. safe_walk.
Qed.

Lemma safe_web_stage q p : safe (web_stage E q p).
Proof.
  pose proof safe_ensure_proxy. pose proof safe_web_tried.
  unfold web_stage. safe_walk.
Qed.

Lemma safe_stage2 q p : safe (stage2 E q p).
Proof.
  pose proof safe_web_stage.
  unfold stage2. safe_walk.
Qed.

(** The same for the final retry, whose handler does nothing. *)
Lemma safe_retry_tried q p :
  safe (try_except (retry_attempt E q p) (fun _ => ret Next)).
Proof.
  apply safe_try_any.
  - intros s Hs.
    pose proof (preserves_retry_attempt E _ session_step_frame q p s)
      as (_ & _ & (_ & _ & Hc) & _).
    by apply Hc.
  - intros e. apply safe_ret.
Qed.

Lemma safe_stage3 q p mr : safe (stage3 E q p mr).
Proof.
  pose proof safe_retry_tried.
  unfold stage3. safe_walk.
Qed.

Lemma safe_search q p mr : safe (search E q p mr).
Proof.
  pose proof safe_stage1. pose proof safe_stage2. pose proof safe_stage3.
  pose proof safe_attempts_exhausted.
  unfold search, after_stage1, after_stage2. safe_walk.
Qed.

(** *** What [search] hands to [search_all] *)

Lemma yields_ret {A} (G : A → Prop) (x : A) : G x → yields G (ret x).
Proof. intros Hx s y s' [= <- _]. exact Hx. Qed.

Lemma yields_bind {A B} (G : B → Prop) (m : M A) (f : A → M B) :
  (∀ x, yields G (f x)) → yields G (bind m f).
Proof.
  intros Hf s y s'. unfold bind.
  destruct (m s) as [[x|e] s1]; [apply Hf|done].
Qed.

Lemma yields_bind_with {A B} (G1 : A → Prop) (G : B → Prop) (m : M A)
    (f : A → M B) :
  yields G1 m → (∀ x, G1 x → yields G (f x)) → yields G (bind m f).
Proof.
  intros Hm Hf s y s'. unfold bind.
  destruct (m s) as [[x|e] s1] eqn:Heq; [|done].
  apply Hf. by eapply Hm.
Qed.

Lemma yields_of_res {A B} (G : B → Prop) (r : Res A) (f : A → M B) :
  (∀ x, r = Ok x → yields G (f x)) → yields G (bind (of_res r) f).
Proof.
  intros Hf s y s'. unfold bind, of_res.
  destruct r as [x|e]; [by apply Hf|done].
Qed.

Lemma yields_try {A} (G : A → Prop) (m : M A) (h : exn → M A) :
  yields G m → (∀ e, yields G (h e)) → yields G (try_except m h).
Proof.
  intros Hm Hh s y s'. unfold try_except.
  destruct (m s) as [[x|e] s1] eqn:Heq; [|apply Hh].
  intros [= <- <-]. by eapply Hm.
Qed.

(** A stage followed by the rest of [search]. *)
Lemma yields_then (m : M flow) (rest : M (option FofaResponse)) :
  yields (fun f => ordered_answer (flow_response f)) m →
  yields ordered_answer rest →
  yields ordered_answer
    (f <- m ;; match f with Return r => ret r | Next => rest end).
Proof.
  intros Hm Hr s y s'. unfold bind.
  destruct (m s) as [[[|r]|e] s1] eqn:Heq; [apply Hr| |done].
  intros [= <- <-]. apply (Hm _ _ _ Heq).
Qed.

Ltac yield_walk :=
  repeat first
    [ match goal with H : context [yields] |- yields _ _ => apply H end
    | match goal with
      | |- yields _ (ret _) => apply yields_ret; by intros ? [=]
      | |- yields _ (try_except _ _) => apply yields_try; [|intros ?]
      | |- yields _ (bind _ _) => apply yields_bind; intros ?
      | |- yields _ (match ?x with _ => _ end) => destruct x eqn:?
      end ].

Hypothesis Hord : ordered_totals E.

Lemma ordered_page results t p :
  (∀ v, t = Some v → total_truthy v = true → is_number v = true) →
  ordered_total
    (web_response results (default (TotalInt (Z.of_nat (length results))) t) p).
Proof.
  intros Ht d [= <-]. simpl. destruct t as [v|]; simpl; [by apply Ht|done].
Qed.

Lemma yields_api_attempt q p : yields ordered_answer (api_attempt E q p).
Proof.
  unfold api_attempt. repeat (apply yields_bind; intros ?).
  intros s resp s'. unfold api_call. intros [= Hreq _] r ->.
  by eapply (proj1 Hord).
Qed.

Lemma yields_api_handle response :
  ordered_answer response →
  yields (fun f => ordered_answer (flow_response f)) (api_handle E response).
Proof.
  intros Hresp. unfold api_handle. yield_walk.
  apply yields_ret. simpl. intros r0 [= <-]. by apply Hresp.
Qed.

Lemma yields_stage1 q p :
  yields (fun f => ordered_answer (flow_response f)) (stage1 E q p).
Proof.
  unfold stage1. apply yields_bind. intros s0.
  assert (Hany : yields (fun f => ordered_answer (flow_response f))
                   (try_except (response <- api_attempt E q p ;; api_handle E response)
                      (api_except E))).
  { apply yields_try.
    - apply (yields_bind_with ordered_answer); [apply yields_api_attempt|].
      apply yields_api_handle.
    - intros e. unfold api_except. yield_walk. }
  destruct (mode s0); yield_walk.
Qed.

Lemma yields_web_attempt q p :
  yields (fun f => ordered_answer (flow_response f)) (web_attempt E q p).
Proof.
  unfold web_attempt.
  repeat match goal with
         | |- yields _ (ret _) => apply yields_ret; by intros ? [=]
         | |- yields _ (bind (of_res _) _) => apply yields_of_res; intros t Ht
         | |- yields _ (bind _ _) => apply yields_bind; intros ?
         | |- yields _ (match ?x with _ => _ end) => destruct x eqn:?
         end.
  apply yields_ret. simpl. intros r [= <-]. apply ordered_page.
  intros v ->. by apply (proj2 Hord _ _ Ht).
Qed.

Lemma yields_stage2 q p :
  yields (fun f => ordered_answer (flow_response f)) (stage2 E q p).
Proof.
  pose proof yields_web_attempt.
  unfold stage2, web_stage. yield_walk.
Qed.

Lemma yields_stage3 q p mr :
  yields (fun f => ordered_answer (flow_response f)) (stage3 E q p mr).
Proof.
  unfold stage3, retry_attempt. yield_walk.
  apply yields_ret. simpl. intros r [= <-]. by intros d [= <-].
Qed.

Lemma yields_search q p mr : yields ordered_answer (search E q p mr).
Proof.
  unfold search. apply yields_bind. intros _.
  apply yields_then; [apply yields_stage1|].
  unfold after_stage1. apply yields_then; [apply yields_stage2|].
  unfold after_stage2.
  change (yields ordered_answer
            (f <- stage3 E q p mr ;;
             match f with Return r => ret r | Next => attempts_exhausted end)).
  apply yields_then; [apply yields_stage3|].
  unfold attempts_exhausted. yield_walk.
Qed.

End Safety.

(** *** [search_all] with the cursor well placed *)

Section SafeLoop.

Variable E : Env.

(** One turn of the loop: the only exception that can leave it is the one
    that the comparison of the reported total raises. *)
Lemma search_all_body_placed q mcf ls s :
  placed s →
  ∃ out s',
    search_all_body E q mcf ls s = (out, s') ∧ placed s'
    ∧ ∀ e, out = Raise e →
           ∃ r n, search E q (page ls) 3 s = (Ok (Some r), s')
                  ∧ reported_total_reached r n = Raise e.
Proof.
  intros Hs. unfold search_all_body, bind.
  destruct (safe_search E q (page ls) 3 s Hs) as (resp & s1 & Heq & Hs1).
  rewrite Heq. destruct resp as [r|].
  - unfold get, of_res.
    destruct (end_count (config s1) <=? _); [by eexists _, _|].
    destruct (reported_total_reached r _) as [[|]|e] eqn:Ht;
      eexists _, _; (split; [done|]); (split; [done|]); try done.
    intros e' [= <-]. by eexists _, _.
  - destruct (safe_pool_exhausted s1 Hs1) as (b & s2 & Heq2 & Hs2).
    rewrite Heq2. destruct b; [by eexists _, _|].
    destruct (mcf <=? _); by eexists _, _.
Qed.

Lemma search_all_loop_placed q max_pages mcf fuel ls s :
  (Z.to_nat (max_pages + 1 - page ls) ≤ fuel)%nat →
  placed s →
  ∃ out s',
    search_all_loop E q max_pages mcf fuel ls s = Some (out, s') ∧ placed s'
    ∧ (∀ e, out = Raise e → ∃ msg, e = TypeError msg)
    ∧ (ordered_totals E → ∃ l, out = Ok l).
Proof.
  revert ls s. induction fuel as [|fuel IH]; intros ls s Hfuel Hs.
  - simpl. destruct (_ <? _); simpl.
    + destruct (Z.leb_spec (page ls) max_pages); [lia|].
      eexists _, _. split; [done|]. split; [done|]. split; [done|by eexists].
    + eexists _, _. split; [done|]. split; [done|]. split; [done|by eexists].
  - rewrite search_all_loop_S.
    destruct ((_ <? _) && (_ <=? _)) eqn:Hcond;
      [|eexists _, _; split; [done|]; split; [done|]; split; [done|by eexists]].
    apply andb_prop in Hcond as [_ Hpage]. apply Z.leb_le in Hpage.
    destruct (search_all_body_placed q mcf ls s Hs) as (out & s1 & Hbody & Hs1 & He).
    rewrite Hbody. destruct out as [[c ls']|e].
    + destruct c;
        [|eexists _, _; split; [done|]; split; [done|]; split; [done|by eexists]].
      apply IH; [|done].
      destruct (search_all_body_spec E _ _ _ _ _ _ _ Hbody) as (_ & Hp & _).
      rewrite Hp by done. lia.
    + destruct (He e eq_refl) as (r & n & Hsearch & Hr).
      eexists _, _. split; [done|]. split; [done|]. split.
      * intros e' [= <-]. by eapply reported_total_raises.
      * intros Hord.
        pose proof (yields_search E Hord q (page ls) 3 s _ _ Hsearch r eq_refl) as Hok.
        destruct (reported_total_ordered r n Hok) as [b Hb]. congruence.
Qed.

End SafeLoop.

(** X16. As long as the cursor of the pool is well placed, which every
    engine starts with and every caller-side pool method keeps, [search]
    never raises: whatever the signed client raises, and whatever the
    handling of a page raises, is caught, and the call returns a response
    or [None] with the cursor still well placed. [search_all] then comes to
    an end with the cursor well placed, and the only exception that can
    leave it is the [TypeError] of comparing a reported total that is no
    number (lines 370-373, outside every [try]); it returns a list whenever
    the totals that the signed client and the pages report are numbers or
    falsy. *)
Theorem search_never_raises (E : Env) (q : string) (p mr max_pages mcf : Z)
    (s : UnifiedFofaClient) :
  placed s →
  (∃ r s', search E q p mr s = (Ok r, s') ∧ placed s')
  ∧ (∃ out s', search_all E q max_pages mcf s = Some (out, s') ∧ placed s'
               ∧ (∀ e, out = Raise e → ∃ msg, e = TypeError msg)
               ∧ (ordered_totals E → ∃ l, out = Ok l)).
Proof.
  intros Hs. split.
  - by apply safe_search.
  - unfold search_all. apply search_all_loop_placed; [simpl; lia|done].
Qed.

Lemma search_never_raises_witness :
  (∃ r s', search env_empty "port=80" 1 3 session2 = (Ok r, s') ∧ placed s')
  ∧ (∃ out s', search_all env_empty "port=80" 10 3 session2 = Some (out, s')
               ∧ placed s'
               ∧ (∀ e, out = Raise e → ∃ msg, e = TypeError msg)
               ∧ (ordered_totals env_empty → ∃ l, out = Ok l)).
Proof.
  apply (search_never_raises env_empty "port=80" 1 3 10 3 session2).
  left. simpl. lia.
Defined.

(** *** What [_proxy_failed] switches to *)

Lemma mark_failed_falsy p pm :
  (if truthy p then mark_failed p pm else pm) = mark_failed p pm.
Proof.
  unfold mark_failed. destruct p as [p|]; [|done]. by destruct (truthy (Some p)).
Qed.

(** X23. With the cursor well placed, [_proxy_failed] returns; it adds 1 to
    [failed] and records one failure for the assigned proxy (when there is
    one) and for no other. Afterwards the configuration either names the same
    proxy as before, or a proxy of the pool whose failure count is below 3,
    in which case both clients are dropped so that they are built anew with
    that proxy. *)
Theorem proxy_failed_switches (s : UnifiedFofaClient) :
  placed s →
  ∃ s',
    _proxy_failed s = (Ok tt, s')
    ∧ Unified.failed s' = Unified.failed s + 1
    ∧ Proxy.failed (proxy_manager s')
      = Proxy.failed (mark_failed (proxy (config s)) (proxy_manager s))
    ∧ proxies (proxy_manager s') = proxies (proxy_manager s)
    ∧ (proxy (config s') = proxy (config s)
       ∨ ∃ p, proxy (config s') = Some p ∧ p ≠ ""
              ∧ p ∈ proxies (proxy_manager s)
              ∧ fail_count (proxy_manager s') p < 3
              ∧ _api_client s' = None ∧ _web_client s' = None).
Proof.
  intros Hs. unfold _proxy_failed, bind, get.
  set (pmf := mark_failed (proxy (config s)) (proxy_manager s)).
  assert (H1 : (if truthy (proxy (config s))
                then on_pool_ (mark_failed (proxy (config s)))
                else ret tt) s = (Ok tt, set_proxy_manager pmf s)).
  { unfold pmf. rewrite <- mark_failed_falsy.
    destruct (truthy (proxy (config s))); [done|]. by destruct s. }
  rewrite H1. simpl. unfold on_pool. simpl.
  assert (Hpf : cursor_ok pmf) by (by apply mark_failed_cursor_ok).
  destruct (get_next_proxy_in_range (proxy (config s)) pmf Hpf)
    as (r & pm' & Heq & Hc & Hp & _).
  rewrite Heq. simpl.
  assert (Hpmf : proxies pmf = proxies (proxy_manager s))
    by apply mark_failed_proxies.
  pose proof (get_next_proxy_failed (proxy (config s)) pmf) as [Hf _].
  rewrite Heq in Hf. simpl in Hf.
  destruct r as [p|]; simpl.
  - destruct (String.eqb_spec p "") as [->|Hne]; simpl.
    + eexists. split; [reflexivity|]. simpl.
      split; [done|]. split; [done|]. split; [congruence|]. by left.
    + eexists. split; [reflexivity|]. simpl.
      split; [done|]. split; [done|]. split; [congruence|]. right.
      destruct (get_next_proxy_usable _ _ _ _ Heq) as (Hin & Hcount).
      exists p. split; [done|]. split; [done|]. split; [by rewrite <- Hpmf|].
      split; [|done]. unfold fail_count in *. by rewrite Hf.
  - eexists. split; [reflexivity|]. simpl.
    split; [done|]. split; [done|]. split; [congruence|]. by left.
Qed.

Lemma proxy_failed_switches_witness :
  ∃ s',
    _proxy_failed session2 = (Ok tt, s')
    ∧ Unified.failed s' = Unified.failed session2 + 1
    ∧ Proxy.failed (proxy_manager s')
      = Proxy.failed (mark_failed (proxy (config session2)) (proxy_manager session2))
    ∧ proxies (proxy_manager s') = proxies (proxy_manager session2)
    ∧ (proxy (config s') = proxy (config session2)
       ∨ ∃ p, proxy (config s') = Some p ∧ p ≠ ""
              ∧ p ∈ proxies (proxy_manager session2)
              ∧ fail_count (proxy_manager s') p < 3
              ∧ _api_client s' = None ∧ _web_client s' = None).
Proof.
  apply (proxy_failed_switches session2).
  left. simpl. lia.
Defined.

End EngineSafety.

Module EngineStale.
Import Proxy Unified Logic Accounts ProxyExamples EngineExamples MoreExamples.
Import ProxyFacts EngineFacts ProxyToolsFacts.

(** *** With the cursor behind the end every call fails *)

Lemma get_proxy_stale pm :
  stale_pool pm →
  ∃ pm', get_proxy pm = (Raise IndexError, pm') ∧ stale_pool pm'.
Proof.
  intros [Hne Hge]. rewrite get_proxy_nonempty by done.
  set (pm1 := if all_failed pm then Proxy.set_failed ∅ pm else pm).
  assert (Hp1 : proxies pm1 = proxies pm) by (unfold pm1; by destruct (all_failed pm)).
  assert (Hi1 : idx pm1 = idx pm) by (unfold pm1; by destruct (all_failed pm)).
  exists pm1. split.
  - apply cycle_out_of_range; [by rewrite Hp1, Hi1|].
    rewrite Hp1. by destruct (proxies pm).
  - split; by rewrite Hp1, ?Hi1.
Qed.

Lemma get_next_proxy_stale cur pm :
  stale_pool pm →
  get_next_proxy cur pm = (Raise IndexError, pm)
  ∨ ∃ r, get_next_proxy cur pm = (Ok r, pm).
Proof.
  intros [Hne Hge].
  destruct (proxies pm) as [|p0 [|p1 l]] eqn:Hl; [done| |].
  - right. unfold get_next_proxy. rewrite Hl. by eexists.
  - left. rewrite (get_next_proxy_many cur pm p0 (p1 :: l)) by done.
    rewrite cycle_out_of_range; [done|by rewrite Hl|by rewrite Hl].
Qed.

Lemma mark_failed_stale p pm : stale_pool pm → stale_pool (mark_failed p pm).
Proof.
  intros [Hne Hge]. destruct (mark_failed_proxies p pm) as [Hp Hi].
  split; by rewrite Hp, ?Hi.
Qed.

Lemma on_pool_get_proxy_stale s :
  stale s →
  ∃ pm', on_pool get_proxy s = (Raise IndexError, set_proxy_manager pm' s)
         ∧ stale_pool pm'.
Proof.
  intros Hs. destruct (get_proxy_stale _ Hs) as (pm' & Heq & Hs').
  exists pm'. unfold on_pool. by rewrite Heq.
Qed.

Lemma proxy_failed_stale s :
  stale s →
  ∃ s', stale s' ∧ mode s' = mode s
        ∧ (_proxy_failed s = (Raise IndexError, s') ∨ _proxy_failed s = (Ok tt, s')).
Proof.
  intros Hs. unfold _proxy_failed, bind, get.
  set (s1 := snd ((if truthy (proxy (config s))
                   then on_pool_ (mark_failed (proxy (config s)))
                   else ret tt) s)).
  assert (H1 : (if truthy (proxy (config s))
                then on_pool_ (mark_failed (proxy (config s)))
                else ret tt) s = (Ok tt, s1)).
  { unfold s1. by destruct (truthy (proxy (config s))). }
  assert (Hs1 : stale s1 ∧ mode s1 = mode s).
  { unfold s1. destruct (truthy (proxy (config s))); simpl; [|done].
    split; [|done]. by apply mark_failed_stale. }
  rewrite H1. destruct Hs1 as [Hs1 Hm1]. simpl.
  set (s2 := Unified.set_failed (Unified.failed s1 + 1) s1).
  assert (Hs2 : stale s2) by done.
  unfold on_pool.
  destruct (get_next_proxy_stale (proxy (config s1)) (proxy_manager s1) Hs1)
    as [Heq|[r Heq]]; rewrite Heq; simpl.
  - eexists. split; [|split; [|by left]]; done.
  - destruct (truthy r); simpl; (eexists; split; [|split; [|by right]]; done).
Qed.

Section Stale.

Variable E : Env.

Lemma api_except_stale e s :
  stale s →
  ∃ s', stale s' ∧ mode s' = mode s
        ∧ (api_except E e s = (Raise IndexError, s')
           ∨ api_except E e s = (Ok Next, s')).
Proof.
  intros Hs. unfold api_except, bind, log, modify.
  destruct (_ || _).
  - destruct (proxy_failed_stale (set_logs (logs s ++ [LogApiException e]) s))
      as (s' & Hs' & Hm & [Heq|Heq]); [done|..]; rewrite Heq;
      exists s'; split; [done| |done|]; (split; [done|]); [by left|by right].
  - eexists. split; [|split; [|by right]]; done.
Qed.

Lemma api_attempt_stale q p s :
  stale s →
  ∃ s', stale s' ∧ mode s' = mode s
        ∧ api_attempt E q p s = (Raise IndexError, s').
Proof.
  intros Hs. unfold api_attempt, bind, modify.
  destruct (on_pool_get_proxy_stale (set_total (total s + 1) s))
    as (pm' & Heq & Hs'); [done|].
  rewrite Heq. exists (set_proxy_manager pm' (set_total (total s + 1) s)).
  split; [exact Hs'|by split].
Qed.

Lemma stage1_stale q p s :
  stale s →
  ∃ s', stale s' ∧ mode s' = mode s
        ∧ (stage1 E q p (set_logs [] s) = (Raise IndexError, s')
           ∨ stage1 E q p (set_logs [] s) = (Ok Next, s')).
Proof.
  intros Hs.
  assert (mode s = WEB ∨ mode s ≠ WEB) as [Hw|Hw]
    by (destruct (mode s); auto; right; discriminate).
  - exists (set_logs [] s). split; [done|]. split; [done|]. right.
    unfold stage1, bind, get. simpl. by rewrite Hw.
  - rewrite stage1_unfold by done.
    destruct (api_attempt_stale q p (set_logs [LogStage1] s))
      as (s1 & Hs1 & Hm1 & Heq); [done|].
    rewrite Heq.
    destruct (api_except_stale IndexError s1 Hs1) as (s2 & Hs2 & Hm2 & Hor).
    exists s2. split; [done|]. split; [by rewrite Hm2, Hm1|done].
Qed.

Lemma web_stage_stale q p s :
  stale s → fst (web_stage E q p s) = Raise IndexError.
Proof.
  intros Hs. unfold web_stage, bind. simpl. unfold bind.
  destruct (on_pool_get_proxy_stale s Hs) as (pm' & Heq & _).
  by rewrite Heq.
Qed.

Lemma stage3_stale q p mr s :
  stale s → 1 < mr → fst (stage3 E q p mr s) = Raise IndexError.
Proof.
  intros Hs Hmr. unfold stage3.
  destruct (Z.ltb_spec 1 mr); [|lia]. unfold bind.
  destruct (on_pool_get_proxy_stale s Hs) as (pm' & Heq & _).
  by rewrite Heq.
Qed.

Lemma after_stage1_stale q p mr s :
  stale s → mode s ≠ API ∨ 1 < mr →
  fst (after_stage1 E q p mr s) = Raise IndexError.
Proof.
  intros Hs Hor. unfold after_stage1, bind.
  assert (mode s = API ∨ mode s ≠ API) as [Ha|Ha]
    by (destruct (mode s); auto; right; discriminate).
  - destruct Hor as [?|Hmr]; [done|].
    rewrite stage2_skipped by done. simpl. unfold bind.
    pose proof (stage3_stale q p mr s Hs Hmr) as H3.
    destruct (stage3 E q p mr s) as [[f|e] s3]; simpl in H3; [done|].
    by injection H3 as ->.
  - rewrite stage2_enters by done.
    pose proof (web_stage_stale q p
                  (set_logs (logs s ++ [LogStage2]) (set_mode WEB s))) as H2.
    destruct (web_stage E q p _) as [[f|e] s2]; simpl in H2.
    + by specialize (H2 Hs).
    + specialize (H2 Hs). by injection H2 as ->.
Qed.

Lemma search_stale q p mr s :
  stale s → mode s ≠ API ∨ 1 < mr →
  fst (search E q p mr s) = Raise IndexError.
Proof.
  intros Hs Hor. rewrite search_unfold.
  destruct (stage1_stale q p s Hs) as (s1 & Hs1 & Hm1 & [Heq|Heq]); rewrite Heq.
  - done.
  - apply after_stage1_stale; [done|]. by rewrite Hm1.
Qed.

End Stale.

(** X17. Once the cursor of the pool is behind the end of a sequence that
    is not empty (the state a swap-in of a shorter sequence leaves), a call
    of [search] raises IndexError whenever the mode is not [API] or the
    retry budget is above 1: the lookups of the second and third stage are
    outside every [try]. [search_all], which uses the default budget of 3,
    then raises IndexError at its first page. *)
Theorem stale_cursor_breaks_search (E : Env) (q : string) (p mr max_pages mcf : Z)
    (s : UnifiedFofaClient) :
  stale s →
  mode s ≠ API ∨ 1 < mr →
  0 < end_count (config s) → 1 ≤ max_pages →
  fst (search E q p mr s) = Raise IndexError
  ∧ ∃ s', search_all E q max_pages mcf s = Some (Raise IndexError, s').
Proof.
  intros Hs Hor Hec Hmp. split; [by apply search_stale|].
  unfold search_all.
  destruct (Z.to_nat max_pages) as [|fuel] eqn:Hf; [lia|].
  rewrite search_all_loop_S.
  set (ls := mkLoopState [] 1 0).
  replace ((Z.of_nat (length (all_results ls)) <? end_count (config s))
           && (page ls <=? max_pages)) with true
    by (symmetry; apply andb_true_intro;
        split; [apply Z.ltb_lt|apply Z.leb_le]; simpl; lia).
  unfold search_all_body, bind. change (page ls) with 1.
  assert (H13 : 1 < 3) by lia.
  pose proof (search_stale E q 1 3 s Hs (or_intror H13)) as Hraise.
  destruct (search E q 1 3 s) as [[r|e] s1]; simpl in Hraise; [done|].
  injection Hraise as ->. by exists s1.
Qed.

Lemma stale_cursor_breaks_search_witness :
  fst (search env_data "port=80" 1 3 stale_session) = Raise IndexError
  ∧ ∃ s', search_all env_data "port=80" 10 3 stale_session
          = Some (Raise IndexError, s').
Proof.
  apply (stale_cursor_breaks_search env_data "port=80" 1 3 10 3 stale_session).
  - split; [vm_compute; discriminate|vm_compute; lia].
  - right. lia.
  - vm_compute. reflexivity.
  - lia.
Defined.

End EngineStale.

(** ** Ban markers and the first page *)

Module EnginePages.
Import Proxy Unified Logic Accounts ProxyExamples EngineExamples MoreExamples.
Import ProxyFacts EngineFacts.

(** *** Ban markers *)

Lemma string_prefix_app w post : String.prefix w (w +:+ post) = true.
Proof.
  induction w as [|a w IH]; simpl; [by destruct post|].
  by destruct (Ascii.ascii_dec a a).
Qed.

Lemma contains_unfold needle hay :
  contains needle hay
  = String.prefix needle hay
    || match hay with
       | EmptyString => false
       | String _ rest => contains needle rest
       end.
Proof. by destruct hay. Qed.

(** [needle in hay] holds wherever [needle] stands in [hay]. *)
Lemma contains_app pre w post : contains w (pre +:+ w +:+ post) = true.
Proof.
  induction pre as [|a pre IH].
  - change ("" +:+ w +:+ post) with (w +:+ post).
    by rewrite contains_unfold, string_prefix_app.
  - change (String a pre +:+ w +:+ post) with (String a (pre +:+ w +:+ post)).
    rewrite contains_unfold, IH. apply orb_true_r.
Qed.

Lemma existsb_contains (l : list string) w text :
  w ∈ l → contains w text = true → existsb (fun x => contains x text) l = true.
Proof.
  intros Hw Hc. apply existsb_exists. exists w. split; [|done].
  by apply list_elem_of_In.
Qed.

(** X18. A page that holds one of the ban markers of [_is_ban_html], or
    "/captcha", at any place is classified as a ban; a response with code
    -3000 or 850100 is classified as a ban whatever its message says, and so
    is a response whose lower-cased message holds one of the markers of
    [_is_ban_response] at any place. *)
Theorem ban_markers_are_found (E : Env) (pre w post : string) (r : FofaResponse) :
  w ∈ "/captcha" :: ban_words_html →
  (code r = -3000 ∨ code r = 850100
   ∨ ∃ pre' w' post',
       w' ∈ ban_words_api ∧ py_lower E (message r) = pre' +:+ w' +:+ post') →
  _is_ban_html E (pre +:+ w +:+ post) = true
  ∧ _is_ban_response E r = true
  ∧ ban_signal E (Some r) = true.
Proof.
  intros Hw Hr.
  assert (Hresp : _is_ban_response E r = true).
  { unfold _is_ban_response.
    destruct Hr as [->|[->|(pre' & w' & post' & Hw' & Hm)]]; [done..|].
    destruct (code r =? -3000); [done|]. destruct (code r =? 850100); [done|].
    apply (existsb_contains _ w'); [done|]. rewrite Hm. apply contains_app. }
  split; [|by split].
  unfold _is_ban_html. destruct (String.eqb _ ""); [done|].
  apply elem_of_cons in Hw as [->|Hw].
  - rewrite contains_app. by rewrite orb_true_r.
  - destruct (_ || _); [done|].
    apply (existsb_contains _ w); [done|]. apply contains_app.
Qed.

Lemma ban_markers_are_found_witness :
  _is_ban_html env_data ("<html>" +:+ "禁止访问" +:+ "</html>") = true
  ∧ _is_ban_response env_data (bare_response 850100 "ok") = true
  ∧ ban_signal env_data (Some (bare_response 850100 "ok")) = true.
Proof.
  apply (ban_markers_are_found env_data "<html>" "禁止访问" "</html>"
           (bare_response 850100 "ok")).
  - apply (bool_decide_unpack _). vm_compute. exact I.
  - right. left. reflexivity.
Defined.

(** *** The first page of [search_all] *)

Lemma of_asset_id r : of_asset r = r.
Proof.
  destruct r as [l h p t i c a o sv m]. unfold of_asset. simpl. f_equal.
  - destruct (Z.eqb_spec p 0); congruence.
  - destruct (String.eqb_spec i ""); congruence.
  - destruct (String.eqb_spec c ""); congruence.
  - destruct (String.eqb_spec o ""); congruence.
  - destruct (String.eqb_spec sv ""); congruence.
  - destruct (String.eqb_spec m ""); congruence.
Qed.

Lemma map_of_asset l : map of_asset l = l.
Proof. induction l as [|r l IH]; simpl; [done|]. by rewrite of_asset_id, IH. Qed.

(** X19. When the first page that [search] returns already holds as many
    assets as the target asks for, [search_all] returns exactly the first
    [end_count] assets of that page, each record as the response carried
    it, and ends in the state the one call of [search] left: no second page
    is asked for. *)
Theorem first_page_reaches_target (E : Env) (q : string) (max_pages mcf : Z)
    (s s1 : UnifiedFofaClient) (r : FofaResponse) :
  0 < end_count (config s) → 1 ≤ max_pages →
  search E q 1 3 s = (Ok (Some r), s1) →
  end_count (config s) ≤ Z.of_nat (length (response_assets r)) →
  search_all E q max_pages mcf s
  = Some (Ok (take (Z.to_nat (end_count (config s))) (response_assets r)), s1).
Proof.
  intros Hec Hmp Hsearch Hlen. unfold search_all.
  destruct (Z.to_nat max_pages) as [|fuel] eqn:Hf; [lia|].
  rewrite (search_all_loop_target E q max_pages mcf fuel _ s r s1);
    simpl; rewrite ?map_of_asset; try done; lia.
Qed.

Lemma first_page_reaches_target_witness :
  search_all env_data "port=80" 10 3 session_small
  = Some (Ok (take (Z.to_nat (end_count (config session_small)))
                (response_assets (api_page 2 50 1))),
          snd (search env_data "port=80" 1 3 session_small)).
Proof.
  apply (first_page_reaches_target env_data "port=80" 10 3 session_small).
  - vm_compute. reflexivity.
  - lia.
  - vm_compute. reflexivity.
  - vm_compute. discriminate.
Defined.

End EnginePages.

(** ** Properties of the plain clients *)

Module PlainClientFacts.
Import Unified EngineExamples PlainClients PlainExamples TotalFacts.

Section MakeRequestFacts.

Variable J : Type.
Variable code_of : J → option Z.
Variable has_data : J → bool.
Variable outcome : nat → attempt J.

Lemma make_request_loop_skips n j count :
  (∀ k, (k < j)%nat → is_answer (outcome (count + k)%nat) = false) →
  make_request_loop J code_of has_data outcome (j + n) count
  = make_request_loop J code_of has_data outcome n (count + j)%nat.
Proof.
  revert count. induction j as [|j IH]; intros count Hfail; simpl.
  - by rewrite Nat.add_0_r.
  - pose proof (Hfail 0%nat ltac:(lia)) as H0. rewrite Nat.add_0_r in H0.
    destruct (outcome count) eqn:Ho; [done|..];
      (rewrite IH; [f_equal; lia|];
       intros k Hk; replace (S count + k)%nat with (count + S k)%nat by lia;
       apply Hfail; lia).
Qed.

Lemma checked_spec d r :
  checked J code_of has_data d = Some r ↔
  r = d ∧ code_of d ≠ Some (-3000) ∧ code_of d ≠ Some 850100
  ∧ (code_of d = Some 0 ∨ has_data d = true).
Proof.
  unfold checked, code_is. destruct (code_of d) as [c|]; simpl.
  - destruct (Z.eqb_spec c (-3000)) as [->|H1]; simpl.
    { split; [done|]. by intros (_ & ? & _). }
    destruct (Z.eqb_spec c 850100) as [->|H2]; simpl.
    { split; [done|]. by intros (_ & _ & ? & _). }
    destruct (Z.eqb_spec c 0) as [->|H3]; simpl.
    { split; [intros [= <-]; repeat split; auto; congruence|by intros [-> _]]. }
    destruct (has_data d); simpl.
    + split; [intros [= <-]; repeat split; auto; congruence|by intros [-> _]].
    + split; [done|]. intros (_ & _ & _ & [?|?]); congruence.
  - destruct (has_data d); simpl.
    + split; [intros [= <-]; repeat split; auto; congruence|by intros [-> _]].
    + split; [done|]. intros (_ & _ & _ & [?|?]); congruence.
Qed.

Lemma make_request_loop_bound n count :
  (count ≤ snd (make_request_loop J code_of has_data outcome n count)
   ≤ count + n)%nat
  ∧ ∀ d, fst (make_request_loop J code_of has_data outcome n count) = Some d →
         checked J code_of has_data d = Some d.
Proof.
  revert count. induction n as [|n IH]; intros count; simpl.
  - split; [lia|done].
  - destruct (outcome count) as [data| | |]; simpl.
    + split; [lia|]. intros d Hd. apply checked_spec in Hd as Hd'.
      destruct Hd' as [-> _]. done.
    + destruct (IH (S count)) as [H1 H2]. split; [lia|done].
    + destruct (IH (S count)) as [H1 H2]. split; [lia|done].
    + destruct (IH (S count)) as [H1 H2]. split; [lia|done].
Qed.

End MakeRequestFacts.

(** X20. [_make_request] asks again only after an exception. The first
    request that is answered with a JSON object ends the loop, whatever the
    object says: the object is returned when its code is 0 or it has a
    ["data"] key, and its code is neither -3000 nor 850100; otherwise [None]
    is returned, a ban included, with no further request. *)
Theorem make_request_first_answer (J : Type) (code_of : J → option Z)
    (has_data : J → bool) (outcome : nat → attempt J) (max_retries : Z)
    (count j : nat) (d : J) :
  (j < Z.to_nat max_retries)%nat →
  (∀ k, (k < j)%nat → is_answer (outcome (count + k)%nat) = false) →
  outcome (count + j)%nat = Answer d →
  snd (_make_request J code_of has_data outcome max_retries count)
  = (count + j + 1)%nat
  ∧ (fst (_make_request J code_of has_data outcome max_retries count) = Some d
     ∨ fst (_make_request J code_of has_data outcome max_retries count) = None)
  ∧ (fst (_make_request J code_of has_data outcome max_retries count) = Some d
     ↔ code_of d ≠ Some (-3000) ∧ code_of d ≠ Some 850100
       ∧ (code_of d = Some 0 ∨ has_data d = true)).
Proof.
  intros Hj Hfail Hans. unfold _make_request.
  replace (Z.to_nat max_retries) with (j + S (Z.to_nat max_retries - j - 1))%nat
    by lia.
  rewrite make_request_loop_skips by done. simpl. rewrite Hans. simpl.
  split; [lia|].
  pose proof (checked_spec J code_of has_data d) as Hspec.
  destruct (checked J code_of has_data d) as [r|] eqn:Hc.
  - destruct (proj1 (Hspec r) eq_refl) as (-> & H1 & H2 & H3).
    split; [by left|]. split; [done|]. intros _. by apply Hspec.
  - split; [by right|]. split; [done|]. intros H.
    by pose proof (proj2 (Hspec d) (conj eq_refl H)).
Qed.

Lemma make_request_first_answer_witness :
  snd (_make_request json_obj fst snd third_time 3 0) = (0 + 2 + 1)%nat
  ∧ (fst (_make_request json_obj fst snd third_time 3 0) = Some (Some 0, true)
     ∨ fst (_make_request json_obj fst snd third_time 3 0) = None)
  ∧ (fst (_make_request json_obj fst snd third_time 3 0) = Some (Some 0, true)
     ↔ fst (Some 0, true) ≠ Some (-3000) ∧ fst (Some 0, true) ≠ Some 850100
       ∧ (fst (Some 0, true) = Some 0 ∨ snd (Some 0, true) = true)).
Proof.
  apply (make_request_first_answer json_obj fst snd third_time 3 0 2 (Some 0, true)).
  - simpl. lia.
  - intros k Hk. destruct k as [|[|k]]; [reflexivity..|lia].
  - reflexivity.
Defined.

(** X21. [_make_request] never makes more than [max_retries] requests, and
    none when [max_retries] is not positive; what it returns is never an
    object with code -3000 or 850100; and when every request ends in an
    exception it returns [None] after exactly [max_retries] requests. *)
Theorem make_request_is_bounded (J : Type) (code_of : J → option Z)
    (has_data : J → bool) (outcome : nat → attempt J) (max_retries : Z)
    (count : nat) :
  (count ≤ snd (_make_request J code_of has_data outcome max_retries count)
   ≤ count + Z.to_nat max_retries)%nat
  ∧ (∀ d, fst (_make_request J code_of has_data outcome max_retries count) = Some d →
          code_of d ≠ Some (-3000) ∧ code_of d ≠ Some 850100
          ∧ (code_of d = Some 0 ∨ has_data d = true))
  ∧ ((∀ k, (k < Z.to_nat max_retries)%nat →
           is_answer (outcome (count + k)%nat) = false) →
     _make_request J code_of has_data outcome max_retries count
     = (None, (count + Z.to_nat max_retries)%nat)).
Proof.
  unfold _make_request.
  destruct (make_request_loop_bound J code_of has_data outcome
              (Z.to_nat max_retries) count) as [H1 H2].
  split; [done|]. split.
  - intros d Hd. specialize (H2 d Hd).
    apply checked_spec in H2 as (_ & ? & ? & ?). done.
  - intros Hfail.
    replace (Z.to_nat max_retries) with (Z.to_nat max_retries + 0)%nat at 1 by lia.
    by rewrite make_request_loop_skips.
Qed.

Section SearchAllFacts.

Variable search : Z → option FofaResponse.
Variable end_count : Z.

Lemma py_take_prefix {A} (n : Z) (l : list A) : py_take n l `prefix_of` l.
Proof. unfold py_take. destruct (0 <=? n); apply prefix_take. Qed.

Lemma py_take_length {A} (n : Z) (l : list A) :
  0 ≤ n → Z.of_nat (length (py_take n l)) ≤ n.
Proof.
  intros Hn. unfold py_take. destruct (Z.leb_spec 0 n); [|lia].
  rewrite length_take. lia.
Qed.

(** What the loop of [ApiFofaClient.search_all] returns starts with what it
    had and goes on with assets of the pages from [page] on, in order; what
    it raises comes from the comparison of the total of some page. *)
Lemma api_search_all_loop_spec max_pages fuel acc page :
  (Z.to_nat (max_pages + 1 - page) ≤ fuel)%nat →
  Z.of_nat (length acc) ≤ Z.max 0 end_count →
  ∃ out k,
    api_search_all_loop search end_count max_pages fuel acc page = Some out
    ∧ (k ≤ fuel)%nat
    ∧ match out with
      | Ok res =>
          res `prefix_of` acc ++ pages_from search page k
          ∧ acc `prefix_of` res
          ∧ Z.of_nat (length res) ≤ Z.max 0 end_count
      | Raise e =>
          ∃ page' response n,
            search page' = Some response
            ∧ total_reached (get_total response) n = Raise e
      end.
Proof.
  revert acc page. induction fuel as [|fuel IH]; intros acc page Hfuel Hacc.
  - simpl. exists (Ok acc), 0%nat.
    destruct (Z.ltb_spec (Z.of_nat (length acc)) end_count); simpl.
    + destruct (Z.leb_spec page max_pages); [lia|].
      simpl. rewrite app_nil_r. by repeat split.
    + simpl. rewrite app_nil_r. by repeat split.
  - simpl.
    destruct (Z.ltb_spec (Z.of_nat (length acc)) end_count) as [Hlt|Hge]; simpl;
      [|exists (Ok acc), 0%nat; simpl; rewrite app_nil_r; repeat split; [lia|done..]].
    destruct (Z.leb_spec page max_pages) as [Hp|Hp];
      [|exists (Ok acc), 0%nat; simpl; rewrite app_nil_r; repeat split; [lia|done..]].
    destruct (search page) as [response|] eqn:Hs;
      [|exists (Ok acc), 0%nat; simpl; rewrite app_nil_r; repeat split; [lia|done..]].
    destruct (response_assets response) as [|a results] eqn:Ha;
      [exists (Ok acc), 0%nat; simpl; rewrite app_nil_r; repeat split; [lia|done..]|].
    destruct (Z.leb_spec end_count (Z.of_nat (length (acc ++ a :: results))))
      as [Hfull|Hmore].
    + exists (Ok (py_take end_count (acc ++ a :: results))), 1%nat.
      split; [done|]. split; [lia|]. simpl. rewrite Hs, Ha, app_nil_r.
      split; [apply py_take_prefix|]. split.
      * unfold py_take. destruct (Z.leb_spec 0 end_count); [|lia].
        rewrite take_app_ge by lia. by apply prefix_app_r.
      * pose proof (py_take_length end_count (acc ++ a :: results)). lia.
    + destruct (total_reached (get_total response) _) as [[|]|e] eqn:Ht.
      * exists (Ok (acc ++ a :: results)), 1%nat.
        split; [done|]. split; [lia|]. simpl. rewrite Hs, Ha, app_nil_r.
        split; [done|]. split; [by apply prefix_app_r|lia].
      * destruct (IH (acc ++ a :: results) (page + 1)) as (out & k & Heq & Hk & Hout);
          [lia|lia|].
        exists out, (S k). split; [done|]. split; [lia|].
        destruct out as [res|e]; [|done].
        destruct Hout as (H1 & H2 & H3). simpl.
        rewrite Hs, Ha. split; [by rewrite app_assoc in *|].
        split; [|done]. etrans; [|exact H2]. by apply prefix_app_r.
      * exists (Raise e), 0%nat. split; [done|]. split; [lia|]. by eexists _, _, _.
Qed.

Lemma web_search_all_loop_spec max_pages fuel acc page :
  (Z.to_nat (max_pages + 1 - page) ≤ fuel)%nat →
  Z.of_nat (length acc) ≤ Z.max 0 end_count →
  ∃ res k,
    web_search_all_loop search end_count max_pages fuel acc page = Some res
    ∧ (k ≤ fuel)%nat
    ∧ res `prefix_of` acc ++ pages_from search page k
    ∧ acc `prefix_of` res
    ∧ Z.of_nat (length res) ≤ Z.max 0 end_count.
Proof.
  revert acc page. induction fuel as [|fuel IH]; intros acc page Hfuel Hacc.
  - simpl. exists acc, 0%nat.
    destruct (Z.ltb_spec (Z.of_nat (length acc)) end_count); simpl.
    + destruct (Z.leb_spec page max_pages); [lia|].
      simpl. rewrite app_nil_r. by repeat split.
    + simpl. rewrite app_nil_r. by repeat split.
  - simpl.
    destruct (Z.ltb_spec (Z.of_nat (length acc)) end_count) as [Hlt|Hge]; simpl;
      [|exists acc, 0%nat; simpl; rewrite app_nil_r; repeat split; [lia|done..]].
    destruct (Z.leb_spec page max_pages) as [Hp|Hp];
      [|exists acc, 0%nat; simpl; rewrite app_nil_r; repeat split; [lia|done..]].
    destruct (search page) as [response|] eqn:Hs;
      [|exists acc, 0%nat; simpl; rewrite app_nil_r; repeat split; [lia|done..]].
    destruct (response_assets response) as [|a results] eqn:Ha;
      [exists acc, 0%nat; simpl; rewrite app_nil_r; repeat split; [lia|done..]|].
    destruct (Z.leb_spec end_count (Z.of_nat (length (acc ++ a :: results))))
      as [Hfull|Hmore].
    + exists (py_take end_count (acc ++ a :: results)), 1%nat.
      split; [done|]. split; [lia|]. simpl. rewrite Hs, Ha, app_nil_r.
      split; [apply py_take_prefix|]. split.
      * unfold py_take. destruct (Z.leb_spec 0 end_count); [|lia].
        rewrite take_app_ge by lia. by apply prefix_app_r.
      * pose proof (py_take_length end_count (acc ++ a :: results)). lia.
    + destruct (IH (acc ++ a :: results) (page + 1)) as (res & k & Heq & Hk & H1 & H2 & H3);
        [lia|lia|].
      exists res, (S k). split; [done|]. split; [lia|]. simpl.
      rewrite Hs, Ha. split; [by rewrite app_assoc in *|].
      split; [|done]. etrans; [|exact H2]. by apply prefix_app_r.
Qed.

End SearchAllFacts.


End PlainClientFacts.

(** ** Sessions, collected pools and the probe *)

Module SessionFacts.
Import Proxy Unified Logic Accounts ProxyTools ProxyExamples EngineExamples.
Import ProxyFacts EngineFacts ProxyToolsFacts EngineSafety.

(** *** From a new pool and a new engine *)

Lemma init_cursor_ok direct : cursor_ok (init direct).
Proof. by right. Qed.

Lemma foldl_add_proxy_cursor_ok l pm :
  cursor_ok pm → cursor_ok (foldl (fun pm p => add_proxy p pm) pm l).
Proof.
  revert pm. induction l as [|p l IH]; intros pm Hc; simpl; [done|].
  by apply IH, add_proxy_cursor_ok.
Qed.

Lemma new_client_placed cfg initial : placed (new_client cfg initial).
Proof. apply foldl_add_proxy_cursor_ok, init_cursor_ok. Qed.

Lemma searches_placed E calls s : placed s → placed (searches E calls s).
Proof.
  revert s. induction calls as [|c calls IH]; intros s Hs; simpl; [done|].
  apply IH.
  destruct (safe_search E c.1.1 c.1.2 c.2 s Hs) as (r & s' & Heq & Hs').
  by rewrite Heq.
Qed.

(** X24. An engine built by [UnifiedFofaClient.__init__] from any list of
    initial proxies never sees an exception from [search] as long as no
    collection cycle swaps the sequence: after any session of [search]
    calls, the next call of [search] returns a response or [None]. The next
    call of [search_all] comes to an end, and the only exception that can
    leave it is the [TypeError] of comparing a reported total that is no
    number (lines 370-373); it returns a list whenever the totals that the
    signed client and the pages report are numbers or falsy. *)
Theorem new_engine_never_raises (E : Env) (cfg : SearchConfig)
    (initial : list string) (calls : list (string * Z * Z))
    (q : string) (p mr max_pages mcf : Z) :
  (∃ r s', search E q p mr (searches E calls (new_client cfg initial))
           = (Ok r, s'))
  ∧ (∃ out s',
       search_all E q max_pages mcf (searches E calls (new_client cfg initial))
       = Some (out, s')
       ∧ (∀ e, out = Raise e → ∃ msg, e = TypeError msg)
       ∧ (ordered_totals E → ∃ l, out = Ok l)).
Proof.
  assert (Hs : placed (searches E calls (new_client cfg initial)))
    by apply searches_placed, new_client_placed.
  split.
  - destruct (safe_search E q p mr _ Hs) as (r & s' & Heq & _). by exists r, s'.
  - destruct (search_all_loop_placed E q max_pages mcf (Z.to_nat max_pages)
                (mkLoopState [] 1 0) _ ltac:(simpl; lia) Hs)
      as (out & s' & Heq & _ & He & Hok).
    by exists out, s'.
Qed.

(** X25. A pool that was filled by a collection cycle alone hands out only
    validated proxies: after [_refresh_background] on a new pool, [get_proxy]
    returns a proxy whenever the sequence is not empty, and that proxy has
    passed [_validate_proxy]. *)
Theorem collected_pool_hands_out_validated (E : CycleEnv) (n : Z) (direct : bool) :
  proxies (_refresh_background E n (init direct)) ≠ [] →
  ∃ p pm',
    get_proxy (_refresh_background E n (init direct)) = (Ok (Some p), pm')
    ∧ _validate_proxy E p = true
    ∧ p ∈ proxies (_refresh_background E n (init direct)).
Proof.
  intros Hne.
  set (pm := _refresh_background E n (init direct)) in *.
  assert (Hidx : idx pm = 0%nat).
  { unfold pm, _refresh_background. simpl.
    by destruct (refresh_body_frame E (init direct)) as (_ & -> & _). }
  destruct (get_proxy_some pm Hne) as (p & i & Heq & _ & Hp & _).
  { rewrite Hidx. destruct (proxies pm); [done|simpl; lia]. }
  exists p, (set_idx i (if all_failed pm then Proxy.set_failed ∅ pm else pm)).
  split; [done|]. split; [|done].
  unfold pm, _refresh_background in Hp. simpl in Hp.
  destruct (refresh_body_adopts E (init direct) p Hp) as [Hin|Hv]; [|done].
  by apply elem_of_nil in Hin.
Qed.

Lemma collected_pool_hands_out_validated_witness :
  ∃ p pm',
    get_proxy (_refresh_background (cycle_env ["http://x:9"] (fun _ => true)) 5
                 (init true))
    = (Ok (Some p), pm')
    ∧ _validate_proxy (cycle_env ["http://x:9"] (fun _ => true)) p = true
    ∧ p ∈ proxies (_refresh_background (cycle_env ["http://x:9"] (fun _ => true)) 5
                     (init true)).
Proof.
  apply (collected_pool_hands_out_validated
           (cycle_env ["http://x:9"] (fun _ => true)) 5 true).
  vm_compute. discriminate.
Defined.

End SessionFacts.

Module ProxyProbeFacts.
Import ProxyProbe.

(** X26. [_validate_proxy] accepts a proxy in two cases only: the API
    endpoint answers with status 200 and a JSON object whose code is 0 and
    whose data is not empty; or the request to the API endpoint raises and
    the web endpoint answers with status 200, 301 or 302 and neither the page
    nor the URL shows a CAPTCHA. So a status 200 alone does not validate, an
    answer with code 850100 or -3000 never does, and any answer of the API
    endpoint ends the probe after one request. *)
Theorem validation_needs_real_payload (client_built : bool) (api : api_probe)
    (web : web_probe) :
  (fst (_validate_proxy_body client_built api web) = true ↔
   client_built = true
   ∧ (api = ApiAnswers 200 (Some (Some 0, true))
      ∨ (api = ApiRaises
         ∧ ∃ status_code,
             web = WebAnswers status_code false (Some false)
             ∧ (status_code = 200 ∨ status_code = 301 ∨ status_code = 302))))
  ∧ (snd (_validate_proxy_body client_built api web) ≤ 2)%nat
  ∧ (∀ status_code json,
       client_built = true → api = ApiAnswers status_code json →
       snd (_validate_proxy_body client_built api web) = 1%nat).
Proof.
  split; [|split].
  - unfold _validate_proxy_body. destruct client_built; simpl.
    2: { split; [done|]. by intros [? _]. }
    destruct api as [|st json]; simpl.
    + destruct web as [|st ch cu]; simpl.
      { split; [done|]. intros [_ [?|[_ (? & ? & _)]]]; done. }
      split.
      * intros H. split; [done|]. right. split; [done|]. exists st.
        destruct ((st =? 200) || (st =? 301) || (st =? 302)) eqn:Hst; [|done].
        destruct ch; [done|]. destruct cu as [[|]|]; [done| |done].
        split; [done|].
        apply orb_true_iff in Hst as [Hst|Hst];
          [apply orb_true_iff in Hst as [Hst|Hst]|]; apply Z.eqb_eq in Hst; auto.
      * intros [_ [?|[_ (st' & Hweb & Hst)]]]; [done|].
        injection Hweb as -> -> ->. by destruct Hst as [-> | [-> | ->]].
    + split.
      * intros H. split; [done|]. left.
        destruct (Z.eqb_spec st 200) as [->|]; [|done].
        destruct json as [[[c|] d]|]; [|done..].
        apply andb_true_iff in H as [Hc ->]. apply Z.eqb_eq in Hc as ->. done.
      * intros [_ [Hapi|[? _]]]; [|done]. by injection Hapi as -> ->.
  - unfold _validate_proxy_body.
    destruct client_built, api, web; simpl; lia.
  - intros st json -> ->. done.
Qed.

End ProxyProbeFacts.

(** ** Batches of queries *)

Module BatchFacts.
Import Unified EngineExamples Batch BatchExamples.

Lemma search_batch_from_spec search_all n queries acc :
  (∀ q, q ∉ queries →
        fst (search_batch_from search_all n queries acc) !! q = acc !! q)
  ∧ (∀ i q, queries !! i = Some q →
            (∀ j, (i < j)%nat → queries !! j ≠ Some q) →
            fst (search_batch_from search_all n queries acc) !! q
            = Some (search_all (n + i)%nat q))
  ∧ snd (search_batch_from search_all n queries acc) = (n + length queries)%nat.
Proof.
  revert n acc. induction queries as [|q0 rest IH]; intros n acc; simpl.
  - split; [done|]. split; [by intros i q ?|lia].
  - destruct (IH (S n) (<[q0 := search_all n q0]> acc)) as (IH1 & IH2 & IH3).
    split; [|split].
    + intros q Hq. apply not_elem_of_cons in Hq as [Hne Hq].
      rewrite IH1 by done. by rewrite lookup_insert_ne.
    + intros i q Hi Hlast. destruct i as [|i]; simpl in Hi.
      * injection Hi as ->. rewrite Nat.add_0_r, IH1.
        -- by rewrite lookup_insert_eq.
        -- intros [j Hj]%list_elem_of_lookup.
           by apply (Hlast (S j) ltac:(lia)).
      * rewrite (IH2 i q Hi).
        -- f_equal. f_equal. lia.
        -- intros j Hj. apply (Hlast (S j)). lia.
    + rewrite IH3. lia.
Qed.



End BatchFacts.

(** ** What the pool never undoes *)

Module PoolMonotone.
Import Proxy ProxyTools ProxyExamples ProxyFacts EngineFacts ProxyToolsFacts.

(** *** What no pool operation undoes *)

Lemma grows_intro pm pm' :
  is_ready pm' = is_ready pm ∨ is_ready pm' = true →
  allow_direct pm' = allow_direct pm →
  pool pm `prefix_of` pool pm' →
  grows pm pm'.
Proof.
  intros Hr Ha Hp. split; [|by split].
  destruct Hr as [Hr|Hr]; [|by left].
  rewrite Hr. destruct (is_ready pm); auto.
Qed.

Ltac grow :=
  apply grows_intro;
    [first [by left|by right]|done|first [done|simpl; by apply prefix_app_r]].

Lemma grows_refl pm : grows pm pm.
Proof. grow. Qed.

Lemma grows_trans pm1 pm2 pm3 : grows pm1 pm2 → grows pm2 pm3 → grows pm1 pm3.
Proof.
  intros (H1 & H2 & H3) (H4 & H5 & H6).
  split; [|split; [congruence|by etrans]].
  destruct H4 as [?|H4]; [by left|]. destruct H1 as [H1|?]; [congruence|by right].
Qed.

Lemma grows_set_idx i pm : grows pm (set_idx i pm).
Proof. grow. Qed.

Lemma grows_run_op o pm : grows pm (snd (run_op o pm)).
Proof.
  destruct o as [p| |c|p|p|E n]; simpl.
  - unfold add_proxy. destruct (_ && _); grow.
  - destruct (decide (proxies pm = [])) as [Hnil|Hne].
    + unfold get_proxy. rewrite Hnil. grow.
    + rewrite get_proxy_nonempty by done.
      match goal with |- context [cycle ?a ?k ?x] =>
        destruct (cycle_moves_cursor a k x) as [i ->] end.
      destruct (all_failed pm); grow.
  - assert (H : ∃ i, snd (get_next_proxy c pm) = set_idx i pm).
    { destruct (proxies pm) as [|p0 [|p1 l]] eqn:Hl.
      - exists (idx pm). unfold get_next_proxy. rewrite Hl. by rewrite set_idx_same.
      - exists (idx pm). unfold get_next_proxy. rewrite Hl. by rewrite set_idx_same.
      - rewrite (get_next_proxy_many c pm p0 (p1 :: l)) by done.
        match goal with |- context [cycle ?a ?k ?x] =>
          destruct (cycle_moves_cursor a k x) as [i Hi] end.
        exists i. rewrite <- Hi. by destruct (cycle _ _ pm) as [[[q|]|e] pm']. }
    destruct H as [i ->]. apply grows_set_idx.
  - unfold mark_failed. destruct p as [p|]; [|grow].
    destruct (truthy (Some p)); grow.
  - unfold mark_success. destruct p as [p|]; [|grow].
    destruct (truthy (Some p)); [|grow].
    destruct (failed pm !! p); grow.
  - unfold _refresh_background, refresh_body.
    destruct (as_completed E 0 sources); [|grow].
    destruct (concat _); [grow|].
    destruct (as_completed E 1 _); [|grow].
    destruct (5 <=? _)%nat; [grow|].
    destruct (1 <=? _)%nat.
    + destruct (as_completed E 2 _); grow.
    + destruct (allow_direct pm) eqn:Hd; grow.
Qed.

(** X28. No operation of the pool undoes readiness, changes the
    direct-connection switch or takes anything out of the queue: after any
    sequence of pool operations, collection cycles included, a pool that was
    ready is still ready, [allow_direct] is what it was, and the queue starts
    with its old content. Nothing ever reads the queue, so it only grows. *)
Theorem pool_only_grows (os : list pool_op) (pm : ProxyManager) :
  (is_ready (snd (run_ops os pm)) = true ∨ is_ready pm = false)
  ∧ allow_direct (snd (run_ops os pm)) = allow_direct pm
  ∧ pool pm `prefix_of` pool (snd (run_ops os pm)).
Proof.
  change (grows pm (snd (run_ops os pm))).
  revert pm. induction os as [|o os IH]; intros pm; simpl; [apply grows_refl|].
  pose proof (grows_run_op o pm) as Ho.
  destruct (run_op o pm) as [[r|e] pm1]; simpl in *; [|done].
  eapply grows_trans; [exact Ho|apply IH].
Qed.

End PoolMonotone.
